(** * picoschema: translation of the picoschema shorthand into JSON Schema

    A shallow embedding of [picoschema.go] (package [picoschema]) and the
    properties of its four functions [ToJSONSchema], [parsePico],
    [mapToJSONSchema] and [ConvertSchema]/[sortSchemaSlices].

    Conventions of the embedding:
    - a Go [string] is a sequence of bytes: Rocq's [string], one [ascii] per byte;
    - a slice [[]T] is [option (list T)], [None] being the nil slice;
    - a pointer [*T] is [option T], [None] being the nil pointer;
    - a [map[string]any] is the list of its entries, with distinct keys,
      written in the order in which [range] visits them in the run at hand.
      Go leaves that order unspecified: every permutation of the list stands
      for the same map value;
    - a function returning a schema pointer and an [error] returns an
      [outcome]: the pair, or a run-time panic. *)

From Stdlib Require Import Bool List Arith ZArith Lia.
From Stdlib Require Import Ascii String.
From Stdlib Require Import Permutation Sorted OrderedTypeEx.
Import ListNotations.

Local Open Scope string_scope.
Local Open Scope list_scope.

(** ** Package [strings] *)

Module strings.

(** [dropPrefix p s] is [Some r] when [s = p ++ r] (Go: [HasPrefix] and the
    slice after the prefix). *)
Fixpoint dropPrefix (p s : string) : option string :=
  match p with
  | EmptyString => Some s
  | String a p' =>
      match s with
      | EmptyString => None
      | String b s' => if Ascii.eqb a b then dropPrefix p' s' else None
      end
  end.

(** [Cut s sep] slices [s] around the first instance of [sep]:
    [(before, after, found)]; when [sep] does not occur it is
    [s], the empty string and [false]. *)
Fixpoint Cut (s sep : string) : string * string * bool :=
  match dropPrefix sep s with
  | Some rest => (EmptyString, rest, true)
  | None =>
      match s with
      | EmptyString => (EmptyString, EmptyString, false)
      | String c s' =>
          let '(before, after, found) := Cut s' sep in
          (String c before, after, found)
      end
  end.

(** [CutSuffix s suffix]: [s] without the trailing [suffix] and whether it
    was there. *)
Fixpoint CutSuffix (s suffix : string) : string * bool :=
  if String.eqb s suffix then (EmptyString, true)
  else
    match s with
    | EmptyString => (EmptyString, false)
    | String c s' =>
        let '(r, found) := CutSuffix s' suffix in (String c r, found)
    end.

Definition TrimSuffix (s suffix : string) : string := fst (CutSuffix s suffix).

(** [unicode.IsSpace] on the UTF-8 encoding.  The one-byte white space is
    ['\t'], ['\n'], ['\v'], ['\f'], ['\r'], [' ']; U+0085 and U+00A0 take two
    bytes; U+1680, U+2000..U+200A, U+2028, U+2029, U+202F, U+205F and U+3000
    take three.  An invalid or overlong sequence decodes to [RuneError],
    which is not white space. *)
Definition byte (c : ascii) : N := N_of_ascii c.

Definition asciiSpace (c : ascii) : bool :=
  let n := byte c in
  ((9 <=? n) && (n <=? 13) || (n =? 32))%N.

Definition space2 (c1 c2 : ascii) : bool :=
  ((byte c1 =? 194) && ((byte c2 =? 133) || (byte c2 =? 160)))%N.

Definition space3 (c1 c2 c3 : ascii) : bool :=
  let a := byte c1 in
  let b := byte c2 in
  let c := byte c3 in
  ((a =? 225) && (b =? 154) && (c =? 128)
   || (a =? 226) && (b =? 128)
        && ((128 <=? c) && (c <=? 138) || (c =? 168) || (c =? 169) || (c =? 175))
   || (a =? 226) && (b =? 129) && (c =? 159)
   || (a =? 227) && (b =? 128) && (c =? 128))%N.

(** [TrimLeftFunc s unicode.IsSpace]: decode a rune at the front, drop it
    while it is white space. *)
Fixpoint trimLeftSpace (s : string) : string :=
  match s with
  | String c1 s1 =>
      if asciiSpace c1 then trimLeftSpace s1
      else
        match s1 with
        | String c2 s2 =>
            if space2 c1 c2 then trimLeftSpace s2
            else
              match s2 with
              | String c3 s3 =>
                  if space3 c1 c2 c3 then trimLeftSpace s3 else s
              | EmptyString => s
              end
        | EmptyString => s
        end
  | EmptyString => s
  end.

Fixpoint rev (s : string) : string :=
  match s with
  | EmptyString => EmptyString
  | String c s' => rev s' ++ String c EmptyString
  end.

(** The same from the back ([DecodeLastRuneInString]), on the reversed
    string: the last byte comes first. *)
Fixpoint trimLeftSpaceRev (s : string) : string :=
  match s with
  | String c1 s1 =>
      if asciiSpace c1 then trimLeftSpaceRev s1
      else
        match s1 with
        | String c2 s2 =>
            if space2 c2 c1 then trimLeftSpaceRev s2
            else
              match s2 with
              | String c3 s3 =>
                  if space3 c3 c2 c1 then trimLeftSpaceRev s3 else s
              | EmptyString => s
              end
        | EmptyString => s
        end
  | EmptyString => s
  end.

Definition trimRightSpace (s : string) : string := rev (trimLeftSpaceRev (rev s)).

(** [TrimSpace s]: [s] without leading and trailing white space. *)
Definition TrimSpace (s : string) : string := trimRightSpace (trimLeftSpace s).

End strings.

(** ** Package [orderedmap] (github.com/wk8/go-ordered-map/v2) *)

Module orderedmap.

(** An ordered map is the list of its pairs, oldest first; keys are
    distinct. *)
Definition OrderedMap (K V : Type) : Type := list (K * V).

Definition New {V : Type} : OrderedMap string V := [].

(** [Set_ key value om]: the value of a key that is present is replaced where
    it stands, a new key goes to the end. *)
Fixpoint Set_ {V : Type} (key : string) (value : V) (om : OrderedMap string V)
  : OrderedMap string V :=
  match om with
  | [] => [(key, value)]
  | (k, v) :: rest =>
      if String.eqb k key then (key, value) :: rest
      else (k, v) :: Set_ key value rest
  end.

Definition Keys {V : Type} (om : OrderedMap string V) : list string := map fst om.

Definition Values {V : Type} (om : OrderedMap string V) : list V := map snd om.

End orderedmap.

(** ** Dynamic values: what a variable of type [any] can hold *)

Inductive intKind : Set := KInt | KInt8 | KInt16 | KInt32 | KInt64.

Inductive uintKind : Set := KUint | KUint8 | KUint16 | KUint32 | KUint64 | KUintptr.

(** [Slice None] is a nil [[]any].  A [[]map[string]any] is a plain list,
    the code cannot tell a nil one from an empty one.  [Other t] is a value
    of any other dynamic type [t] (a [float32], a [time.Time], ...): no type
    switch or assertion of the package matches it. *)
#[warnings="-register-all"]
Inductive any : Type :=
| Nil
| Bool (b : bool)
| Int (k : intKind) (n : Z)
| Uint (k : uintKind) (n : Z)
| Float64 (bits : Z)
| Str (s : string)
| Slice (l : option (list any))
| Map (m : gomap)
| MapSlice (l : list gomap)
| Other (goType : string)
with gomap : Type :=
| GoMap (entries : list (string * any)).

Definition entries (m : gomap) : list (string * any) :=
  match m with GoMap es => es end.

(** [m[key]] with the comma-ok flag: the value bound to [key], if any. *)
Fixpoint lookup (key : string) (es : list (string * any)) : option any :=
  match es with
  | [] => None
  | (k, v) :: rest => if String.eqb k key then Some v else lookup key rest
  end.

(** [m[key]]: the zero value [nil] when [key] is absent. *)
Definition index (m : gomap) (key : string) : any :=
  match lookup key (entries m) with
  | Some v => v
  | None => Nil
  end.

(** [append s x] on a slice. *)
Definition append {A : Type} (s : option (list A)) (x : A) : option (list A) :=
  match s with
  | None => Some [x]
  | Some l => Some (l ++ [x])
  end.

(** The elements of a slice. *)
Definition elems {A : Type} (s : option (list A)) : list A :=
  match s with
  | None => []
  | Some l => l
  end.

(** ** Package [jsonschema] (github.com/invopop/jsonschema v0.12.0)

    The struct [Schema] as that version declares it, field by field and in
    its order; [Type_] is the field [Type].  The field [boolean] is the
    unexported one behind [TrueSchema] and [FalseSchema]. *)

Module jsonschema.

#[warnings="-register-all"]
Inductive Schema : Type := mkSchema {
  Version : string;
  ID : string;
  Anchor : string;
  Ref : string;
  DynamicRef : string;
  Definitions : list (string * Schema); Comments : string;
  AllOf : option (list Schema);
  AnyOf : option (list Schema);
  OneOf : option (list Schema);
  Not : option Schema;
  If : option Schema;
  Then : option Schema;
  Else : option Schema;
  DependentSchemas : list (string * Schema);
  PrefixItems : option (list Schema);
  Items : option Schema;
  Contains : option Schema;
  Properties : option (orderedmap.OrderedMap string Schema);
  PatternProperties : list (string * Schema);
  AdditionalProperties : option Schema;
  PropertyNames : option Schema;
  Type_ : string;
  Enum : option (list any);
  Const : any;
  MultipleOf : string;
  Maximum : string;
  ExclusiveMaximum : string;
  Minimum : string;
  ExclusiveMinimum : string;
  MaxLength : option Z;
  MinLength : option Z;
  Pattern : string;
  MaxItems : option Z;
  MinItems : option Z;
  UniqueItems : bool;
  MaxContains : option Z;
  MinContains : option Z;
  MaxProperties : option Z;
  MinProperties : option Z;
  Required : option (list string);
  DependentRequired : list (string * option (list string));
  Format : string;
  ContentEncoding : string;
  ContentMediaType : string;
  ContentSchema : option Schema;
  Title : string;
  Description : string;
  Default : any;
  Deprecated : bool;
  ReadOnly : bool;
  WriteOnly : bool;
  Examples : option (list any);
  Extras : list (string * any);
  boolean : option bool
}.

(** The zero value of the struct. *)
Definition zero : Schema :=
  mkSchema EmptyString EmptyString EmptyString EmptyString EmptyString [] EmptyString None None
    None None None None None [] None None None None [] None None EmptyString None Nil
    EmptyString EmptyString EmptyString EmptyString EmptyString None None EmptyString None None
    false None None None None None [] EmptyString EmptyString EmptyString None EmptyString
    EmptyString Nil false false false None [] None.

Definition set_Version (v : string) (s : Schema) : Schema :=
  mkSchema v (ID s) (Anchor s) (Ref s) (DynamicRef s) (Definitions s) (Comments s) (AllOf s)
    (AnyOf s) (OneOf s) (Not s) (If s) (Then s) (Else s) (DependentSchemas s) (PrefixItems s)
    (Items s) (Contains s) (Properties s) (PatternProperties s) (AdditionalProperties s)
    (PropertyNames s) (Type_ s) (Enum s) (Const s) (MultipleOf s) (Maximum s) (ExclusiveMaximum
    s) (Minimum s) (ExclusiveMinimum s) (MaxLength s) (MinLength s) (Pattern s) (MaxItems s)
    (MinItems s) (UniqueItems s) (MaxContains s) (MinContains s) (MaxProperties s)
    (MinProperties s) (Required s) (DependentRequired s) (Format s) (ContentEncoding s)
    (ContentMediaType s) (ContentSchema s) (Title s) (Description s) (Default s) (Deprecated s)
    (ReadOnly s) (WriteOnly s) (Examples s) (Extras s) (boolean s).

Definition set_Anchor (v : string) (s : Schema) : Schema :=
  mkSchema (Version s) (ID s) v (Ref s) (DynamicRef s) (Definitions s) (Comments s) (AllOf s)
    (AnyOf s) (OneOf s) (Not s) (If s) (Then s) (Else s) (DependentSchemas s) (PrefixItems s)
    (Items s) (Contains s) (Properties s) (PatternProperties s) (AdditionalProperties s)
    (PropertyNames s) (Type_ s) (Enum s) (Const s) (MultipleOf s) (Maximum s) (ExclusiveMaximum
    s) (Minimum s) (ExclusiveMinimum s) (MaxLength s) (MinLength s) (Pattern s) (MaxItems s)
    (MinItems s) (UniqueItems s) (MaxContains s) (MinContains s) (MaxProperties s)
    (MinProperties s) (Required s) (DependentRequired s) (Format s) (ContentEncoding s)
    (ContentMediaType s) (ContentSchema s) (Title s) (Description s) (Default s) (Deprecated s)
    (ReadOnly s) (WriteOnly s) (Examples s) (Extras s) (boolean s).

Definition set_Ref (v : string) (s : Schema) : Schema :=
  mkSchema (Version s) (ID s) (Anchor s) v (DynamicRef s) (Definitions s) (Comments s) (AllOf s)
    (AnyOf s) (OneOf s) (Not s) (If s) (Then s) (Else s) (DependentSchemas s) (PrefixItems s)
    (Items s) (Contains s) (Properties s) (PatternProperties s) (AdditionalProperties s)
    (PropertyNames s) (Type_ s) (Enum s) (Const s) (MultipleOf s) (Maximum s) (ExclusiveMaximum
    s) (Minimum s) (ExclusiveMinimum s) (MaxLength s) (MinLength s) (Pattern s) (MaxItems s)
    (MinItems s) (UniqueItems s) (MaxContains s) (MinContains s) (MaxProperties s)
    (MinProperties s) (Required s) (DependentRequired s) (Format s) (ContentEncoding s)
    (ContentMediaType s) (ContentSchema s) (Title s) (Description s) (Default s) (Deprecated s)
    (ReadOnly s) (WriteOnly s) (Examples s) (Extras s) (boolean s).

Definition set_DynamicRef (v : string) (s : Schema) : Schema :=
  mkSchema (Version s) (ID s) (Anchor s) (Ref s) v (Definitions s) (Comments s) (AllOf s) (AnyOf
    s) (OneOf s) (Not s) (If s) (Then s) (Else s) (DependentSchemas s) (PrefixItems s) (Items s)
    (Contains s) (Properties s) (PatternProperties s) (AdditionalProperties s) (PropertyNames s)
    (Type_ s) (Enum s) (Const s) (MultipleOf s) (Maximum s) (ExclusiveMaximum s) (Minimum s)
    (ExclusiveMinimum s) (MaxLength s) (MinLength s) (Pattern s) (MaxItems s) (MinItems s)
    (UniqueItems s) (MaxContains s) (MinContains s) (MaxProperties s) (MinProperties s)
    (Required s) (DependentRequired s) (Format s) (ContentEncoding s) (ContentMediaType s)
    (ContentSchema s) (Title s) (Description s) (Default s) (Deprecated s) (ReadOnly s)
    (WriteOnly s) (Examples s) (Extras s) (boolean s).

Definition set_Comments (v : string) (s : Schema) : Schema :=
  mkSchema (Version s) (ID s) (Anchor s) (Ref s) (DynamicRef s) (Definitions s) v (AllOf s)
    (AnyOf s) (OneOf s) (Not s) (If s) (Then s) (Else s) (DependentSchemas s) (PrefixItems s)
    (Items s) (Contains s) (Properties s) (PatternProperties s) (AdditionalProperties s)
    (PropertyNames s) (Type_ s) (Enum s) (Const s) (MultipleOf s) (Maximum s) (ExclusiveMaximum
    s) (Minimum s) (ExclusiveMinimum s) (MaxLength s) (MinLength s) (Pattern s) (MaxItems s)
    (MinItems s) (UniqueItems s) (MaxContains s) (MinContains s) (MaxProperties s)
    (MinProperties s) (Required s) (DependentRequired s) (Format s) (ContentEncoding s)
    (ContentMediaType s) (ContentSchema s) (Title s) (Description s) (Default s) (Deprecated s)
    (ReadOnly s) (WriteOnly s) (Examples s) (Extras s) (boolean s).

Definition set_AllOf (v : option (list Schema)) (s : Schema) : Schema :=
  mkSchema (Version s) (ID s) (Anchor s) (Ref s) (DynamicRef s) (Definitions s) (Comments s) v
    (AnyOf s) (OneOf s) (Not s) (If s) (Then s) (Else s) (DependentSchemas s) (PrefixItems s)
    (Items s) (Contains s) (Properties s) (PatternProperties s) (AdditionalProperties s)
    (PropertyNames s) (Type_ s) (Enum s) (Const s) (MultipleOf s) (Maximum s) (ExclusiveMaximum
    s) (Minimum s) (ExclusiveMinimum s) (MaxLength s) (MinLength s) (Pattern s) (MaxItems s)
    (MinItems s) (UniqueItems s) (MaxContains s) (MinContains s) (MaxProperties s)
    (MinProperties s) (Required s) (DependentRequired s) (Format s) (ContentEncoding s)
    (ContentMediaType s) (ContentSchema s) (Title s) (Description s) (Default s) (Deprecated s)
    (ReadOnly s) (WriteOnly s) (Examples s) (Extras s) (boolean s).

Definition set_AnyOf (v : option (list Schema)) (s : Schema) : Schema :=
  mkSchema (Version s) (ID s) (Anchor s) (Ref s) (DynamicRef s) (Definitions s) (Comments s)
    (AllOf s) v (OneOf s) (Not s) (If s) (Then s) (Else s) (DependentSchemas s) (PrefixItems s)
    (Items s) (Contains s) (Properties s) (PatternProperties s) (AdditionalProperties s)
    (PropertyNames s) (Type_ s) (Enum s) (Const s) (MultipleOf s) (Maximum s) (ExclusiveMaximum
    s) (Minimum s) (ExclusiveMinimum s) (MaxLength s) (MinLength s) (Pattern s) (MaxItems s)
    (MinItems s) (UniqueItems s) (MaxContains s) (MinContains s) (MaxProperties s)
    (MinProperties s) (Required s) (DependentRequired s) (Format s) (ContentEncoding s)
    (ContentMediaType s) (ContentSchema s) (Title s) (Description s) (Default s) (Deprecated s)
    (ReadOnly s) (WriteOnly s) (Examples s) (Extras s) (boolean s).

Definition set_OneOf (v : option (list Schema)) (s : Schema) : Schema :=
  mkSchema (Version s) (ID s) (Anchor s) (Ref s) (DynamicRef s) (Definitions s) (Comments s)
    (AllOf s) (AnyOf s) v (Not s) (If s) (Then s) (Else s) (DependentSchemas s) (PrefixItems s)
    (Items s) (Contains s) (Properties s) (PatternProperties s) (AdditionalProperties s)
    (PropertyNames s) (Type_ s) (Enum s) (Const s) (MultipleOf s) (Maximum s) (ExclusiveMaximum
    s) (Minimum s) (ExclusiveMinimum s) (MaxLength s) (MinLength s) (Pattern s) (MaxItems s)
    (MinItems s) (UniqueItems s) (MaxContains s) (MinContains s) (MaxProperties s)
    (MinProperties s) (Required s) (DependentRequired s) (Format s) (ContentEncoding s)
    (ContentMediaType s) (ContentSchema s) (Title s) (Description s) (Default s) (Deprecated s)
    (ReadOnly s) (WriteOnly s) (Examples s) (Extras s) (boolean s).

Definition set_Not (v : option Schema) (s : Schema) : Schema :=
  mkSchema (Version s) (ID s) (Anchor s) (Ref s) (DynamicRef s) (Definitions s) (Comments s)
    (AllOf s) (AnyOf s) (OneOf s) v (If s) (Then s) (Else s) (DependentSchemas s) (PrefixItems
    s) (Items s) (Contains s) (Properties s) (PatternProperties s) (AdditionalProperties s)
    (PropertyNames s) (Type_ s) (Enum s) (Const s) (MultipleOf s) (Maximum s) (ExclusiveMaximum
    s) (Minimum s) (ExclusiveMinimum s) (MaxLength s) (MinLength s) (Pattern s) (MaxItems s)
    (MinItems s) (UniqueItems s) (MaxContains s) (MinContains s) (MaxProperties s)
    (MinProperties s) (Required s) (DependentRequired s) (Format s) (ContentEncoding s)
    (ContentMediaType s) (ContentSchema s) (Title s) (Description s) (Default s) (Deprecated s)
    (ReadOnly s) (WriteOnly s) (Examples s) (Extras s) (boolean s).

Definition set_If (v : option Schema) (s : Schema) : Schema :=
  mkSchema (Version s) (ID s) (Anchor s) (Ref s) (DynamicRef s) (Definitions s) (Comments s)
    (AllOf s) (AnyOf s) (OneOf s) (Not s) v (Then s) (Else s) (DependentSchemas s) (PrefixItems
    s) (Items s) (Contains s) (Properties s) (PatternProperties s) (AdditionalProperties s)
    (PropertyNames s) (Type_ s) (Enum s) (Const s) (MultipleOf s) (Maximum s) (ExclusiveMaximum
    s) (Minimum s) (ExclusiveMinimum s) (MaxLength s) (MinLength s) (Pattern s) (MaxItems s)
    (MinItems s) (UniqueItems s) (MaxContains s) (MinContains s) (MaxProperties s)
    (MinProperties s) (Required s) (DependentRequired s) (Format s) (ContentEncoding s)
    (ContentMediaType s) (ContentSchema s) (Title s) (Description s) (Default s) (Deprecated s)
    (ReadOnly s) (WriteOnly s) (Examples s) (Extras s) (boolean s).

Definition set_Then (v : option Schema) (s : Schema) : Schema :=
  mkSchema (Version s) (ID s) (Anchor s) (Ref s) (DynamicRef s) (Definitions s) (Comments s)
    (AllOf s) (AnyOf s) (OneOf s) (Not s) (If s) v (Else s) (DependentSchemas s) (PrefixItems s)
    (Items s) (Contains s) (Properties s) (PatternProperties s) (AdditionalProperties s)
    (PropertyNames s) (Type_ s) (Enum s) (Const s) (MultipleOf s) (Maximum s) (ExclusiveMaximum
    s) (Minimum s) (ExclusiveMinimum s) (MaxLength s) (MinLength s) (Pattern s) (MaxItems s)
    (MinItems s) (UniqueItems s) (MaxContains s) (MinContains s) (MaxProperties s)
    (MinProperties s) (Required s) (DependentRequired s) (Format s) (ContentEncoding s)
    (ContentMediaType s) (ContentSchema s) (Title s) (Description s) (Default s) (Deprecated s)
    (ReadOnly s) (WriteOnly s) (Examples s) (Extras s) (boolean s).

Definition set_Else (v : option Schema) (s : Schema) : Schema :=
  mkSchema (Version s) (ID s) (Anchor s) (Ref s) (DynamicRef s) (Definitions s) (Comments s)
    (AllOf s) (AnyOf s) (OneOf s) (Not s) (If s) (Then s) v (DependentSchemas s) (PrefixItems s)
    (Items s) (Contains s) (Properties s) (PatternProperties s) (AdditionalProperties s)
    (PropertyNames s) (Type_ s) (Enum s) (Const s) (MultipleOf s) (Maximum s) (ExclusiveMaximum
    s) (Minimum s) (ExclusiveMinimum s) (MaxLength s) (MinLength s) (Pattern s) (MaxItems s)
    (MinItems s) (UniqueItems s) (MaxContains s) (MinContains s) (MaxProperties s)
    (MinProperties s) (Required s) (DependentRequired s) (Format s) (ContentEncoding s)
    (ContentMediaType s) (ContentSchema s) (Title s) (Description s) (Default s) (Deprecated s)
    (ReadOnly s) (WriteOnly s) (Examples s) (Extras s) (boolean s).

Definition set_PrefixItems (v : option (list Schema)) (s : Schema) : Schema :=
  mkSchema (Version s) (ID s) (Anchor s) (Ref s) (DynamicRef s) (Definitions s) (Comments s)
    (AllOf s) (AnyOf s) (OneOf s) (Not s) (If s) (Then s) (Else s) (DependentSchemas s) v (Items
    s) (Contains s) (Properties s) (PatternProperties s) (AdditionalProperties s) (PropertyNames
    s) (Type_ s) (Enum s) (Const s) (MultipleOf s) (Maximum s) (ExclusiveMaximum s) (Minimum s)
    (ExclusiveMinimum s) (MaxLength s) (MinLength s) (Pattern s) (MaxItems s) (MinItems s)
    (UniqueItems s) (MaxContains s) (MinContains s) (MaxProperties s) (MinProperties s)
    (Required s) (DependentRequired s) (Format s) (ContentEncoding s) (ContentMediaType s)
    (ContentSchema s) (Title s) (Description s) (Default s) (Deprecated s) (ReadOnly s)
    (WriteOnly s) (Examples s) (Extras s) (boolean s).

Definition set_Items (v : option Schema) (s : Schema) : Schema :=
  mkSchema (Version s) (ID s) (Anchor s) (Ref s) (DynamicRef s) (Definitions s) (Comments s)
    (AllOf s) (AnyOf s) (OneOf s) (Not s) (If s) (Then s) (Else s) (DependentSchemas s)
    (PrefixItems s) v (Contains s) (Properties s) (PatternProperties s) (AdditionalProperties s)
    (PropertyNames s) (Type_ s) (Enum s) (Const s) (MultipleOf s) (Maximum s) (ExclusiveMaximum
    s) (Minimum s) (ExclusiveMinimum s) (MaxLength s) (MinLength s) (Pattern s) (MaxItems s)
    (MinItems s) (UniqueItems s) (MaxContains s) (MinContains s) (MaxProperties s)
    (MinProperties s) (Required s) (DependentRequired s) (Format s) (ContentEncoding s)
    (ContentMediaType s) (ContentSchema s) (Title s) (Description s) (Default s) (Deprecated s)
    (ReadOnly s) (WriteOnly s) (Examples s) (Extras s) (boolean s).

Definition set_Contains (v : option Schema) (s : Schema) : Schema :=
  mkSchema (Version s) (ID s) (Anchor s) (Ref s) (DynamicRef s) (Definitions s) (Comments s)
    (AllOf s) (AnyOf s) (OneOf s) (Not s) (If s) (Then s) (Else s) (DependentSchemas s)
    (PrefixItems s) (Items s) v (Properties s) (PatternProperties s) (AdditionalProperties s)
    (PropertyNames s) (Type_ s) (Enum s) (Const s) (MultipleOf s) (Maximum s) (ExclusiveMaximum
    s) (Minimum s) (ExclusiveMinimum s) (MaxLength s) (MinLength s) (Pattern s) (MaxItems s)
    (MinItems s) (UniqueItems s) (MaxContains s) (MinContains s) (MaxProperties s)
    (MinProperties s) (Required s) (DependentRequired s) (Format s) (ContentEncoding s)
    (ContentMediaType s) (ContentSchema s) (Title s) (Description s) (Default s) (Deprecated s)
    (ReadOnly s) (WriteOnly s) (Examples s) (Extras s) (boolean s).

Definition set_Properties (v : option (orderedmap.OrderedMap string Schema)) (s : Schema) : Schema :=
  mkSchema (Version s) (ID s) (Anchor s) (Ref s) (DynamicRef s) (Definitions s) (Comments s)
    (AllOf s) (AnyOf s) (OneOf s) (Not s) (If s) (Then s) (Else s) (DependentSchemas s)
    (PrefixItems s) (Items s) (Contains s) v (PatternProperties s) (AdditionalProperties s)
    (PropertyNames s) (Type_ s) (Enum s) (Const s) (MultipleOf s) (Maximum s) (ExclusiveMaximum
    s) (Minimum s) (ExclusiveMinimum s) (MaxLength s) (MinLength s) (Pattern s) (MaxItems s)
    (MinItems s) (UniqueItems s) (MaxContains s) (MinContains s) (MaxProperties s)
    (MinProperties s) (Required s) (DependentRequired s) (Format s) (ContentEncoding s)
    (ContentMediaType s) (ContentSchema s) (Title s) (Description s) (Default s) (Deprecated s)
    (ReadOnly s) (WriteOnly s) (Examples s) (Extras s) (boolean s).

Definition set_AdditionalProperties (v : option Schema) (s : Schema) : Schema :=
  mkSchema (Version s) (ID s) (Anchor s) (Ref s) (DynamicRef s) (Definitions s) (Comments s)
    (AllOf s) (AnyOf s) (OneOf s) (Not s) (If s) (Then s) (Else s) (DependentSchemas s)
    (PrefixItems s) (Items s) (Contains s) (Properties s) (PatternProperties s) v (PropertyNames
    s) (Type_ s) (Enum s) (Const s) (MultipleOf s) (Maximum s) (ExclusiveMaximum s) (Minimum s)
    (ExclusiveMinimum s) (MaxLength s) (MinLength s) (Pattern s) (MaxItems s) (MinItems s)
    (UniqueItems s) (MaxContains s) (MinContains s) (MaxProperties s) (MinProperties s)
    (Required s) (DependentRequired s) (Format s) (ContentEncoding s) (ContentMediaType s)
    (ContentSchema s) (Title s) (Description s) (Default s) (Deprecated s) (ReadOnly s)
    (WriteOnly s) (Examples s) (Extras s) (boolean s).

Definition set_PropertyNames (v : option Schema) (s : Schema) : Schema :=
  mkSchema (Version s) (ID s) (Anchor s) (Ref s) (DynamicRef s) (Definitions s) (Comments s)
    (AllOf s) (AnyOf s) (OneOf s) (Not s) (If s) (Then s) (Else s) (DependentSchemas s)
    (PrefixItems s) (Items s) (Contains s) (Properties s) (PatternProperties s)
    (AdditionalProperties s) v (Type_ s) (Enum s) (Const s) (MultipleOf s) (Maximum s)
    (ExclusiveMaximum s) (Minimum s) (ExclusiveMinimum s) (MaxLength s) (MinLength s) (Pattern
    s) (MaxItems s) (MinItems s) (UniqueItems s) (MaxContains s) (MinContains s) (MaxProperties
    s) (MinProperties s) (Required s) (DependentRequired s) (Format s) (ContentEncoding s)
    (ContentMediaType s) (ContentSchema s) (Title s) (Description s) (Default s) (Deprecated s)
    (ReadOnly s) (WriteOnly s) (Examples s) (Extras s) (boolean s).

Definition set_Type_ (v : string) (s : Schema) : Schema :=
  mkSchema (Version s) (ID s) (Anchor s) (Ref s) (DynamicRef s) (Definitions s) (Comments s)
    (AllOf s) (AnyOf s) (OneOf s) (Not s) (If s) (Then s) (Else s) (DependentSchemas s)
    (PrefixItems s) (Items s) (Contains s) (Properties s) (PatternProperties s)
    (AdditionalProperties s) (PropertyNames s) v (Enum s) (Const s) (MultipleOf s) (Maximum s)
    (ExclusiveMaximum s) (Minimum s) (ExclusiveMinimum s) (MaxLength s) (MinLength s) (Pattern
    s) (MaxItems s) (MinItems s) (UniqueItems s) (MaxContains s) (MinContains s) (MaxProperties
    s) (MinProperties s) (Required s) (DependentRequired s) (Format s) (ContentEncoding s)
    (ContentMediaType s) (ContentSchema s) (Title s) (Description s) (Default s) (Deprecated s)
    (ReadOnly s) (WriteOnly s) (Examples s) (Extras s) (boolean s).

Definition set_Enum (v : option (list any)) (s : Schema) : Schema :=
  mkSchema (Version s) (ID s) (Anchor s) (Ref s) (DynamicRef s) (Definitions s) (Comments s)
    (AllOf s) (AnyOf s) (OneOf s) (Not s) (If s) (Then s) (Else s) (DependentSchemas s)
    (PrefixItems s) (Items s) (Contains s) (Properties s) (PatternProperties s)
    (AdditionalProperties s) (PropertyNames s) (Type_ s) v (Const s) (MultipleOf s) (Maximum s)
    (ExclusiveMaximum s) (Minimum s) (ExclusiveMinimum s) (MaxLength s) (MinLength s) (Pattern
    s) (MaxItems s) (MinItems s) (UniqueItems s) (MaxContains s) (MinContains s) (MaxProperties
    s) (MinProperties s) (Required s) (DependentRequired s) (Format s) (ContentEncoding s)
    (ContentMediaType s) (ContentSchema s) (Title s) (Description s) (Default s) (Deprecated s)
    (ReadOnly s) (WriteOnly s) (Examples s) (Extras s) (boolean s).

Definition set_Const (v : any) (s : Schema) : Schema :=
  mkSchema (Version s) (ID s) (Anchor s) (Ref s) (DynamicRef s) (Definitions s) (Comments s)
    (AllOf s) (AnyOf s) (OneOf s) (Not s) (If s) (Then s) (Else s) (DependentSchemas s)
    (PrefixItems s) (Items s) (Contains s) (Properties s) (PatternProperties s)
    (AdditionalProperties s) (PropertyNames s) (Type_ s) (Enum s) v (MultipleOf s) (Maximum s)
    (ExclusiveMaximum s) (Minimum s) (ExclusiveMinimum s) (MaxLength s) (MinLength s) (Pattern
    s) (MaxItems s) (MinItems s) (UniqueItems s) (MaxContains s) (MinContains s) (MaxProperties
    s) (MinProperties s) (Required s) (DependentRequired s) (Format s) (ContentEncoding s)
    (ContentMediaType s) (ContentSchema s) (Title s) (Description s) (Default s) (Deprecated s)
    (ReadOnly s) (WriteOnly s) (Examples s) (Extras s) (boolean s).

Definition set_MultipleOf (v : string) (s : Schema) : Schema :=
  mkSchema (Version s) (ID s) (Anchor s) (Ref s) (DynamicRef s) (Definitions s) (Comments s)
    (AllOf s) (AnyOf s) (OneOf s) (Not s) (If s) (Then s) (Else s) (DependentSchemas s)
    (PrefixItems s) (Items s) (Contains s) (Properties s) (PatternProperties s)
    (AdditionalProperties s) (PropertyNames s) (Type_ s) (Enum s) (Const s) v (Maximum s)
    (ExclusiveMaximum s) (Minimum s) (ExclusiveMinimum s) (MaxLength s) (MinLength s) (Pattern
    s) (MaxItems s) (MinItems s) (UniqueItems s) (MaxContains s) (MinContains s) (MaxProperties
    s) (MinProperties s) (Required s) (DependentRequired s) (Format s) (ContentEncoding s)
    (ContentMediaType s) (ContentSchema s) (Title s) (Description s) (Default s) (Deprecated s)
    (ReadOnly s) (WriteOnly s) (Examples s) (Extras s) (boolean s).

Definition set_Maximum (v : string) (s : Schema) : Schema :=
  mkSchema (Version s) (ID s) (Anchor s) (Ref s) (DynamicRef s) (Definitions s) (Comments s)
    (AllOf s) (AnyOf s) (OneOf s) (Not s) (If s) (Then s) (Else s) (DependentSchemas s)
    (PrefixItems s) (Items s) (Contains s) (Properties s) (PatternProperties s)
    (AdditionalProperties s) (PropertyNames s) (Type_ s) (Enum s) (Const s) (MultipleOf s) v
    (ExclusiveMaximum s) (Minimum s) (ExclusiveMinimum s) (MaxLength s) (MinLength s) (Pattern
    s) (MaxItems s) (MinItems s) (UniqueItems s) (MaxContains s) (MinContains s) (MaxProperties
    s) (MinProperties s) (Required s) (DependentRequired s) (Format s) (ContentEncoding s)
    (ContentMediaType s) (ContentSchema s) (Title s) (Description s) (Default s) (Deprecated s)
    (ReadOnly s) (WriteOnly s) (Examples s) (Extras s) (boolean s).

Definition set_ExclusiveMaximum (v : string) (s : Schema) : Schema :=
  mkSchema (Version s) (ID s) (Anchor s) (Ref s) (DynamicRef s) (Definitions s) (Comments s)
    (AllOf s) (AnyOf s) (OneOf s) (Not s) (If s) (Then s) (Else s) (DependentSchemas s)
    (PrefixItems s) (Items s) (Contains s) (Properties s) (PatternProperties s)
    (AdditionalProperties s) (PropertyNames s) (Type_ s) (Enum s) (Const s) (MultipleOf s)
    (Maximum s) v (Minimum s) (ExclusiveMinimum s) (MaxLength s) (MinLength s) (Pattern s)
    (MaxItems s) (MinItems s) (UniqueItems s) (MaxContains s) (MinContains s) (MaxProperties s)
    (MinProperties s) (Required s) (DependentRequired s) (Format s) (ContentEncoding s)
    (ContentMediaType s) (ContentSchema s) (Title s) (Description s) (Default s) (Deprecated s)
    (ReadOnly s) (WriteOnly s) (Examples s) (Extras s) (boolean s).

Definition set_Minimum (v : string) (s : Schema) : Schema :=
  mkSchema (Version s) (ID s) (Anchor s) (Ref s) (DynamicRef s) (Definitions s) (Comments s)
    (AllOf s) (AnyOf s) (OneOf s) (Not s) (If s) (Then s) (Else s) (DependentSchemas s)
    (PrefixItems s) (Items s) (Contains s) (Properties s) (PatternProperties s)
    (AdditionalProperties s) (PropertyNames s) (Type_ s) (Enum s) (Const s) (MultipleOf s)
    (Maximum s) (ExclusiveMaximum s) v (ExclusiveMinimum s) (MaxLength s) (MinLength s) (Pattern
    s) (MaxItems s) (MinItems s) (UniqueItems s) (MaxContains s) (MinContains s) (MaxProperties
    s) (MinProperties s) (Required s) (DependentRequired s) (Format s) (ContentEncoding s)
    (ContentMediaType s) (ContentSchema s) (Title s) (Description s) (Default s) (Deprecated s)
    (ReadOnly s) (WriteOnly s) (Examples s) (Extras s) (boolean s).

Definition set_ExclusiveMinimum (v : string) (s : Schema) : Schema :=
  mkSchema (Version s) (ID s) (Anchor s) (Ref s) (DynamicRef s) (Definitions s) (Comments s)
    (AllOf s) (AnyOf s) (OneOf s) (Not s) (If s) (Then s) (Else s) (DependentSchemas s)
    (PrefixItems s) (Items s) (Contains s) (Properties s) (PatternProperties s)
    (AdditionalProperties s) (PropertyNames s) (Type_ s) (Enum s) (Const s) (MultipleOf s)
    (Maximum s) (ExclusiveMaximum s) (Minimum s) v (MaxLength s) (MinLength s) (Pattern s)
    (MaxItems s) (MinItems s) (UniqueItems s) (MaxContains s) (MinContains s) (MaxProperties s)
    (MinProperties s) (Required s) (DependentRequired s) (Format s) (ContentEncoding s)
    (ContentMediaType s) (ContentSchema s) (Title s) (Description s) (Default s) (Deprecated s)
    (ReadOnly s) (WriteOnly s) (Examples s) (Extras s) (boolean s).

Definition set_MaxLength (v : option Z) (s : Schema) : Schema :=
  mkSchema (Version s) (ID s) (Anchor s) (Ref s) (DynamicRef s) (Definitions s) (Comments s)
    (AllOf s) (AnyOf s) (OneOf s) (Not s) (If s) (Then s) (Else s) (DependentSchemas s)
    (PrefixItems s) (Items s) (Contains s) (Properties s) (PatternProperties s)
    (AdditionalProperties s) (PropertyNames s) (Type_ s) (Enum s) (Const s) (MultipleOf s)
    (Maximum s) (ExclusiveMaximum s) (Minimum s) (ExclusiveMinimum s) v (MinLength s) (Pattern
    s) (MaxItems s) (MinItems s) (UniqueItems s) (MaxContains s) (MinContains s) (MaxProperties
    s) (MinProperties s) (Required s) (DependentRequired s) (Format s) (ContentEncoding s)
    (ContentMediaType s) (ContentSchema s) (Title s) (Description s) (Default s) (Deprecated s)
    (ReadOnly s) (WriteOnly s) (Examples s) (Extras s) (boolean s).

Definition set_MinLength (v : option Z) (s : Schema) : Schema :=
  mkSchema (Version s) (ID s) (Anchor s) (Ref s) (DynamicRef s) (Definitions s) (Comments s)
    (AllOf s) (AnyOf s) (OneOf s) (Not s) (If s) (Then s) (Else s) (DependentSchemas s)
    (PrefixItems s) (Items s) (Contains s) (Properties s) (PatternProperties s)
    (AdditionalProperties s) (PropertyNames s) (Type_ s) (Enum s) (Const s) (MultipleOf s)
    (Maximum s) (ExclusiveMaximum s) (Minimum s) (ExclusiveMinimum s) (MaxLength s) v (Pattern
    s) (MaxItems s) (MinItems s) (UniqueItems s) (MaxContains s) (MinContains s) (MaxProperties
    s) (MinProperties s) (Required s) (DependentRequired s) (Format s) (ContentEncoding s)
    (ContentMediaType s) (ContentSchema s) (Title s) (Description s) (Default s) (Deprecated s)
    (ReadOnly s) (WriteOnly s) (Examples s) (Extras s) (boolean s).

Definition set_Pattern (v : string) (s : Schema) : Schema :=
  mkSchema (Version s) (ID s) (Anchor s) (Ref s) (DynamicRef s) (Definitions s) (Comments s)
    (AllOf s) (AnyOf s) (OneOf s) (Not s) (If s) (Then s) (Else s) (DependentSchemas s)
    (PrefixItems s) (Items s) (Contains s) (Properties s) (PatternProperties s)
    (AdditionalProperties s) (PropertyNames s) (Type_ s) (Enum s) (Const s) (MultipleOf s)
    (Maximum s) (ExclusiveMaximum s) (Minimum s) (ExclusiveMinimum s) (MaxLength s) (MinLength
    s) v (MaxItems s) (MinItems s) (UniqueItems s) (MaxContains s) (MinContains s)
    (MaxProperties s) (MinProperties s) (Required s) (DependentRequired s) (Format s)
    (ContentEncoding s) (ContentMediaType s) (ContentSchema s) (Title s) (Description s)
    (Default s) (Deprecated s) (ReadOnly s) (WriteOnly s) (Examples s) (Extras s) (boolean s).

Definition set_MaxItems (v : option Z) (s : Schema) : Schema :=
  mkSchema (Version s) (ID s) (Anchor s) (Ref s) (DynamicRef s) (Definitions s) (Comments s)
    (AllOf s) (AnyOf s) (OneOf s) (Not s) (If s) (Then s) (Else s) (DependentSchemas s)
    (PrefixItems s) (Items s) (Contains s) (Properties s) (PatternProperties s)
    (AdditionalProperties s) (PropertyNames s) (Type_ s) (Enum s) (Const s) (MultipleOf s)
    (Maximum s) (ExclusiveMaximum s) (Minimum s) (ExclusiveMinimum s) (MaxLength s) (MinLength
    s) (Pattern s) v (MinItems s) (UniqueItems s) (MaxContains s) (MinContains s) (MaxProperties
    s) (MinProperties s) (Required s) (DependentRequired s) (Format s) (ContentEncoding s)
    (ContentMediaType s) (ContentSchema s) (Title s) (Description s) (Default s) (Deprecated s)
    (ReadOnly s) (WriteOnly s) (Examples s) (Extras s) (boolean s).

Definition set_MinItems (v : option Z) (s : Schema) : Schema :=
  mkSchema (Version s) (ID s) (Anchor s) (Ref s) (DynamicRef s) (Definitions s) (Comments s)
    (AllOf s) (AnyOf s) (OneOf s) (Not s) (If s) (Then s) (Else s) (DependentSchemas s)
    (PrefixItems s) (Items s) (Contains s) (Properties s) (PatternProperties s)
    (AdditionalProperties s) (PropertyNames s) (Type_ s) (Enum s) (Const s) (MultipleOf s)
    (Maximum s) (ExclusiveMaximum s) (Minimum s) (ExclusiveMinimum s) (MaxLength s) (MinLength
    s) (Pattern s) (MaxItems s) v (UniqueItems s) (MaxContains s) (MinContains s) (MaxProperties
    s) (MinProperties s) (Required s) (DependentRequired s) (Format s) (ContentEncoding s)
    (ContentMediaType s) (ContentSchema s) (Title s) (Description s) (Default s) (Deprecated s)
    (ReadOnly s) (WriteOnly s) (Examples s) (Extras s) (boolean s).

Definition set_UniqueItems (v : bool) (s : Schema) : Schema :=
  mkSchema (Version s) (ID s) (Anchor s) (Ref s) (DynamicRef s) (Definitions s) (Comments s)
    (AllOf s) (AnyOf s) (OneOf s) (Not s) (If s) (Then s) (Else s) (DependentSchemas s)
    (PrefixItems s) (Items s) (Contains s) (Properties s) (PatternProperties s)
    (AdditionalProperties s) (PropertyNames s) (Type_ s) (Enum s) (Const s) (MultipleOf s)
    (Maximum s) (ExclusiveMaximum s) (Minimum s) (ExclusiveMinimum s) (MaxLength s) (MinLength
    s) (Pattern s) (MaxItems s) (MinItems s) v (MaxContains s) (MinContains s) (MaxProperties s)
    (MinProperties s) (Required s) (DependentRequired s) (Format s) (ContentEncoding s)
    (ContentMediaType s) (ContentSchema s) (Title s) (Description s) (Default s) (Deprecated s)
    (ReadOnly s) (WriteOnly s) (Examples s) (Extras s) (boolean s).

Definition set_MaxContains (v : option Z) (s : Schema) : Schema :=
  mkSchema (Version s) (ID s) (Anchor s) (Ref s) (DynamicRef s) (Definitions s) (Comments s)
    (AllOf s) (AnyOf s) (OneOf s) (Not s) (If s) (Then s) (Else s) (DependentSchemas s)
    (PrefixItems s) (Items s) (Contains s) (Properties s) (PatternProperties s)
    (AdditionalProperties s) (PropertyNames s) (Type_ s) (Enum s) (Const s) (MultipleOf s)
    (Maximum s) (ExclusiveMaximum s) (Minimum s) (ExclusiveMinimum s) (MaxLength s) (MinLength
    s) (Pattern s) (MaxItems s) (MinItems s) (UniqueItems s) v (MinContains s) (MaxProperties s)
    (MinProperties s) (Required s) (DependentRequired s) (Format s) (ContentEncoding s)
    (ContentMediaType s) (ContentSchema s) (Title s) (Description s) (Default s) (Deprecated s)
    (ReadOnly s) (WriteOnly s) (Examples s) (Extras s) (boolean s).

Definition set_MinContains (v : option Z) (s : Schema) : Schema :=
  mkSchema (Version s) (ID s) (Anchor s) (Ref s) (DynamicRef s) (Definitions s) (Comments s)
    (AllOf s) (AnyOf s) (OneOf s) (Not s) (If s) (Then s) (Else s) (DependentSchemas s)
    (PrefixItems s) (Items s) (Contains s) (Properties s) (PatternProperties s)
    (AdditionalProperties s) (PropertyNames s) (Type_ s) (Enum s) (Const s) (MultipleOf s)
    (Maximum s) (ExclusiveMaximum s) (Minimum s) (ExclusiveMinimum s) (MaxLength s) (MinLength
    s) (Pattern s) (MaxItems s) (MinItems s) (UniqueItems s) (MaxContains s) v (MaxProperties s)
    (MinProperties s) (Required s) (DependentRequired s) (Format s) (ContentEncoding s)
    (ContentMediaType s) (ContentSchema s) (Title s) (Description s) (Default s) (Deprecated s)
    (ReadOnly s) (WriteOnly s) (Examples s) (Extras s) (boolean s).

Definition set_MaxProperties (v : option Z) (s : Schema) : Schema :=
  mkSchema (Version s) (ID s) (Anchor s) (Ref s) (DynamicRef s) (Definitions s) (Comments s)
    (AllOf s) (AnyOf s) (OneOf s) (Not s) (If s) (Then s) (Else s) (DependentSchemas s)
    (PrefixItems s) (Items s) (Contains s) (Properties s) (PatternProperties s)
    (AdditionalProperties s) (PropertyNames s) (Type_ s) (Enum s) (Const s) (MultipleOf s)
    (Maximum s) (ExclusiveMaximum s) (Minimum s) (ExclusiveMinimum s) (MaxLength s) (MinLength
    s) (Pattern s) (MaxItems s) (MinItems s) (UniqueItems s) (MaxContains s) (MinContains s) v
    (MinProperties s) (Required s) (DependentRequired s) (Format s) (ContentEncoding s)
    (ContentMediaType s) (ContentSchema s) (Title s) (Description s) (Default s) (Deprecated s)
    (ReadOnly s) (WriteOnly s) (Examples s) (Extras s) (boolean s).

Definition set_MinProperties (v : option Z) (s : Schema) : Schema :=
  mkSchema (Version s) (ID s) (Anchor s) (Ref s) (DynamicRef s) (Definitions s) (Comments s)
    (AllOf s) (AnyOf s) (OneOf s) (Not s) (If s) (Then s) (Else s) (DependentSchemas s)
    (PrefixItems s) (Items s) (Contains s) (Properties s) (PatternProperties s)
    (AdditionalProperties s) (PropertyNames s) (Type_ s) (Enum s) (Const s) (MultipleOf s)
    (Maximum s) (ExclusiveMaximum s) (Minimum s) (ExclusiveMinimum s) (MaxLength s) (MinLength
    s) (Pattern s) (MaxItems s) (MinItems s) (UniqueItems s) (MaxContains s) (MinContains s)
    (MaxProperties s) v (Required s) (DependentRequired s) (Format s) (ContentEncoding s)
    (ContentMediaType s) (ContentSchema s) (Title s) (Description s) (Default s) (Deprecated s)
    (ReadOnly s) (WriteOnly s) (Examples s) (Extras s) (boolean s).

Definition set_Required (v : option (list string)) (s : Schema) : Schema :=
  mkSchema (Version s) (ID s) (Anchor s) (Ref s) (DynamicRef s) (Definitions s) (Comments s)
    (AllOf s) (AnyOf s) (OneOf s) (Not s) (If s) (Then s) (Else s) (DependentSchemas s)
    (PrefixItems s) (Items s) (Contains s) (Properties s) (PatternProperties s)
    (AdditionalProperties s) (PropertyNames s) (Type_ s) (Enum s) (Const s) (MultipleOf s)
    (Maximum s) (ExclusiveMaximum s) (Minimum s) (ExclusiveMinimum s) (MaxLength s) (MinLength
    s) (Pattern s) (MaxItems s) (MinItems s) (UniqueItems s) (MaxContains s) (MinContains s)
    (MaxProperties s) (MinProperties s) v (DependentRequired s) (Format s) (ContentEncoding s)
    (ContentMediaType s) (ContentSchema s) (Title s) (Description s) (Default s) (Deprecated s)
    (ReadOnly s) (WriteOnly s) (Examples s) (Extras s) (boolean s).

Definition set_Format (v : string) (s : Schema) : Schema :=
  mkSchema (Version s) (ID s) (Anchor s) (Ref s) (DynamicRef s) (Definitions s) (Comments s)
    (AllOf s) (AnyOf s) (OneOf s) (Not s) (If s) (Then s) (Else s) (DependentSchemas s)
    (PrefixItems s) (Items s) (Contains s) (Properties s) (PatternProperties s)
    (AdditionalProperties s) (PropertyNames s) (Type_ s) (Enum s) (Const s) (MultipleOf s)
    (Maximum s) (ExclusiveMaximum s) (Minimum s) (ExclusiveMinimum s) (MaxLength s) (MinLength
    s) (Pattern s) (MaxItems s) (MinItems s) (UniqueItems s) (MaxContains s) (MinContains s)
    (MaxProperties s) (MinProperties s) (Required s) (DependentRequired s) v (ContentEncoding s)
    (ContentMediaType s) (ContentSchema s) (Title s) (Description s) (Default s) (Deprecated s)
    (ReadOnly s) (WriteOnly s) (Examples s) (Extras s) (boolean s).

Definition set_ContentEncoding (v : string) (s : Schema) : Schema :=
  mkSchema (Version s) (ID s) (Anchor s) (Ref s) (DynamicRef s) (Definitions s) (Comments s)
    (AllOf s) (AnyOf s) (OneOf s) (Not s) (If s) (Then s) (Else s) (DependentSchemas s)
    (PrefixItems s) (Items s) (Contains s) (Properties s) (PatternProperties s)
    (AdditionalProperties s) (PropertyNames s) (Type_ s) (Enum s) (Const s) (MultipleOf s)
    (Maximum s) (ExclusiveMaximum s) (Minimum s) (ExclusiveMinimum s) (MaxLength s) (MinLength
    s) (Pattern s) (MaxItems s) (MinItems s) (UniqueItems s) (MaxContains s) (MinContains s)
    (MaxProperties s) (MinProperties s) (Required s) (DependentRequired s) (Format s) v
    (ContentMediaType s) (ContentSchema s) (Title s) (Description s) (Default s) (Deprecated s)
    (ReadOnly s) (WriteOnly s) (Examples s) (Extras s) (boolean s).

Definition set_ContentMediaType (v : string) (s : Schema) : Schema :=
  mkSchema (Version s) (ID s) (Anchor s) (Ref s) (DynamicRef s) (Definitions s) (Comments s)
    (AllOf s) (AnyOf s) (OneOf s) (Not s) (If s) (Then s) (Else s) (DependentSchemas s)
    (PrefixItems s) (Items s) (Contains s) (Properties s) (PatternProperties s)
    (AdditionalProperties s) (PropertyNames s) (Type_ s) (Enum s) (Const s) (MultipleOf s)
    (Maximum s) (ExclusiveMaximum s) (Minimum s) (ExclusiveMinimum s) (MaxLength s) (MinLength
    s) (Pattern s) (MaxItems s) (MinItems s) (UniqueItems s) (MaxContains s) (MinContains s)
    (MaxProperties s) (MinProperties s) (Required s) (DependentRequired s) (Format s)
    (ContentEncoding s) v (ContentSchema s) (Title s) (Description s) (Default s) (Deprecated s)
    (ReadOnly s) (WriteOnly s) (Examples s) (Extras s) (boolean s).

Definition set_ContentSchema (v : option Schema) (s : Schema) : Schema :=
  mkSchema (Version s) (ID s) (Anchor s) (Ref s) (DynamicRef s) (Definitions s) (Comments s)
    (AllOf s) (AnyOf s) (OneOf s) (Not s) (If s) (Then s) (Else s) (DependentSchemas s)
    (PrefixItems s) (Items s) (Contains s) (Properties s) (PatternProperties s)
    (AdditionalProperties s) (PropertyNames s) (Type_ s) (Enum s) (Const s) (MultipleOf s)
    (Maximum s) (ExclusiveMaximum s) (Minimum s) (ExclusiveMinimum s) (MaxLength s) (MinLength
    s) (Pattern s) (MaxItems s) (MinItems s) (UniqueItems s) (MaxContains s) (MinContains s)
    (MaxProperties s) (MinProperties s) (Required s) (DependentRequired s) (Format s)
    (ContentEncoding s) (ContentMediaType s) v (Title s) (Description s) (Default s) (Deprecated
    s) (ReadOnly s) (WriteOnly s) (Examples s) (Extras s) (boolean s).

Definition set_Title (v : string) (s : Schema) : Schema :=
  mkSchema (Version s) (ID s) (Anchor s) (Ref s) (DynamicRef s) (Definitions s) (Comments s)
    (AllOf s) (AnyOf s) (OneOf s) (Not s) (If s) (Then s) (Else s) (DependentSchemas s)
    (PrefixItems s) (Items s) (Contains s) (Properties s) (PatternProperties s)
    (AdditionalProperties s) (PropertyNames s) (Type_ s) (Enum s) (Const s) (MultipleOf s)
    (Maximum s) (ExclusiveMaximum s) (Minimum s) (ExclusiveMinimum s) (MaxLength s) (MinLength
    s) (Pattern s) (MaxItems s) (MinItems s) (UniqueItems s) (MaxContains s) (MinContains s)
    (MaxProperties s) (MinProperties s) (Required s) (DependentRequired s) (Format s)
    (ContentEncoding s) (ContentMediaType s) (ContentSchema s) v (Description s) (Default s)
    (Deprecated s) (ReadOnly s) (WriteOnly s) (Examples s) (Extras s) (boolean s).

Definition set_Description (v : string) (s : Schema) : Schema :=
  mkSchema (Version s) (ID s) (Anchor s) (Ref s) (DynamicRef s) (Definitions s) (Comments s)
    (AllOf s) (AnyOf s) (OneOf s) (Not s) (If s) (Then s) (Else s) (DependentSchemas s)
    (PrefixItems s) (Items s) (Contains s) (Properties s) (PatternProperties s)
    (AdditionalProperties s) (PropertyNames s) (Type_ s) (Enum s) (Const s) (MultipleOf s)
    (Maximum s) (ExclusiveMaximum s) (Minimum s) (ExclusiveMinimum s) (MaxLength s) (MinLength
    s) (Pattern s) (MaxItems s) (MinItems s) (UniqueItems s) (MaxContains s) (MinContains s)
    (MaxProperties s) (MinProperties s) (Required s) (DependentRequired s) (Format s)
    (ContentEncoding s) (ContentMediaType s) (ContentSchema s) (Title s) v (Default s)
    (Deprecated s) (ReadOnly s) (WriteOnly s) (Examples s) (Extras s) (boolean s).

Definition set_Default (v : any) (s : Schema) : Schema :=
  mkSchema (Version s) (ID s) (Anchor s) (Ref s) (DynamicRef s) (Definitions s) (Comments s)
    (AllOf s) (AnyOf s) (OneOf s) (Not s) (If s) (Then s) (Else s) (DependentSchemas s)
    (PrefixItems s) (Items s) (Contains s) (Properties s) (PatternProperties s)
    (AdditionalProperties s) (PropertyNames s) (Type_ s) (Enum s) (Const s) (MultipleOf s)
    (Maximum s) (ExclusiveMaximum s) (Minimum s) (ExclusiveMinimum s) (MaxLength s) (MinLength
    s) (Pattern s) (MaxItems s) (MinItems s) (UniqueItems s) (MaxContains s) (MinContains s)
    (MaxProperties s) (MinProperties s) (Required s) (DependentRequired s) (Format s)
    (ContentEncoding s) (ContentMediaType s) (ContentSchema s) (Title s) (Description s) v
    (Deprecated s) (ReadOnly s) (WriteOnly s) (Examples s) (Extras s) (boolean s).

Definition set_Deprecated (v : bool) (s : Schema) : Schema :=
  mkSchema (Version s) (ID s) (Anchor s) (Ref s) (DynamicRef s) (Definitions s) (Comments s)
    (AllOf s) (AnyOf s) (OneOf s) (Not s) (If s) (Then s) (Else s) (DependentSchemas s)
    (PrefixItems s) (Items s) (Contains s) (Properties s) (PatternProperties s)
    (AdditionalProperties s) (PropertyNames s) (Type_ s) (Enum s) (Const s) (MultipleOf s)
    (Maximum s) (ExclusiveMaximum s) (Minimum s) (ExclusiveMinimum s) (MaxLength s) (MinLength
    s) (Pattern s) (MaxItems s) (MinItems s) (UniqueItems s) (MaxContains s) (MinContains s)
    (MaxProperties s) (MinProperties s) (Required s) (DependentRequired s) (Format s)
    (ContentEncoding s) (ContentMediaType s) (ContentSchema s) (Title s) (Description s)
    (Default s) v (ReadOnly s) (WriteOnly s) (Examples s) (Extras s) (boolean s).

Definition set_ReadOnly (v : bool) (s : Schema) : Schema :=
  mkSchema (Version s) (ID s) (Anchor s) (Ref s) (DynamicRef s) (Definitions s) (Comments s)
    (AllOf s) (AnyOf s) (OneOf s) (Not s) (If s) (Then s) (Else s) (DependentSchemas s)
    (PrefixItems s) (Items s) (Contains s) (Properties s) (PatternProperties s)
    (AdditionalProperties s) (PropertyNames s) (Type_ s) (Enum s) (Const s) (MultipleOf s)
    (Maximum s) (ExclusiveMaximum s) (Minimum s) (ExclusiveMinimum s) (MaxLength s) (MinLength
    s) (Pattern s) (MaxItems s) (MinItems s) (UniqueItems s) (MaxContains s) (MinContains s)
    (MaxProperties s) (MinProperties s) (Required s) (DependentRequired s) (Format s)
    (ContentEncoding s) (ContentMediaType s) (ContentSchema s) (Title s) (Description s)
    (Default s) (Deprecated s) v (WriteOnly s) (Examples s) (Extras s) (boolean s).

Definition set_WriteOnly (v : bool) (s : Schema) : Schema :=
  mkSchema (Version s) (ID s) (Anchor s) (Ref s) (DynamicRef s) (Definitions s) (Comments s)
    (AllOf s) (AnyOf s) (OneOf s) (Not s) (If s) (Then s) (Else s) (DependentSchemas s)
    (PrefixItems s) (Items s) (Contains s) (Properties s) (PatternProperties s)
    (AdditionalProperties s) (PropertyNames s) (Type_ s) (Enum s) (Const s) (MultipleOf s)
    (Maximum s) (ExclusiveMaximum s) (Minimum s) (ExclusiveMinimum s) (MaxLength s) (MinLength
    s) (Pattern s) (MaxItems s) (MinItems s) (UniqueItems s) (MaxContains s) (MinContains s)
    (MaxProperties s) (MinProperties s) (Required s) (DependentRequired s) (Format s)
    (ContentEncoding s) (ContentMediaType s) (ContentSchema s) (Title s) (Description s)
    (Default s) (Deprecated s) (ReadOnly s) v (Examples s) (Extras s) (boolean s).

Definition set_boolean (v : option bool) (s : Schema) : Schema :=
  mkSchema (Version s) (ID s) (Anchor s) (Ref s) (DynamicRef s) (Definitions s) (Comments s)
    (AllOf s) (AnyOf s) (OneOf s) (Not s) (If s) (Then s) (Else s) (DependentSchemas s)
    (PrefixItems s) (Items s) (Contains s) (Properties s) (PatternProperties s)
    (AdditionalProperties s) (PropertyNames s) (Type_ s) (Enum s) (Const s) (MultipleOf s)
    (Maximum s) (ExclusiveMaximum s) (Minimum s) (ExclusiveMinimum s) (MaxLength s) (MinLength
    s) (Pattern s) (MaxItems s) (MinItems s) (UniqueItems s) (MaxContains s) (MinContains s)
    (MaxProperties s) (MinProperties s) (Required s) (DependentRequired s) (Format s)
    (ContentEncoding s) (ContentMediaType s) (ContentSchema s) (Title s) (Description s)
    (Default s) (Deprecated s) (ReadOnly s) (WriteOnly s) (Examples s) (Extras s) v.

(** [FalseSchema]: the schema that rejects everything. *)
Definition FalseSchema : Schema :=
  mkSchema EmptyString EmptyString EmptyString EmptyString EmptyString [] EmptyString None None
    None None None None None [] None None None None [] None None EmptyString None Nil
    EmptyString EmptyString EmptyString EmptyString EmptyString None None EmptyString None None
    false None None None None None [] EmptyString EmptyString EmptyString None EmptyString
    EmptyString Nil false false false None [] (Some false).

End jsonschema.

Import jsonschema.

(** ** Errors and results *)

(** One constructor per [fmt.Errorf] call of the package, carrying the
    arguments of the call; [%w] wraps an error. *)
#[warnings="-register-all"]
Inductive error : Type :=
| errNotObjectSliceString (val : any)
| errUnsupportedScalar (typ : string)
| errEnumNotArray (property : Schema)
| errParenthetical (typ : string)
| errUnrecognizedField (k : string)
| errFoundType (v : any) (k : string) (want : string)
| errWantInteger (v : any) (k : string)
| errElementType (astr : any) (i : nat) (k : string)
| errConvertField (k : string) (err : error)
| errInField (k : string) (err : error)
| errKeyType (mv : any) (k mk : string)
| errInFieldKey (k mk : string) (err : error)
| errUnsupportedFieldType (t : string) (k : string).

(** What a call that results in a schema pointer and an [error] does: it
    returns the pair or it panics. *)
Inductive outcome : Type :=
| Return (s : option Schema) (err : option error)
| Panic (msg : string).

(** What one turn of a loop body does: go on with the updated struct,
    return an error, or panic. *)
Inductive res (A : Type) : Type :=
| Next (a : A)
| Fail (err : error)
| Crash (msg : string).

Arguments Next {A} a.
Arguments Fail {A} err.
Arguments Crash {A} msg.

Definition nilDereference : string := "invalid memory address or nil pointer dereference".

Definition setOnZeroValue : string := "reflect: call of reflect.Value.Set on zero Value".

(** [for k, v := range m { body }] followed by [return &ret, nil]. *)
Fixpoint rangeLoop (body : string -> any -> Schema -> res Schema)
    (es : list (string * any)) (ret : Schema) : outcome :=
  match es with
  | [] => Return (Some ret) None
  | (k, v) :: es' =>
      match body k v ret with
      | Next ret' => rangeLoop body es' ret'
      | Fail err => Return None (Some err)
      | Crash msg => Panic msg
      end
  end.

(** ** [parsePico] *)

Definition isScalarType (typ : string) : bool :=
  (typ =? "string") || (typ =? "boolean") || (typ =? "null") || (typ =? "number")
  || (typ =? "integer") || (typ =? "any").

(** The [string] case of [parsePico]. *)
Definition parseScalar (val : string) : outcome :=
  let '(typ, desc, found) := strings.Cut val "," in
  if isScalarType typ then
    let typ := if typ =? "any" then EmptyString else typ in
    let ret := set_Type_ typ zero in
    let ret := if found then set_Description (strings.TrimSpace desc) ret else ret in
    Return (Some ret) None
  else Return None (Some (errUnsupportedScalar typ)).

(** The struct the mapping case starts from. *)
Definition newObject : Schema :=
  set_AdditionalProperties (Some FalseSchema)
    (set_Properties (Some orderedmap.New) (set_Type_ "object" zero)).

(** [name, typ, found := strings.Cut(k, "(")] and
    [propertyName, isOptional := strings.CutSuffix(name, "?")]. *)
Definition keyName (k : string) : string := fst (fst (strings.Cut k "(")).

Definition keyParen (k : string) : string := snd (fst (strings.Cut k "(")).

Definition keyFound (k : string) : bool := snd (strings.Cut k "(").

Definition propertyName (k : string) : string := fst (strings.CutSuffix (keyName k) "?").

Definition isOptional (k : string) : bool := snd (strings.CutSuffix (keyName k) "?").

(** [typ, desc, found := strings.Cut(strings.TrimSuffix(typ, ")"), ",")]
    after [typ = strings.TrimSuffix(typ, ")")]. *)
Definition keyModifier (k : string) : string * string * bool :=
  strings.Cut (strings.TrimSuffix (strings.TrimSuffix (keyParen k) ")") ")") ",".

Definition modifier (k : string) : string := fst (fst (keyModifier k)).

(** Lines 95-97: the name of a property that is not optional joins
    [Required]. *)
Definition picoRequire (k : string) (ret : Schema) : Schema :=
  if negb (keyName k =? EmptyString) && negb (isOptional k)
  then set_Required (append (Required ret) (propertyName k)) ret
  else ret.

(** [ret.Properties.Set(name, property)]. *)
Definition setProperty (name : string) (property : Schema) (ret : Schema) : res Schema :=
  match Properties ret with
  | None => Crash nilDereference
  | Some om => Next (set_Properties (Some (orderedmap.Set_ name property om)) ret)
  end.

(** Lines 104-140: what the loop body does with the parsed value. *)
Definition picoProperty (k : string) (property : Schema) (ret : Schema) : res Schema :=
  if negb (keyFound k) then setProperty (propertyName k) property ret
  else
    let '(typ, desc, found) := keyModifier k in
    let describe (p : Schema) : Schema :=
      if found then set_Description (strings.TrimSpace desc) p else p in
    if typ =? "array" then
      setProperty (propertyName k)
        (describe (set_Items (Some property) (set_Type_ "array" zero))) ret
    else if typ =? "object" then
      setProperty (propertyName k) (describe property) ret
    else if typ =? "enum" then
      match Enum property with
      | None => Fail (errEnumNotArray property)
      | Some _ =>
          let property :=
            if isOptional k then set_Enum (append (Enum property) Nil) property
            else property in
          setProperty (propertyName k) (describe property) ret
      end
    else if typ =? "*" then Next (set_AdditionalProperties (Some property) ret)
    else Fail (errParenthetical typ).

(** The loop body, given the result of the recursive call on the value.
    A nil schema with a nil error is never returned ([parsePico_returns]
    below); the branch is there for the match to be total. *)
Definition picoEntry (parsed : outcome) (k : string) (ret : Schema) : res Schema :=
  let ret := picoRequire k ret in
  match parsed with
  | Panic msg => Crash msg
  | Return _ (Some err) => Fail err
  | Return None None => Crash nilDereference
  | Return (Some property) None => picoProperty k property ret
  end.

(** [parsePico] parses picoschema from the result of the YAML parser. *)
Fixpoint parsePico (val : any) : outcome :=
  match val with
  | Str s => parseScalar s
  | Slice l => Return (Some (set_Enum l zero)) None
  | Map (GoMap es) => rangeLoop (fun k v => picoEntry (parsePico v) k) es newObject
  | _ => Return None (Some (errNotObjectSliceString val))
  end.

(** ** [mapToJSONSchema] *)

(** The types [rf.Type()] is compared with; [TUnsupported t] is a field type
    [t] that no case of the switch names. *)
Inductive rtype : Set :=
| TAny
| TString
| TUint64Ptr
| TBool
| TStringSlice
| TJSONNumber
| TSchemaPtr
| TSchemaSlice
| TOrderedMap
| TUnsupported (goType : string).

(** The fields of [Schema] that carry a [json] tag, and the name in the tag.
    [Extras] is tagged ["-"]; [boolean] has no tag. *)
Inductive field : Set :=
  | FVersion | FID | FAnchor | FRef | FDynamicRef | FDefinitions | FComments | FAllOf | FAnyOf |
    FOneOf | FNot | FIf | FThen | FElse | FDependentSchemas | FPrefixItems | FItems | FContains
    | FProperties | FPatternProperties | FAdditionalProperties | FPropertyNames | FType | FEnum
    | FConst | FMultipleOf | FMaximum | FExclusiveMaximum | FMinimum | FExclusiveMinimum |
    FMaxLength | FMinLength | FPattern | FMaxItems | FMinItems | FUniqueItems | FMaxContains |
    FMinContains | FMaxProperties | FMinProperties | FRequired | FDependentRequired | FFormat |
    FContentEncoding | FContentMediaType | FContentSchema | FTitle | FDescription | FDefault |
    FDeprecated | FReadOnly | FWriteOnly | FExamples | FExtras.

Definition fields : list field :=
  [FVersion; FID; FAnchor; FRef; FDynamicRef; FDefinitions; FComments; FAllOf; FAnyOf; FOneOf;
    FNot; FIf; FThen; FElse; FDependentSchemas; FPrefixItems; FItems; FContains; FProperties;
    FPatternProperties; FAdditionalProperties; FPropertyNames; FType; FEnum; FConst;
    FMultipleOf; FMaximum; FExclusiveMaximum; FMinimum; FExclusiveMinimum; FMaxLength;
    FMinLength; FPattern; FMaxItems; FMinItems; FUniqueItems; FMaxContains; FMinContains;
    FMaxProperties; FMinProperties; FRequired; FDependentRequired; FFormat; FContentEncoding;
    FContentMediaType; FContentSchema; FTitle; FDescription; FDefault; FDeprecated; FReadOnly;
    FWriteOnly; FExamples; FExtras].

Definition jsonName (f : field) : string :=
  match f with
  | FVersion => "$schema"
  | FID => "$id"
  | FAnchor => "$anchor"
  | FRef => "$ref"
  | FDynamicRef => "$dynamicRef"
  | FDefinitions => "$defs"
  | FComments => "$comment"
  | FAllOf => "allOf"
  | FAnyOf => "anyOf"
  | FOneOf => "oneOf"
  | FNot => "not"
  | FIf => "if"
  | FThen => "then"
  | FElse => "else"
  | FDependentSchemas => "dependentSchemas"
  | FPrefixItems => "prefixItems"
  | FItems => "items"
  | FContains => "contains"
  | FProperties => "properties"
  | FPatternProperties => "patternProperties"
  | FAdditionalProperties => "additionalProperties"
  | FPropertyNames => "propertyNames"
  | FType => "type"
  | FEnum => "enum"
  | FConst => "const"
  | FMultipleOf => "multipleOf"
  | FMaximum => "maximum"
  | FExclusiveMaximum => "exclusiveMaximum"
  | FMinimum => "minimum"
  | FExclusiveMinimum => "exclusiveMinimum"
  | FMaxLength => "maxLength"
  | FMinLength => "minLength"
  | FPattern => "pattern"
  | FMaxItems => "maxItems"
  | FMinItems => "minItems"
  | FUniqueItems => "uniqueItems"
  | FMaxContains => "maxContains"
  | FMinContains => "minContains"
  | FMaxProperties => "maxProperties"
  | FMinProperties => "minProperties"
  | FRequired => "required"
  | FDependentRequired => "dependentRequired"
  | FFormat => "format"
  | FContentEncoding => "contentEncoding"
  | FContentMediaType => "contentMediaType"
  | FContentSchema => "contentSchema"
  | FTitle => "title"
  | FDescription => "description"
  | FDefault => "default"
  | FDeprecated => "deprecated"
  | FReadOnly => "readOnly"
  | FWriteOnly => "writeOnly"
  | FExamples => "examples"
  | FExtras => "-"
  end.

Definition fieldType (f : field) : rtype :=
  match f with
  | FVersion => TString
  | FID => TUnsupported "jsonschema.ID"
  | FAnchor => TString
  | FRef => TString
  | FDynamicRef => TString
  | FDefinitions => TUnsupported "jsonschema.Definitions"
  | FComments => TString
  | FAllOf => TSchemaSlice
  | FAnyOf => TSchemaSlice
  | FOneOf => TSchemaSlice
  | FNot => TSchemaPtr
  | FIf => TSchemaPtr
  | FThen => TSchemaPtr
  | FElse => TSchemaPtr
  | FDependentSchemas => TUnsupported "map[string]*jsonschema.Schema"
  | FPrefixItems => TSchemaSlice
  | FItems => TSchemaPtr
  | FContains => TSchemaPtr
  | FProperties => TOrderedMap
  | FPatternProperties => TUnsupported "map[string]*jsonschema.Schema"
  | FAdditionalProperties => TSchemaPtr
  | FPropertyNames => TSchemaPtr
  | FType => TString
  | FEnum => TUnsupported "[]interface {}"
  | FConst => TAny
  | FMultipleOf => TJSONNumber
  | FMaximum => TJSONNumber
  | FExclusiveMaximum => TJSONNumber
  | FMinimum => TJSONNumber
  | FExclusiveMinimum => TJSONNumber
  | FMaxLength => TUint64Ptr
  | FMinLength => TUint64Ptr
  | FPattern => TString
  | FMaxItems => TUint64Ptr
  | FMinItems => TUint64Ptr
  | FUniqueItems => TBool
  | FMaxContains => TUint64Ptr
  | FMinContains => TUint64Ptr
  | FMaxProperties => TUint64Ptr
  | FMinProperties => TUint64Ptr
  | FRequired => TStringSlice
  | FDependentRequired => TUnsupported "map[string][]string"
  | FFormat => TString
  | FContentEncoding => TString
  | FContentMediaType => TString
  | FContentSchema => TSchemaPtr
  | FTitle => TString
  | FDescription => TString
  | FDefault => TAny
  | FDeprecated => TBool
  | FReadOnly => TBool
  | FWriteOnly => TBool
  | FExamples => TUnsupported "[]interface {}"
  | FExtras => TUnsupported "map[string]interface {}"
  end.

Definition SetString (f : field) (v : string) (s : Schema) : Schema :=
  match f with
  | FVersion => set_Version v s
  | FAnchor => set_Anchor v s
  | FRef => set_Ref v s
  | FDynamicRef => set_DynamicRef v s
  | FComments => set_Comments v s
  | FType => set_Type_ v s
  | FPattern => set_Pattern v s
  | FFormat => set_Format v s
  | FContentEncoding => set_ContentEncoding v s
  | FContentMediaType => set_ContentMediaType v s
  | FTitle => set_Title v s
  | FDescription => set_Description v s
  | _ => s
  end.

Definition SetNumber (f : field) (v : string) (s : Schema) : Schema :=
  match f with
  | FMultipleOf => set_MultipleOf v s
  | FMaximum => set_Maximum v s
  | FExclusiveMaximum => set_ExclusiveMaximum v s
  | FMinimum => set_Minimum v s
  | FExclusiveMinimum => set_ExclusiveMinimum v s
  | _ => s
  end.

Definition SetUint64Ptr (f : field) (v : option Z) (s : Schema) : Schema :=
  match f with
  | FMaxLength => set_MaxLength v s
  | FMinLength => set_MinLength v s
  | FMaxItems => set_MaxItems v s
  | FMinItems => set_MinItems v s
  | FMaxContains => set_MaxContains v s
  | FMinContains => set_MinContains v s
  | FMaxProperties => set_MaxProperties v s
  | FMinProperties => set_MinProperties v s
  | _ => s
  end.

Definition SetBool (f : field) (v : bool) (s : Schema) : Schema :=
  match f with
  | FUniqueItems => set_UniqueItems v s
  | FDeprecated => set_Deprecated v s
  | FReadOnly => set_ReadOnly v s
  | FWriteOnly => set_WriteOnly v s
  | _ => s
  end.

Definition SetStrings (f : field) (v : option (list string)) (s : Schema) : Schema :=
  match f with
  | FRequired => set_Required v s
  | _ => s
  end.

Definition SetSchema (f : field) (v : option Schema) (s : Schema) : Schema :=
  match f with
  | FNot => set_Not v s
  | FIf => set_If v s
  | FThen => set_Then v s
  | FElse => set_Else v s
  | FItems => set_Items v s
  | FContains => set_Contains v s
  | FAdditionalProperties => set_AdditionalProperties v s
  | FPropertyNames => set_PropertyNames v s
  | FContentSchema => set_ContentSchema v s
  | _ => s
  end.

Definition SetSchemas (f : field) (v : option (list Schema)) (s : Schema) : Schema :=
  match f with
  | FAllOf => set_AllOf v s
  | FAnyOf => set_AnyOf v s
  | FOneOf => set_OneOf v s
  | FPrefixItems => set_PrefixItems v s
  | _ => s
  end.

Definition SetOrderedMap (f : field) (v : option (orderedmap.OrderedMap string Schema)) (s : Schema) : Schema :=
  match f with
  | FProperties => set_Properties v s
  | _ => s
  end.

Definition SetAny (f : field) (v : any) (s : Schema) : Schema :=
  match f with
  | FConst => set_Const v s
  | FDefault => set_Default v s
  | _ => s
  end.

(** [jsonMap[k]]: the field whose tag names [k]. *)
Definition jsonMap (k : string) : option field :=
  find (fun f => jsonName f =? k) fields.

(** [uint64(n)] of an [int64]. *)
Definition uint64 (n : Z) : Z := n mod 2 ^ 64.

(** Lines 203-210: every element must be a string. *)
Fixpoint toStrings (k : string) (i : nat) (astrs : list any) : res (list string) :=
  match astrs with
  | [] => Next []
  | Str s :: rest =>
      match toStrings k (S i) rest with
      | Next sstrs => Next (s :: sstrs)
      | failed => failed
      end
  | astr :: _ => Fail (errElementType astr i k)
  end.

(** Lines 236-243.  [convert] is [mapToJSONSchema]; it never returns a nil
    schema with a nil error ([mapToJSONSchema_returns] below), which the
    list could not hold. *)
Fixpoint toSchemas (convert : gomap -> outcome) (k : string) (s : list gomap)
  : res (list Schema) :=
  match s with
  | [] => Next []
  | m :: rest =>
      match convert m with
      | Panic msg => Crash msg
      | Return _ (Some err) => Fail (errInField k err)
      | Return None None => Crash nilDereference
      | Return (Some schema) None =>
          match toSchemas convert k rest with
          | Next schemas => Next (schema :: schemas)
          | failed => failed
          end
      end
  end.

(** Lines 251-262: the values of [properties], in the order [range] visits
    them. *)
Fixpoint toProperties (convert : gomap -> outcome) (k : string)
    (es : list (string * any)) (om : orderedmap.OrderedMap string Schema)
  : res (orderedmap.OrderedMap string Schema) :=
  match es with
  | [] => Next om
  | (mk, Map mvm) :: rest =>
      match convert mvm with
      | Panic msg => Crash msg
      | Return _ (Some err) => Fail (errInFieldKey k mk err)
      | Return None None => Crash nilDereference
      | Return (Some schema) None =>
          toProperties convert k rest (orderedmap.Set_ mk schema om)
      end
  | (mk, mv) :: _ => Fail (errKeyType mv k mk)
  end.

(** The body of the loop of lines 163-268, [convert] being the function
    itself. *)
Definition mapField (convert : gomap -> outcome) (k : string) (v : any) (ret : Schema)
  : res Schema :=
  match jsonMap k with
  | None => Fail (errUnrecognizedField k)
  | Some rf =>
      match fieldType rf with
      | TAny =>
          match v with
          | Nil => Crash setOnZeroValue
          | _ => Next (SetAny rf v ret)
          end
      | TString =>
          match v with
          | Str str => Next (SetString rf str ret)
          | _ => Fail (errFoundType v k "string")
          end
      | TUint64Ptr =>
          match v with
          | Uint _ n => Next (SetUint64Ptr rf (Some n) ret)
          | Int _ n => Next (SetUint64Ptr rf (Some (uint64 n)) ret)
          | _ => Fail (errWantInteger v k)
          end
      | TBool =>
          match v with
          | Bool b => Next (SetBool rf b ret)
          | _ => Fail (errFoundType v k "bool")
          end
      | TStringSlice =>
          match v with
          | Slice astrs =>
              match toStrings k 0 (elems astrs) with
              | Next sstrs => Next (SetStrings rf (Some sstrs) ret)
              | Fail err => Fail err
              | Crash msg => Crash msg
              end
          | _ => Fail (errFoundType v k "[]interface {}")
          end
      | TJSONNumber =>
          match v with
          | Str s => Next (SetNumber rf s ret)
          | _ => Fail (errFoundType v k "string")
          end
      | TSchemaPtr =>
          match v with
          | Map m =>
              match convert m with
              | Panic msg => Crash msg
              | Return _ (Some err) => Fail (errConvertField k err)
              | Return schema None => Next (SetSchema rf schema ret)
              end
          | _ => Fail (errFoundType v k "map[string]interface {}")
          end
      | TSchemaSlice =>
          match v with
          | MapSlice s =>
              match toSchemas convert k s with
              | Next schemas => Next (SetSchemas rf (Some schemas) ret)
              | Fail err => Fail err
              | Crash msg => Crash msg
              end
          | _ => Fail (errFoundType v k "[]map[string]interface {}")
          end
      | TOrderedMap =>
          match v with
          | Map (GoMap es) =>
              match toProperties convert k es orderedmap.New with
              | Next om => Next (SetOrderedMap rf (Some om) ret)
              | Fail err => Fail err
              | Crash msg => Crash msg
              end
          | _ => Fail (errFoundType v k "map[string]interface {}")
          end
      | TUnsupported t => Fail (errUnsupportedFieldType t k)
      end
  end.

(** [mapToJSONSchema] converts a YAML value to a JSONSchema. *)
Fixpoint mapToJSONSchema (m : gomap) : outcome :=
  match m with
  | GoMap es => rangeLoop (mapField mapToJSONSchema) es zero
  end.

(** ** [ToJSONSchema] *)

(** The [switch m["type"]] of lines 39-42. *)
Definition isJSONSchemaType (v : any) : bool :=
  match v with
  | Str s =>
      (s =? "string") || (s =? "boolean") || (s =? "null") || (s =? "number")
      || (s =? "integer") || (s =? "object") || (s =? "array")
  | _ => false
  end.

(** Lines 46-51. *)
Definition forceObject (converted : outcome) : outcome :=
  match converted with
  | Panic msg => Panic msg
  | Return _ (Some err) => Return None (Some err)
  | Return None None => Panic nilDereference
  | Return (Some s) None => Return (Some (set_Type_ "object" s)) None
  end.

(** [ToJSONSchema] turns picoschema input into a JSONSchema. *)
Definition ToJSONSchema (val : any) : outcome :=
  match val with
  | Nil => Return None None
  | Map m =>
      if isJSONSchemaType (index m "type") then mapToJSONSchema m
      else
        match lookup "properties" (entries m) with
        | Some (Map _) => forceObject (mapToJSONSchema m)
        | _ => parsePico val
        end
  | _ => parsePico val
  end.

(** ** [ConvertSchema] and [sortSchemaSlices] *)

Module slices.

Fixpoint insert (x : string) (l : list string) : list string :=
  match l with
  | [] => [x]
  | y :: l' => if (x <=? y)%string then x :: l else y :: insert x l'
  end.

Fixpoint sorted (l : list string) : list string :=
  match l with
  | [] => []
  | x :: l' => insert x (sorted l')
  end.

(** [slices.Sort] on a [[]string]: the elements in ascending order, strings
    compared byte by byte.  A nil slice stays nil. *)
Definition Sort (s : option (list string)) : option (list string) :=
  option_map sorted s.

End slices.

(** [sortSchemaSlices] sorts the slices in a jsonschema to permit consistent
    comparisons.  It works in place; the result is the struct afterwards. *)
Fixpoint sortSchemaSlices (s : Schema) : Schema :=
  let s1 := set_Required (slices.Sort (Required s)) s in
  let s2 :=
    match Properties s with
    | Some om =>
        set_Properties (Some (map (fun p => (fst p, sortSchemaSlices (snd p))) om)) s1
    | None => s1
    end in
  match Items s with
  | Some items => set_Items (Some (sortSchemaSlices items)) s2
  | None => s2
  end.

Section ConvertSchema.

(** [encoding/json]: [json.Marshal] of a schema and [json.Unmarshal] into an
    [any], each a function of its argument. *)
Variable jsonError : Type.
Variable Marshal : Schema -> list ascii + jsonError.
Variable Unmarshal : list ascii -> any + jsonError.

(** [ConvertSchema] marshals [s] to JSON, then unmarshals the result.  The
    first component is [s] after the call. *)
Definition ConvertSchema (s : Schema) : Schema * (any * option jsonError) :=
  let s' := sortSchemaSlices s in
  (s',
   match Marshal s' with
   | inr err => (Nil, Some err)
   | inl data =>
       match Unmarshal data with
       | inr err => (Nil, Some err)
       | inl a => (a, None)
       end
   end).

End ConvertSchema.

(** ** Predicates of the statements *)

(** The five scalar type names that are kept as type tag, and the seven
    JSON-Schema type names of the shape test. *)
Definition scalarTokens : list string :=
  ["string"; "boolean"; "null"; "number"; "integer"].

Definition jsonSchemaTypes : list string :=
  ["string"; "boolean"; "null"; "number"; "integer"; "object"; "array"].

(** [hasByte c s]: the byte [c] occurs in [s]. *)
Fixpoint hasByte (c : ascii) (s : string) : bool :=
  match s with
  | EmptyString => false
  | String b s' => Ascii.eqb c b || hasByte c s'
  end.

(** [onlySpaces s]: every byte of [s] is white space of one byte (tab, line
    feed, vertical tab, form feed, carriage return, space). *)
Fixpoint onlySpaces (s : string) : bool :=
  match s with
  | EmptyString => true
  | String c s' => strings.asciiSpace c && onlySpaces s'
  end.

(** [startsWithSpace s]: the first character of [s] is white space, of one,
    two or three bytes. *)
Definition startsWithSpace (s : string) : bool :=
  match s with
  | String c1 s1 =>
      strings.asciiSpace c1
      || match s1 with
         | String c2 s2 =>
             strings.space2 c1 c2
             || match s2 with
                | String c3 _ => strings.space3 c1 c2 c3
                | EmptyString => false
                end
         | EmptyString => false
         end
  | EmptyString => false
  end.

(** [endsWithSpace s]: the last character of [s] is white space. *)
Definition endsWithSpace (s : string) : bool :=
  match strings.rev s with
  | String c1 s1 =>
      strings.asciiSpace c1
      || match s1 with
         | String c2 s2 =>
             strings.space2 c2 c1
             || match s2 with
                | String c3 _ => strings.space3 c3 c2 c1
                | EmptyString => false
                end
         | EmptyString => false
         end
  | EmptyString => false
  end.

(** A value of one of Go's integer types. *)
Definition isInteger (v : any) : bool :=
  match v with
  | Int _ _ | Uint _ _ => true
  | _ => false
  end.

(** The number a numeric value stands for, where it has an integer type. *)
Definition integerValue (v : any) : Z :=
  match v with
  | Int _ n | Uint _ n => n
  | _ => 0
  end.

(** The value fits its type: an [intN] in [-2^63, 2^63), a [uintN] in
    [0, 2^64) (the widest of each suffices here). *)
Definition inRange (v : any) : Prop :=
  match v with
  | Int _ n => (- 2 ^ 63 <= n < 2 ^ 63)%Z
  | Uint _ n => (0 <= n < 2 ^ 64)%Z
  | _ => True
  end.

(** What the field holds after [SetUint]: the number itself for an unsigned
    type, [uint64(n)] for a signed one. *)
Definition storedUint64 (v : any) : Z :=
  match v with
  | Uint _ n => n
  | Int _ n => uint64 n
  | _ => 0
  end.


(** The loop body of the mapping case of [parsePico]. *)
Definition picoBody (k : string) (v : any) : Schema -> res Schema :=
  picoEntry (parsePico v) k.

(** The key asks for its name to be required (line 95). *)
Definition requiresName (k : string) : bool :=
  negb (keyName k =? EmptyString) && negb (isOptional k).

(** The key carries the parenthetical modifier [*] (line 127). *)
Definition isWildcard (k : string) : bool :=
  keyFound k && (modifier k =? "*").

(** The names that the keys, in the order of the [range], add to
    [Required]. *)
Definition requiredNames (keys : list string) : list string :=
  map propertyName (filter requiresName keys).

(** The names under which the keys, in the order of the [range], store a
    property. *)
Definition storedNames (keys : list string) : list string :=
  map propertyName (filter (fun k => negb (isWildcard k)) keys).

Definition mem (x : string) (l : list string) : bool := existsb (String.eqb x) l.

(** [firstSeen seen l]: [seen] followed by the names of [l] not met before,
    each where it is first met. *)
Fixpoint firstSeen (seen : list string) (l : list string) : list string :=
  match l with
  | [] => seen
  | x :: l' => firstSeen (if mem x seen then seen else seen ++ [x]) l'
  end.

(** The pairs of [Properties]; none when the pointer is nil. *)
Definition properties (s : Schema) : orderedmap.OrderedMap string Schema :=
  match Properties s with
  | Some om => om
  | None => []
  end.

(** The value an ordered map binds to a key. *)
Fixpoint get {V : Type} (key : string) (om : orderedmap.OrderedMap string V) : option V :=
  match om with
  | [] => None
  | (k, v) :: rest => if String.eqb k key then Some v else get key rest
  end.

(** [{Type: "array", Items: property}]. *)
Definition arrayOf (property : Schema) : Schema :=
  set_Items (Some property) (set_Type_ "array" zero).

(** The nodes that the loop body stores for a parsed value [property]: the
    node itself, its array wrapper, the node with the nil sentinel appended
    to its [Enum], each with or without a description on top. *)
Inductive stored (property : Schema) : Schema -> Prop :=
| stored_same : stored property property
| stored_array : stored property (arrayOf property)
| stored_enum : Enum property <> None ->
    stored property (set_Enum (append (Enum property) Nil) property)
| stored_description d node :
    stored property node -> stored property (set_Description d node).

(** The pointer as a list. *)
Definition ptr {A : Type} (p : option A) : list A :=
  match p with
  | Some a => [a]
  | None => []
  end.

(** The subschemas in fields that [parsePico] leaves empty. *)
Definition otherChildren (s : Schema) : list Schema :=
  map snd (Definitions s) ++ elems (AllOf s) ++ elems (AnyOf s) ++ elems (OneOf s)
  ++ ptr (Not s) ++ ptr (If s) ++ ptr (Then s) ++ ptr (Else s)
  ++ map snd (DependentSchemas s) ++ elems (PrefixItems s) ++ ptr (Contains s)
  ++ map snd (PatternProperties s) ++ ptr (PropertyNames s) ++ ptr (ContentSchema s).

(** All the subschemas a node points to. *)
Definition children (s : Schema) : list Schema :=
  map snd (properties s) ++ ptr (Items s) ++ ptr (AdditionalProperties s)
  ++ otherChildren s.

(** The subschemas [sortSchemaSlices] goes into. *)
Definition sortedChildren (s : Schema) : list Schema :=
  map snd (properties s) ++ ptr (Items s).

(** [reach next s n]: [n] is [s] or is reached from it through [next]. *)
Inductive reach (next : Schema -> list Schema) (s : Schema) : Schema -> Prop :=
| reach_self : reach next s s
| reach_step c n : In c (next s) -> reach next c n -> reach next s n.

(** Every schema node of the tree [s] satisfies [P]. *)
Definition allNodes (P : Schema -> Prop) (s : Schema) : Prop :=
  forall n, reach children s n -> P n.

(** The names of [Required] are keys of [Properties], for a node of type
    [object]. *)
Definition requiredInProperties (s : Schema) : Prop :=
  Type_ s = "object" ->
  forall name, In name (elems (Required s)) -> In name (orderedmap.Keys (properties s)).

(** An [Enum] that is there is not empty. *)
Definition enumNonEmpty (s : Schema) : Prop :=
  forall e, Enum s = Some e -> e <> [].

(** No key of a mapping that [parsePico] goes through has the modifier [*]
    together with a name that line 95 makes required. *)
Fixpoint noRequiredWildcard (val : any) : bool :=
  match val with
  | Map (GoMap es) =>
      forallb (fun kv => negb (isWildcard (fst kv) && requiresName (fst kv))
                         && noRequiredWildcard (snd kv)) es
  | _ => true
  end.

(** No sequence that [parsePico] takes for an enumeration is empty. *)
Fixpoint noEmptyEnum (val : any) : bool :=
  match val with
  | Slice (Some []) => false
  | Map (GoMap es) => forallb (fun kv => noEmptyEnum (snd kv)) es
  | _ => true
  end.

(** The shape test of [ToJSONSchema]: the value goes to [mapToJSONSchema]. *)
Definition isStructural (val : any) : bool :=
  match val with
  | Map m =>
      isJSONSchemaType (index m "type")
      || match lookup "properties" (entries m) with
         | Some (Map _) => true
         | _ => false
         end
  | _ => false
  end.

(** Lines 136-138: the description of the parenthetical, when there is one,
    is set on the node. *)
Definition describeKey (k : string) (node : Schema) : Schema :=
  let '(_, desc, found) := keyModifier k in
  if found then set_Description (strings.TrimSpace desc) node else node.

(** What the loop of [parsePico] keeps true of the struct it builds, for a
    property [P] of nodes: only [Properties] and [AdditionalProperties] hold
    subschemas, and all their nodes satisfy [P]. *)
Definition picoInv (P : Schema -> Prop) (ret : Schema) : Prop :=
  otherChildren ret = [] /\ Items ret = None
  /\ (forall c, In c (orderedmap.Values (properties ret)) -> allNodes P c)
  /\ (forall a, AdditionalProperties ret = Some a -> allNodes P a).

(** The node has no [Enum]. *)
Definition noEnum (s : Schema) : Prop := Enum s = None.

(** [deep Q v]: [Q] holds of the mappings that [mapToJSONSchema] converts
    when it meets the value [v]: the mapping itself and the mappings among
    its values, or the mappings of the slice. *)
Definition deep (Q : gomap -> Prop) (v : any) : Prop :=
  match v with
  | Map m =>
      Q m
      /\ Forall (fun kv => match snd kv with Map mvm => Q mvm | _ => True end)
           (entries m)
  | MapSlice l => Forall Q l
  | _ => True
  end.

(** What the loop of [mapToJSONSchema] keeps true of the struct it builds:
    no node of it has an [Enum]. *)
Definition mapInv (ret : Schema) : Prop :=
  Enum ret = None /\ forall c, In c (children ret) -> allNodes noEnum c.

(** No node of a schema that [mapToJSONSchema] returns for [m] has an
    [Enum]. *)
Definition mapperNoEnum (m : gomap) : Prop :=
  forall s, mapToJSONSchema m = Return (Some s) None -> allNodes noEnum s.

(** Ascending order of strings, compared byte by byte. *)
Definition ascending (l : list string) : Prop :=
  Sorted.Sorted (fun x y => (x <=? y)%string = true) l.

(** The pair a child of [Properties] becomes under [sortSchemaSlices]. *)
Definition sortValue (p : string * Schema) : string * Schema :=
  (fst p, sortSchemaSlices (snd p)).

(** ** Predicates of the further properties *)

(** What the switch of lines 111-134 accepts for a key and the node parsed
    from its value: no parenthetical, or one of the modifiers [array],
    [object] and [*], or [enum] with a node that has an [Enum]. *)
Definition keyAccepts (k : string) (property : Schema) : bool :=
  negb (keyFound k)
  || (modifier k =? "array") || (modifier k =? "object") || (modifier k =? "*")
  || ((modifier k =? "enum") && match Enum property with Some _ => true | None => false end).

(** The same on the value: only a non-nil [[]any] is parsed to a node with
    an [Enum]. *)
Definition entryAccepts (k : string) (v : any) : bool :=
  negb (keyFound k)
  || (modifier k =? "array") || (modifier k =? "object") || (modifier k =? "*")
  || ((modifier k =? "enum") && match v with Slice (Some _) => true | _ => false end).

(** The inputs that [parsePico] translates to a schema. *)
Fixpoint accepts (val : any) : bool :=
  match val with
  | Str s => isScalarType (fst (fst (strings.Cut s ",")))
  | Slice _ => true
  | Map (GoMap es) =>
      forallb (fun kv => accepts (snd kv) && entryAccepts (fst kv) (snd kv)) es
  | _ => false
  end.

(** The node that lines 109-138 make of the parsed value for a key that
    stores a property. *)
Definition entryNode (k : string) (property : Schema) : Schema :=
  if negb (keyFound k) then property
  else if modifier k =? "array" then describeKey k (arrayOf property)
  else if modifier k =? "enum" then
    describeKey k
      (if isOptional k then set_Enum (append (Enum property) Nil) property else property)
  else describeKey k property.

(** A value of the dynamic type [string], and a value of the dynamic type
    [map[string]any]. *)
Definition isStr (v : any) : bool :=
  match v with Str _ => true | _ => false end.

Definition isMap (v : any) : bool :=
  match v with Map _ => true | _ => false end.

(** The values that the case of a field type lets through (lines 169-267):
    the type assertions of the case, element by element where it loops. *)
Definition shapeOK (t : rtype) (v : any) : bool :=
  match t, v with
  | TAny, Nil => false
  | TAny, _ => true
  | TString, Str _ => true
  | TUint64Ptr, Int _ _ => true
  | TUint64Ptr, Uint _ _ => true
  | TBool, Bool _ => true
  | TStringSlice, Slice l => forallb isStr (elems l)
  | TJSONNumber, Str _ => true
  | TSchemaPtr, Map _ => true
  | TSchemaSlice, MapSlice _ => true
  | TOrderedMap, Map m => forallb (fun kv => isMap (snd kv)) (entries m)
  | _, _ => false
  end.

(** The field types that the switch has a case for. *)
Definition isSupported (t : rtype) : bool :=
  match t with TUnsupported _ => false | _ => true end.

(** The keys that a mapping can have for [mapToJSONSchema] to convert it. *)
Definition supportedNames : list string :=
  map jsonName (filter (fun f => isSupported (fieldType f)) fields).

(** The key names a field of type [any] ([const] and [default]). *)
Definition isOpaque (k : string) : bool :=
  match jsonMap k with
  | Some rf => match fieldType rf with TAny => true | _ => false end
  | None => false
  end.

Definition isNil (v : any) : bool :=
  match v with Nil => true | _ => false end.

(** No mapping, at any depth, binds [const] or [default] to nil. *)
Fixpoint noNilOpaque (m : gomap) : bool :=
  match m with
  | GoMap es =>
      forallb (fun kv =>
                 negb (isOpaque (fst kv) && isNil (snd kv))
                 && match snd kv with
                    | Map m' => noNilOpaque m'
                    | MapSlice l => forallb noNilOpaque l
                    | _ => true
                    end) es
  end.

(** The mappings that [mapToJSONSchema] may convert when it meets the value
    [v]: [v] itself, an element of [v], or a value of [v]. *)
Definition submap (v : any) (m' : gomap) : Prop :=
  v = Map m'
  \/ (exists l, v = MapSlice l /\ In m' l)
  \/ (exists es mk, v = Map (GoMap es) /\ In (mk, Map m') es).

(** The field behind a [reflect.Value] of the table, read back: one getter
    for each type of field that the switch sets. *)
Definition GetString (f : field) (s : Schema) : string :=
  match f with
  | FVersion => Version s
  | FAnchor => Anchor s
  | FRef => Ref s
  | FDynamicRef => DynamicRef s
  | FComments => Comments s
  | FType => Type_ s
  | FPattern => Pattern s
  | FFormat => Format s
  | FContentEncoding => ContentEncoding s
  | FContentMediaType => ContentMediaType s
  | FTitle => Title s
  | FDescription => Description s
  | _ => EmptyString
  end.

Definition GetNumber (f : field) (s : Schema) : string :=
  match f with
  | FMultipleOf => MultipleOf s
  | FMaximum => Maximum s
  | FExclusiveMaximum => ExclusiveMaximum s
  | FMinimum => Minimum s
  | FExclusiveMinimum => ExclusiveMinimum s
  | _ => EmptyString
  end.

Definition GetUint64Ptr (f : field) (s : Schema) : option Z :=
  match f with
  | FMaxLength => MaxLength s
  | FMinLength => MinLength s
  | FMaxItems => MaxItems s
  | FMinItems => MinItems s
  | FMaxContains => MaxContains s
  | FMinContains => MinContains s
  | FMaxProperties => MaxProperties s
  | FMinProperties => MinProperties s
  | _ => None
  end.

Definition GetBool (f : field) (s : Schema) : bool :=
  match f with
  | FUniqueItems => UniqueItems s
  | FDeprecated => Deprecated s
  | FReadOnly => ReadOnly s
  | FWriteOnly => WriteOnly s
  | _ => false
  end.

Definition GetSchema (f : field) (s : Schema) : option Schema :=
  match f with
  | FNot => Not s
  | FIf => If s
  | FThen => Then s
  | FElse => Else s
  | FItems => Items s
  | FContains => Contains s
  | FAdditionalProperties => AdditionalProperties s
  | FPropertyNames => PropertyNames s
  | FContentSchema => ContentSchema s
  | _ => None
  end.

Definition GetSchemas (f : field) (s : Schema) : option (list Schema) :=
  match f with
  | FAllOf => AllOf s
  | FAnyOf => AnyOf s
  | FOneOf => OneOf s
  | FPrefixItems => PrefixItems s
  | _ => None
  end.

Definition GetAny (f : field) (s : Schema) : any :=
  match f with
  | FConst => Const s
  | FDefault => Default s
  | _ => Nil
  end.
(** [wasSet rf ret ret']: [ret'] is [ret] after a [Set] of the field [rf],
    by the case of the switch for the type of [rf]. *)
Inductive wasSet (rf : field) (ret : Schema) : Schema -> Prop :=
| wasSet_any v : fieldType rf = TAny -> wasSet rf ret (SetAny rf v ret)
| wasSet_string v : fieldType rf = TString -> wasSet rf ret (SetString rf v ret)
| wasSet_uint64 v : fieldType rf = TUint64Ptr -> wasSet rf ret (SetUint64Ptr rf v ret)
| wasSet_bool v : fieldType rf = TBool -> wasSet rf ret (SetBool rf v ret)
| wasSet_strings v : fieldType rf = TStringSlice -> wasSet rf ret (SetStrings rf v ret)
| wasSet_number v : fieldType rf = TJSONNumber -> wasSet rf ret (SetNumber rf v ret)
| wasSet_schema v : fieldType rf = TSchemaPtr -> wasSet rf ret (SetSchema rf v ret)
| wasSet_schemas v : fieldType rf = TSchemaSlice -> wasSet rf ret (SetSchemas rf v ret)
| wasSet_om v : fieldType rf = TOrderedMap -> wasSet rf ret (SetOrderedMap rf v ret).

(** A reading [g] of the struct that only the field [rf] bears on. *)
Definition readsOnly {A : Type} (g : Schema -> A) (rf : field) : Prop :=
  forall rf' ret ret', wasSet rf' ret ret' -> rf' <> rf -> g ret' = g ret.

(** A node of type [object] has [Properties] and [AdditionalProperties]. *)
Definition closedObject (s : Schema) : Prop :=
  Type_ s = "object" -> Properties s <> None /\ AdditionalProperties s <> None.

(** A chain of mappings of one key each, along fields of type [*Schema],
    around the mapping [m]; and an error wrapped along the chain. *)
Fixpoint nest (path : list field) (m : gomap) : gomap :=
  match path with
  | [] => m
  | rf :: rest => GoMap [(jsonName rf, Map (nest rest m))]
  end.

Fixpoint wrap (path : list field) (err : error) : error :=
  match path with
  | [] => err
  | rf :: rest => errConvertField (jsonName rf) (wrap rest err)
  end.

(** ** The order of the range, at every depth *)

(** [reordered v v']: [v'] is the value [v] with the entries of the
    mappings that [parsePico] ranges over, at every depth, visited in
    another order: the same keys, bound to values that are reordered in
    turn.  A value that is no mapping is left as it is. *)
#[warnings="-register-all"]
Inductive reordered : any -> any -> Prop :=
| reordered_leaf v : isMap v = false -> reordered v v
| reordered_map es mid es' :
    Forall2 (fun e e' => fst e = fst e' /\ reordered (snd e) (snd e')) es mid ->
    Permutation mid es' ->
    reordered (Map (GoMap es)) (Map (GoMap es')).

(** No string occurs twice. *)
Fixpoint distinct (l : list string) : bool :=
  match l with
  | [] => true
  | x :: l' => negb (mem x l') && distinct l'
  end.

(** In every mapping that [parsePico] ranges over, at every depth, the
    keys store under distinct property names and at most one key has the
    modifier [*]. *)
Fixpoint unambiguous (val : any) : bool :=
  match val with
  | Map (GoMap es) =>
      distinct (storedNames (map fst es))
      && (List.length (filter isWildcard (map fst es)) <=? 1)%nat
      && forallb (fun kv => unambiguous (snd kv)) es
  | _ => true
  end.

(** The node without its [Required], [Properties], [Items] and
    [AdditionalProperties]: all the other fields. *)
Definition frame (s : Schema) : Schema :=
  set_Required None
    (set_Properties None (set_Items None (set_AdditionalProperties None s))).

(** Two pointers are both nil, or point to related values. *)
Inductive sameOption {A : Type} (R : A -> A -> Prop) : option A -> option A -> Prop :=
| sameOption_None : sameOption R None None
| sameOption_Some a b : R a b -> sameOption R (Some a) (Some b).

(** [sameUpToOrder s s']: the nodes are the same but for the order of the
    names of [Required] and the order of the keys of [Properties], at
    every depth: the same sorted [Required], the same keys of
    [Properties], each bound to nodes that are the same up to order, and
    so for [Items] and [AdditionalProperties]; every other field is
    equal. *)
#[warnings="-register-all"]
Inductive sameUpToOrder : Schema -> Schema -> Prop :=
| sameUpToOrder_intro s s' :
    frame s = frame s' ->
    slices.Sort (Required s) = slices.Sort (Required s') ->
    (Properties s = None <-> Properties s' = None) ->
    Permutation (orderedmap.Keys (properties s)) (orderedmap.Keys (properties s')) ->
    (forall name,
       sameOption sameUpToOrder (get name (properties s)) (get name (properties s'))) ->
    sameOption sameUpToOrder (Items s) (Items s') ->
    sameOption sameUpToOrder (AdditionalProperties s) (AdditionalProperties s') ->
    sameUpToOrder s s'.

(** [sameButRequired s s']: the nodes differ in nothing but the order of the
    names of [Required], at the node itself and at the nodes under
    [Properties] and [Items], at every depth: [Required] is nil in both or
    holds the same names, [Properties] has the same keys in the same order,
    and every other field, [AdditionalProperties] among them, is equal. *)
#[warnings="-register-all"]
Inductive sameButRequired : Schema -> Schema -> Prop :=
| sameButRequired_intro s s' :
    set_Required None (set_Properties None (set_Items None s))
    = set_Required None (set_Properties None (set_Items None s')) ->
    (Required s = None <-> Required s' = None) ->
    Permutation (elems (Required s)) (elems (Required s')) ->
    sameOption (Forall2 (fun p p' => fst p = fst p' /\ sameButRequired (snd p) (snd p')))
      (Properties s) (Properties s') ->
    sameOption sameButRequired (Items s) (Items s') ->
    sameButRequired s s'.
(** ** The package [strings] *)

Example Cut_ex1 :
  strings.Cut "tags(array, list of tags)" "(" = ("tags", "array, list of tags)", true).
Proof. reflexivity. Qed.

Example Cut_ex2 : strings.Cut "name" "(" = ("name", EmptyString, false).
Proof. reflexivity. Qed.

Example CutSuffix_ex : strings.CutSuffix "age?" "?" = ("age", true).
Proof. reflexivity. Qed.

Example TrimSpace_ex : strings.TrimSpace "  list of tags " = "list of tags".
Proof. reflexivity. Qed.

(** [Cut] at a one-byte separator: the segment before its first occurrence,
    and what follows it. *)
Lemma Cut_first (c : ascii) (before after : string) :
  hasByte c before = false ->
  strings.Cut (before ++ String c after)%string (String c EmptyString) = (before, after, true).
Proof.
  induction before as [|b before IH]; simpl; intros H.
  - now rewrite Ascii.eqb_refl.
  - apply orb_false_iff in H as [Hb Hrest].
    rewrite Hb, (IH Hrest). reflexivity.
Qed.

Lemma Cut_absent (c : ascii) (s : string) :
  hasByte c s = false ->
  strings.Cut s (String c EmptyString) = (s, EmptyString, false).
Proof.
  induction s as [|b s IH]; simpl; intros H.
  - reflexivity.
  - apply orb_false_iff in H as [Hb Hrest].
    rewrite Hb, (IH Hrest). reflexivity.
Qed.

Lemma length_append (s t : string) :
  String.length (s ++ t) = String.length s + String.length t.
Proof. induction s as [|c s IH]; simpl; [reflexivity|now rewrite IH]. Qed.

Lemma eqb_longer (c : ascii) (s suffix : string) :
  (String c (s ++ suffix) =? suffix)%string = false.
Proof.
  apply String.eqb_neq. intros H.
  apply (f_equal String.length) in H. simpl in H.
  rewrite length_append in H. lia.
Qed.

(** [CutSuffix] finds the suffix that is there, and takes it off. *)
Lemma CutSuffix_app (s suffix : string) :
  strings.CutSuffix (s ++ suffix) suffix = (s, true).
Proof.
  induction s as [|c s IH].
  - simpl. destruct suffix; simpl; [reflexivity|].
    now rewrite Ascii.eqb_refl, String.eqb_refl.
  - change (String c s ++ suffix)%string with (String c (s ++ suffix)).
    unfold strings.CutSuffix. fold strings.CutSuffix.
    now rewrite eqb_longer, IH.
Qed.

Example key_plain_ex :
  (propertyName "name", isOptional "name", keyFound "name", requiresName "name")
  = ("name", false, false, true).
Proof. reflexivity. Qed.

Example key_optional_enum_ex :
  (propertyName "color?(enum)", isOptional "color?(enum)", modifier "color?(enum)",
   requiresName "color?(enum)")
  = ("color", true, "enum", false).
Proof. reflexivity. Qed.

Example key_wildcard_ex :
  (propertyName "(*)", isWildcard "(*)", requiresName "(*)", isWildcard "*")
  = (EmptyString, true, false, false).
Proof. reflexivity. Qed.

Example key_described_ex :
  keyModifier "tags(array, list of tags)" = ("array", " list of tags", true).
Proof. reflexivity. Qed.

Lemma TrimSpace_leading_space (s : string) :
  strings.TrimSpace (String " " s) = strings.TrimSpace s.
Proof. reflexivity. Qed.

Lemma isScalarType_spec (typ : string) :
  isScalarType typ = true <-> In typ (scalarTokens ++ ["any"]).
Proof.
  unfold isScalarType. simpl.
  repeat rewrite orb_true_iff. repeat rewrite String.eqb_eq.
  intuition congruence.
Qed.

Lemma scalarTokens_not_any (t : string) : In t scalarTokens -> (t =? "any") = false.
Proof.
  intros H. apply String.eqb_neq. intros ->.
  simpl in H. intuition discriminate.
Qed.

Lemma scalarTokens_no_comma (t : string) : In t scalarTokens -> hasByte "," t = false.
Proof.
  simpl. intros [<-|[<-|[<-|[<-|[<-|[]]]]]]; reflexivity.
Qed.

(** ** White space at the ends of a description *)

Lemma append_nil_r (s : string) : (s ++ EmptyString)%string = s.
Proof. induction s as [|c s IH]; simpl; [reflexivity|now rewrite IH]. Qed.

Lemma append_assoc (a b c : string) : ((a ++ b) ++ c)%string = (a ++ (b ++ c))%string.
Proof. induction a as [|x a IH]; simpl; [reflexivity|now rewrite IH]. Qed.

Lemma rev_append (a b : string) :
  strings.rev (a ++ b) = (strings.rev b ++ strings.rev a)%string.
Proof.
  induction a as [|x a IH]; simpl.
  - now rewrite append_nil_r.
  - now rewrite IH, append_assoc.
Qed.

Lemma rev_rev (s : string) : strings.rev (strings.rev s) = s.
Proof.
  induction s as [|c s IH]; simpl; [reflexivity|].
  rewrite rev_append. simpl. now rewrite IH.
Qed.

Lemma onlySpaces_append (a b : string) :
  onlySpaces (a ++ b) = onlySpaces a && onlySpaces b.
Proof.
  induction a as [|x a IH]; simpl; [reflexivity|].
  now rewrite IH, andb_assoc.
Qed.

Lemma onlySpaces_rev (s : string) : onlySpaces (strings.rev s) = onlySpaces s.
Proof.
  induction s as [|c s IH]; simpl; [reflexivity|].
  rewrite onlySpaces_append, IH. simpl. rewrite andb_true_r. apply andb_comm.
Qed.

(** A white-space byte is no part of a white-space character of two or
    three bytes. *)
Lemma asciiSpace_byte (p : ascii) :
  strings.asciiSpace p = true -> (strings.byte p <= 32)%N.
Proof.
  unfold strings.asciiSpace. intros H.
  apply orb_true_iff in H as [H|H].
  - apply andb_true_iff in H as [_ H]. apply N.leb_le in H. lia.
  - apply N.eqb_eq in H. lia.
Qed.

Lemma space2_second (c p : ascii) :
  strings.asciiSpace p = true -> strings.space2 c p = false.
Proof.
  intros H. apply asciiSpace_byte in H. unfold strings.space2.
  replace (strings.byte p =? 133)%N with false by (symmetry; apply N.eqb_neq; lia).
  replace (strings.byte p =? 160)%N with false by (symmetry; apply N.eqb_neq; lia).
  apply andb_false_r.
Qed.

Lemma space3_second (a p c : ascii) :
  strings.asciiSpace p = true -> strings.space3 a p c = false.
Proof.
  intros H. apply asciiSpace_byte in H. unfold strings.space3.
  replace (strings.byte p =? 154)%N with false by (symmetry; apply N.eqb_neq; lia).
  replace (strings.byte p =? 128)%N with false by (symmetry; apply N.eqb_neq; lia).
  replace (strings.byte p =? 129)%N with false by (symmetry; apply N.eqb_neq; lia).
  rewrite !andb_false_r. reflexivity.
Qed.

Lemma space3_third (a b p : ascii) :
  strings.asciiSpace p = true -> strings.space3 a b p = false.
Proof.
  intros H. apply asciiSpace_byte in H. unfold strings.space3.
  replace (strings.byte p =? 128)%N with false by (symmetry; apply N.eqb_neq; lia).
  replace (128 <=? strings.byte p)%N with false by (symmetry; apply N.leb_gt; lia).
  replace (strings.byte p =? 168)%N with false by (symmetry; apply N.eqb_neq; lia).
  replace (strings.byte p =? 169)%N with false by (symmetry; apply N.eqb_neq; lia).
  replace (strings.byte p =? 175)%N with false by (symmetry; apply N.eqb_neq; lia).
  replace (strings.byte p =? 159)%N with false by (symmetry; apply N.eqb_neq; lia).
  simpl. rewrite !andb_false_r. reflexivity.
Qed.

(** White space of one byte in front is dropped, from either end. *)
Lemma trimLeftSpace_spaces (pre s : string) :
  onlySpaces pre = true ->
  strings.trimLeftSpace (pre ++ s) = strings.trimLeftSpace s.
Proof.
  induction pre as [|c pre IH]; intros H; [reflexivity|].
  simpl in H. apply andb_true_iff in H as [Hc Hpre].
  change (strings.trimLeftSpace (String c (pre ++ s)) = strings.trimLeftSpace s).
  cbn [strings.trimLeftSpace]. rewrite Hc. now apply IH.
Qed.

Lemma trimLeftSpaceRev_spaces (pre s : string) :
  onlySpaces pre = true ->
  strings.trimLeftSpaceRev (pre ++ s) = strings.trimLeftSpaceRev s.
Proof.
  induction pre as [|c pre IH]; intros H; [reflexivity|].
  simpl in H. apply andb_true_iff in H as [Hc Hpre].
  change (strings.trimLeftSpaceRev (String c (pre ++ s)) = strings.trimLeftSpaceRev s).
  cbn [strings.trimLeftSpaceRev]. rewrite Hc. now apply IH.
Qed.

Lemma trimLeftSpace_only_spaces (s : string) :
  onlySpaces s = true -> strings.trimLeftSpace s = EmptyString.
Proof.
  intros H. rewrite <- (append_nil_r s). now rewrite trimLeftSpace_spaces.
Qed.

(** A text that does not start with white space is not trimmed on the
    left, whatever one-byte white space follows it. *)
Lemma trimLeftSpace_keeps (desc post : string) :
  desc <> EmptyString -> startsWithSpace desc = false -> onlySpaces post = true ->
  strings.trimLeftSpace (desc ++ post) = (desc ++ post)%string.
Proof.
  intros Hne Hstart Hpost.
  destruct desc as [|c1 desc]; [contradiction|].
  simpl in Hstart. apply orb_false_iff in Hstart as [H1 Hstart].
  destruct desc as [|c2 desc].
  - cbn [String.append strings.trimLeftSpace]. rewrite H1.
    destruct post as [|p1 post]; [reflexivity|].
    simpl in Hpost. apply andb_true_iff in Hpost as [Hp1 Hpost].
    rewrite (space2_second c1 p1 Hp1).
    destruct post as [|p2 post]; [reflexivity|].
    now rewrite (space3_second c1 p1 p2 Hp1).
  - apply orb_false_iff in Hstart as [H2 Hstart].
    destruct desc as [|c3 desc].
    + cbn [String.append strings.trimLeftSpace]. rewrite H1, H2.
      destruct post as [|p1 post]; [reflexivity|].
      simpl in Hpost. apply andb_true_iff in Hpost as [Hp1 _].
      now rewrite (space3_third c1 c2 p1 Hp1).
    + cbn [String.append strings.trimLeftSpace]. now rewrite H1, H2, Hstart.
Qed.

(** A text that does not end with white space is not trimmed on the
    right. *)
Lemma trimRightSpace_keeps (desc post : string) :
  endsWithSpace desc = false -> onlySpaces post = true ->
  strings.trimRightSpace (desc ++ post) = desc.
Proof.
  intros Hend Hpost. unfold strings.trimRightSpace.
  rewrite rev_append, trimLeftSpaceRev_spaces by now rewrite onlySpaces_rev.
  rewrite <- (rev_rev desc) at 2. f_equal.
  unfold endsWithSpace in Hend.
  destruct (strings.rev desc) as [|c1 r]; [reflexivity|].
  apply orb_false_iff in Hend as [H1 Hend].
  cbn [strings.trimLeftSpaceRev]. rewrite H1.
  destruct r as [|c2 r]; [reflexivity|].
  apply orb_false_iff in Hend as [H2 Hend]. rewrite H2.
  destruct r as [|c3 r]; [reflexivity|].
  now rewrite Hend.
Qed.

(** [TrimSpace] takes the white space off both ends and nothing else. *)
Lemma TrimSpace_spec (pre desc post : string) :
  onlySpaces pre = true -> onlySpaces post = true ->
  startsWithSpace desc = false -> endsWithSpace desc = false ->
  strings.TrimSpace (pre ++ desc ++ post) = desc.
Proof.
  intros Hpre Hpost Hstart Hend. unfold strings.TrimSpace.
  rewrite trimLeftSpace_spaces by exact Hpre.
  destruct desc as [|c desc].
  - simpl. now rewrite trimLeftSpace_only_spaces.
  - rewrite trimLeftSpace_keeps by (try assumption; discriminate).
    now apply trimRightSpace_keeps.
Qed.

(** ** Scalar tokens *)

(** C6.  Each of the tokens string, boolean, null, number, integer is
    translated to the node with that type tag and nothing else; followed by
    a comma and a text, to the same node with the text, trimmed of leading
    and trailing white space, as description: for a text [desc] that
    neither starts nor ends with white space, put between any white space
    of one byte, the description is [desc] exactly; ["any"] is translated
    to the node with the empty type tag; and a string whose segment before
    its first comma is none of the six tokens is the error "unsupported
    scalar type" of that segment. *)
Theorem C6_scalar_tokens :
  (forall t, In t scalarTokens ->
     ToJSONSchema (Str t) = Return (Some (set_Type_ t zero)) None
     /\ Type_ (set_Type_ t zero) = t
     /\ Description (set_Type_ t zero) = EmptyString
     /\ (forall desc,
           ToJSONSchema (Str (t ++ "," ++ desc)%string)
           = Return (Some (set_Description (strings.TrimSpace desc) (set_Type_ t zero))) None)
     /\ (forall desc, strings.TrimSpace desc = desc ->
           exists node,
             ToJSONSchema (Str (t ++ ", " ++ desc)%string) = Return (Some node) None
             /\ Type_ node = t /\ Description node = desc)
     /\ (forall pre desc post,
           onlySpaces pre = true -> onlySpaces post = true ->
           startsWithSpace desc = false -> endsWithSpace desc = false ->
           ToJSONSchema (Str (t ++ "," ++ pre ++ desc ++ post)%string)
           = Return (Some (set_Description desc (set_Type_ t zero))) None
           /\ Type_ (set_Description desc (set_Type_ t zero)) = t
           /\ Description (set_Description desc (set_Type_ t zero)) = desc))
  /\ (ToJSONSchema (Str "any") = Return (Some zero) None /\ Type_ zero = EmptyString)
  /\ (forall typ rest, hasByte "," typ = false -> ~ In typ (scalarTokens ++ ["any"]) ->
        ToJSONSchema (Str typ) = Return None (Some (errUnsupportedScalar typ))
        /\ ToJSONSchema (Str (typ ++ "," ++ rest)%string)
           = Return None (Some (errUnsupportedScalar typ))).
Proof.
  split; [|split].
  - intros t Ht.
    assert (Hscalar : isScalarType t = true)
      by (apply isScalarType_spec, in_or_app; now left).
    pose proof (scalarTokens_not_any t Ht) as Hany.
    pose proof (scalarTokens_no_comma t Ht) as Hcomma.
    assert (Hdesc : forall desc,
               ToJSONSchema (Str (t ++ "," ++ desc)%string)
               = Return (Some (set_Description (strings.TrimSpace desc) (set_Type_ t zero)))
                   None).
    { intros desc. simpl. unfold parseScalar.
      rewrite (Cut_first "," t desc Hcomma), Hscalar, Hany. reflexivity. }
    split; [|split; [reflexivity|split; [reflexivity|split; [exact Hdesc|split]]]].
    + simpl. unfold parseScalar.
      rewrite (Cut_absent "," t Hcomma), Hscalar, Hany. reflexivity.
    + intros desc Htrim.
      exists (set_Description (strings.TrimSpace (String " " desc)) (set_Type_ t zero)).
      split; [exact (Hdesc (String " " desc))|].
      split; [reflexivity|].
      simpl. rewrite TrimSpace_leading_space. exact Htrim.
    + intros pre desc post Hpre Hpost Hstart Hend.
      split; [|split; reflexivity].
      rewrite (Hdesc (pre ++ desc ++ post)%string).
      now rewrite (TrimSpace_spec pre desc post Hpre Hpost Hstart Hend).
  - split; reflexivity.
  - intros typ rest Hcomma Hout.
    assert (Hscalar : isScalarType typ = false).
    { destruct (isScalarType typ) eqn:E; [|reflexivity].
      apply isScalarType_spec in E. contradiction. }
    split; simpl; unfold parseScalar.
    + now rewrite (Cut_absent "," typ Hcomma), Hscalar.
    + now rewrite (Cut_first "," typ rest Hcomma), Hscalar.
Qed.

Lemma C6_scalar_tokens_witness :
  ToJSONSchema (Str "integer") = Return (Some (set_Type_ "integer" zero)) None
  /\ (exists node,
        ToJSONSchema (Str "integer, the age") = Return (Some node) None
        /\ Type_ node = "integer" /\ Description node = "the age")
  /\ ToJSONSchema (Str "integer,   the age  ")
     = Return (Some (set_Description "the age" (set_Type_ "integer" zero))) None
  /\ ToJSONSchema (Str "float, a number") = Return None (Some (errUnsupportedScalar "float")).
Proof.
  destruct C6_scalar_tokens as [Htok [_ Herr]].
  destruct (Htok "integer") as [H1 [_ [_ [_ [H2 H3]]]]].
  { simpl. do 4 right. now left. }
  split; [exact H1|]. split; [|split].
  - apply (H2 "the age"). reflexivity.
  - apply (H3 "   " "the age" "  "); reflexivity.
  - apply (Herr "float" " a number").
    + reflexivity.
    + simpl. intros H. repeat (destruct H as [H|H]; [discriminate H|]). exact H.
Defined.

(** ** The results of the three translation functions *)

(** A loop that returns, returns a schema or an error, never both and never
    neither. *)
Lemma rangeLoop_returns body es :
  forall ret s err,
    rangeLoop body es ret = Return s err ->
    (exists r, s = Some r /\ err = None) \/ (s = None /\ exists e, err = Some e).
Proof.
  induction es as [|[k v] es IH]; simpl; intros ret s err H.
  - inversion H; subst. left. eauto.
  - destruct (body k v ret) as [ret'|e|msg].
    + eauto.
    + inversion H; subst. right. eauto.
    + discriminate H.
Qed.

(** Two loops in a row. *)
Lemma rangeLoop_app body pre post :
  forall ret,
    rangeLoop body (pre ++ post) ret =
    match rangeLoop body pre ret with
    | Return (Some r) None => rangeLoop body post r
    | stopped => stopped
    end.
Proof.
  induction pre as [|[k v] pre IH]; simpl; intros ret.
  - reflexivity.
  - destruct (body k v ret) as [ret'|e|msg]; auto.
Qed.

Lemma parsePico_returns val s err :
  parsePico val = Return s err ->
  (exists r, s = Some r /\ err = None) \/ (s = None /\ exists e, err = Some e).
Proof.
  destruct val as [| | | | |str|l|[es]| |]; simpl; intros H;
    try (inversion H; subst; right; eauto; fail).
  - unfold parseScalar in H.
    destruct (strings.Cut str ",") as [[typ desc] found].
    destruct (isScalarType typ); inversion H; subst; [left|right]; eauto.
  - inversion H; subst. left. eauto.
  - eapply rangeLoop_returns; eassumption.
Qed.

Lemma parsePico_no_panic_at_top val msg :
  (forall es, val <> Map (GoMap es)) -> parsePico val <> Panic msg.
Proof.
  destruct val as [| | | | |str|l|[es]| |]; simpl; intros Hmap; try discriminate.
  - unfold parseScalar. destruct (strings.Cut str ",") as [[typ desc] found].
    destruct (isScalarType typ); discriminate.
  - now contradiction (Hmap es).
Qed.

Lemma mapToJSONSchema_unfold es :
  mapToJSONSchema (GoMap es) = rangeLoop (mapField mapToJSONSchema) es zero.
Proof. reflexivity. Qed.

Lemma mapToJSONSchema_returns m s err :
  mapToJSONSchema m = Return s err ->
  (exists r, s = Some r /\ err = None) \/ (s = None /\ exists e, err = Some e).
Proof.
  destruct m as [es]. rewrite mapToJSONSchema_unfold. apply rangeLoop_returns.
Qed.

(** Whenever the top-level translation of a value other than nil returns,
    it returns a schema or an error and not both. *)
Lemma ToJSONSchema_returns val s err :
  val <> Nil ->
  ToJSONSchema val = Return s err ->
  (s <> None <-> err = None).
Proof.
  intros Hnil H.
  assert (Hone : (exists r, s = Some r /\ err = None)
                 \/ (s = None /\ exists e, err = Some e)).
  { destruct val as [| | | | |str|l|m| |]; try (now apply parsePico_returns in H).
    - contradiction.
    - simpl in H.
      destruct (isJSONSchemaType (index m "type")).
      + now apply mapToJSONSchema_returns in H.
      + destruct (lookup "properties" (entries m)) as [[| | | | | | |p| |]|];
          try (now apply (parsePico_returns (Map m)) in H).
        unfold forceObject in H.
        destruct (mapToJSONSchema m) as [[r|] [e|]|msg]; inversion H; subst;
          try (left; eauto; fail); right; eauto. }
  destruct Hone as [[r [-> ->]]|[-> [e ->]]]; split; congruence.
Qed.

(** ** Shape detection *)

Lemma isJSONSchemaType_spec (v : any) :
  isJSONSchemaType v = true <-> exists t, v = Str t /\ In t jsonSchemaTypes.
Proof.
  split.
  - destruct v; simpl; try discriminate. intros H. exists s. split; [reflexivity|].
    repeat rewrite orb_true_iff in H. repeat rewrite String.eqb_eq in H.
    intuition congruence.
  - intros [t [-> Ht]]. simpl in *.
    repeat rewrite orb_true_iff. repeat rewrite String.eqb_eq.
    intuition congruence.
Qed.

(** C7.  A top-level mapping whose key [type] is not bound to one of the
    seven JSON-Schema type names and whose key [properties] is bound to a
    mapping is handed to [mapToJSONSchema], the structural mapper, and not to
    [parsePico]; a schema that comes back has the type tag [object], and is
    what the mapper made of the mapping but for that tag. *)
Theorem C7_properties_routes_to_mapper (m p : gomap) :
  (forall t, index m "type" = Str t -> ~ In t jsonSchemaTypes) ->
  lookup "properties" (entries m) = Some (Map p) ->
  ToJSONSchema (Map m) = forceObject (mapToJSONSchema m)
  /\ forall s err,
       ToJSONSchema (Map m) = Return (Some s) err ->
       Type_ s = "object" /\ err = None
       /\ exists s0, mapToJSONSchema m = Return (Some s0) None /\ s = set_Type_ "object" s0.
Proof.
  intros Htype Hprops.
  assert (Hroute : ToJSONSchema (Map m) = forceObject (mapToJSONSchema m)).
  { simpl. destruct (isJSONSchemaType (index m "type")) eqn:E.
    - apply isJSONSchemaType_spec in E as [t [Ht Hin]].
      now contradiction (Htype t Ht).
    - now rewrite Hprops. }
  split; [exact Hroute|].
  intros s err H. rewrite Hroute in H. unfold forceObject in H.
  destruct (mapToJSONSchema m) as [[s0|] [e|]|msg]; inversion H; subst.
  repeat split. exists s0. split; reflexivity.
Qed.

Lemma C7_properties_routes_to_mapper_witness :
  ToJSONSchema
    (Map (GoMap [("properties", Map (GoMap [("a", Map (GoMap [("type", Str "string")]))]))]))
  = Return
      (Some (set_Type_ "object"
               (set_Properties (Some [("a", set_Type_ "string" zero)]) zero)))
      None.
Proof.
  destruct (C7_properties_routes_to_mapper
              (GoMap [("properties", Map (GoMap [("a", Map (GoMap [("type", Str "string")]))]))])
              (GoMap [("a", Map (GoMap [("type", Str "string")]))]))
    as [Hroute _].
  - intros t Ht. discriminate Ht.
  - reflexivity.
  - rewrite Hroute. reflexivity.
Defined.

(** ** The return values of the top-level translation *)

(** C10 (the code departs from it).  The mapping
    [{"type": "string", "default": nil}] is sent to the structural mapper;
    [default] is a field of type [any], and [rf.Set(reflect.ValueOf(v))] with
    a nil [v] is a [Set] of the zero [reflect.Value], which panics: the call
    returns neither a schema nor an error, in either order of the [range]. *)
Theorem C10_nil_default_panics :
  ToJSONSchema (Map (GoMap [("type", Str "string"); ("default", Nil)])) = Panic setOnZeroValue
  /\ ToJSONSchema (Map (GoMap [("default", Nil); ("type", Str "string")])) = Panic setOnZeroValue.
Proof. split; reflexivity. Qed.

(** ** Fields of unsigned integer shape *)

Lemma storedUint64_nonneg (v : any) :
  inRange v -> (0 <= integerValue v)%Z -> storedUint64 v = integerValue v.
Proof.
  destruct v; simpl; try reflexivity. unfold uint64.
  intros Hr Hn. apply Z.mod_small. lia.
Qed.

Lemma storedUint64_negative (v : any) :
  inRange v -> (integerValue v < 0)%Z -> storedUint64 v = (integerValue v + 2 ^ 64)%Z.
Proof.
  destruct v; simpl; try lia. unfold uint64. intros Hr Hn.
  symmetry. apply Z.mod_unique with (q := (-1)%Z); lia.
Qed.

(** What the [*uint64] case makes of a mapping of one key: a value of one
    of Go's integer types is stored, any other value is the error "want an
    integer type". *)
Lemma uint64_field k rf v :
  jsonMap k = Some rf -> fieldType rf = TUint64Ptr ->
  mapToJSONSchema (GoMap [(k, v)])
  = if isInteger v
    then Return (Some (SetUint64Ptr rf (Some (storedUint64 v)) zero)) None
    else Return None (Some (errWantInteger v k)).
Proof.
  intros Hk Hty. rewrite mapToJSONSchema_unfold. simpl. unfold mapField.
  rewrite Hk, Hty. destruct v; reflexivity.
Qed.

(** Where the code does what C4 says: a number of an integer type that is
    not negative is stored as it is, and a value of any other type (a
    float, whole or not, among them) is the type-mismatch error. *)
Lemma uint64_field_nonnegative k rf v :
  jsonMap k = Some rf -> fieldType rf = TUint64Ptr ->
  (isInteger v = true -> inRange v -> (0 <= integerValue v)%Z ->
   mapToJSONSchema (GoMap [(k, v)])
   = Return (Some (SetUint64Ptr rf (Some (integerValue v)) zero)) None)
  /\ (isInteger v = false ->
      mapToJSONSchema (GoMap [(k, v)]) = Return None (Some (errWantInteger v k))).
Proof.
  intros Hk Hty. rewrite (uint64_field k rf v Hk Hty). split.
  - intros Hv Hr Hn. now rewrite Hv, storedUint64_nonneg.
  - intros Hv. now rewrite Hv.
Qed.

(** C4.  The code departs from the claim on a negative number.  For a key
    [k] of a field of type [*uint64] bound to a negative number [n] of a
    signed integer type, line 186 converts with [uint64(...)] and checks
    nothing: the mapper returns no error, and the field holds [n + 2^64].
    So it is when the mapping is reached from [ToJSONSchema], here with
    the key ["type"] beside [k]. *)
Theorem C4_negative_number_is_stored kind n k rf :
  jsonMap k = Some rf -> fieldType rf = TUint64Ptr ->
  (- 2 ^ 63 <= n < 0)%Z ->
  mapToJSONSchema (GoMap [(k, Int kind n)])
  = Return (Some (SetUint64Ptr rf (Some (n + 2 ^ 64)%Z) zero)) None
  /\ ToJSONSchema (Map (GoMap [("type", Str "string"); (k, Int kind n)]))
     = Return (Some (SetUint64Ptr rf (Some (n + 2 ^ 64)%Z) (set_Type_ "string" zero))) None.
Proof.
  intros Hk Hty Hn.
  assert (Hstored : storedUint64 (Int kind n) = (n + 2 ^ 64)%Z)
    by (apply storedUint64_negative; simpl; lia).
  split.
  - rewrite (uint64_field k rf _ Hk Hty). simpl isInteger. cbv iota.
    now rewrite Hstored.
  - change (rangeLoop (mapField mapToJSONSchema) [(k, Int kind n)]
              (set_Type_ "string" zero)
            = Return (Some (SetUint64Ptr rf (Some (n + 2 ^ 64)%Z)
                              (set_Type_ "string" zero))) None).
    change (uint64 n = (n + 2 ^ 64)%Z) in Hstored.
    cbn [rangeLoop]. unfold mapField. rewrite Hk, Hty. cbv beta iota.
    now rewrite Hstored.
Qed.

Lemma C4_negative_number_is_stored_witness :
  mapToJSONSchema (GoMap [("minLength", Int KInt (-1))])
  = Return (Some (set_MinLength (Some 18446744073709551615%Z) zero)) None
  /\ ToJSONSchema (Map (GoMap [("type", Str "string"); ("minLength", Int KInt (-1))]))
     = Return (Some (set_MinLength (Some 18446744073709551615%Z)
                       (set_Type_ "string" zero))) None.
Proof.
  apply (C4_negative_number_is_stored KInt (-1) "minLength" FMinLength eq_refl eq_refl).
  lia.
Defined.

(** ** The loop of the mapping case of [parsePico] *)

Lemma parsePico_Map es :
  parsePico (Map (GoMap es)) = rangeLoop picoBody es newObject.
Proof. reflexivity. Qed.

Lemma picoRequire_spec k ret :
  picoRequire k ret =
  if requiresName k then set_Required (append (Required ret) (propertyName k)) ret else ret.
Proof. reflexivity. Qed.

Lemma setProperty_next name property ret ret' :
  setProperty name property ret = Next ret' ->
  exists om, Properties ret = Some om
             /\ ret' = set_Properties (Some (orderedmap.Set_ name property om)) ret.
Proof.
  unfold setProperty. destruct (Properties ret) as [om|]; [|discriminate].
  intros H. inversion H. eauto.
Qed.

Lemma stored_describe (found : bool) desc property node :
  stored property node ->
  stored property (if found then set_Description desc node else node).
Proof. destruct found; [apply stored_description|]; auto. Qed.

(** What one turn of the loop does with the parsed value when it goes on:
    a key with the modifier [*] sets [AdditionalProperties], any other stores
    a node under the property name. *)
Lemma picoProperty_next k property ret ret' :
  picoProperty k property ret = Next ret' ->
  (isWildcard k = true /\ ret' = set_AdditionalProperties (Some property) ret)
  \/ (isWildcard k = false
      /\ exists om node,
           Properties ret = Some om /\ stored property node
           /\ ret' = set_Properties (Some (orderedmap.Set_ (propertyName k) node om)) ret).
Proof.
  unfold picoProperty, isWildcard, modifier.
  destruct (keyFound k); simpl.
  - destruct (keyModifier k) as [[typ desc] found]; simpl.
    destruct (typ =? "array") eqn:Harray.
    { apply String.eqb_eq in Harray. subst typ. intros H.
      apply setProperty_next in H as [om [Hom ->]].
      right. split; [reflexivity|]. exists om. eexists. split; [exact Hom|].
      split; [|reflexivity]. apply stored_describe, stored_array. }
    destruct (typ =? "object") eqn:Hobject.
    { apply String.eqb_eq in Hobject. subst typ. intros H.
      apply setProperty_next in H as [om [Hom ->]].
      right. split; [reflexivity|]. exists om. eexists. split; [exact Hom|].
      split; [|reflexivity]. apply stored_describe, stored_same. }
    destruct (typ =? "enum") eqn:Henum.
    { apply String.eqb_eq in Henum. subst typ.
      destruct (Enum property) as [e|] eqn:He; [|discriminate]. intros H.
      apply setProperty_next in H as [om [Hom ->]].
      right. split; [reflexivity|]. exists om. eexists. split; [exact Hom|].
      split; [|reflexivity]. apply stored_describe.
      destruct (isOptional k); [|apply stored_same].
      rewrite <- He. apply stored_enum. rewrite He. discriminate. }
    destruct (typ =? "*") eqn:Hstar; [|discriminate].
    intros H. inversion H. left. split; reflexivity.
  - intros H. apply setProperty_next in H as [om [Hom ->]].
    right. split; [reflexivity|]. exists om, property.
    repeat split; [exact Hom|apply stored_same].
Qed.

Lemma picoBody_next k v ret ret' :
  picoBody k v ret = Next ret' ->
  exists property,
    parsePico v = Return (Some property) None
    /\ picoProperty k property (picoRequire k ret) = Next ret'.
Proof.
  unfold picoBody, picoEntry.
  destruct (parsePico v) as [[property|] [err|]|msg]; try discriminate.
  eauto.
Qed.

(** The fields a turn of the loop leaves alone. *)
Lemma picoBody_frame k v ret ret' :
  picoBody k v ret = Next ret' ->
  Type_ ret' = Type_ ret /\ Enum ret' = Enum ret /\ Items ret' = Items ret
  /\ otherChildren ret' = otherChildren ret
  /\ Required ret' = Required (picoRequire k ret).
Proof.
  intros H. apply picoBody_next in H as [property [_ H]].
  apply picoProperty_next in H as [[_ ->]|[_ [om [node [_ [_ ->]]]]]];
    rewrite picoRequire_spec; destruct (requiresName k); repeat split.
Qed.

(** *** Required *)

Lemma elems_append {A : Type} (s : option (list A)) (x : A) :
  elems (append s x) = elems s ++ [x].
Proof. destruct s; reflexivity. Qed.

Lemma picoLoop_Required es :
  forall ret s,
    rangeLoop picoBody es ret = Return (Some s) None ->
    elems (Required s) = elems (Required ret) ++ requiredNames (map fst es).
Proof.
  induction es as [|[k v] es IH]; simpl; intros ret s H.
  - inversion H. now rewrite app_nil_r.
  - destruct (picoBody k v ret) as [ret'|e|msg] eqn:Hbody; try discriminate.
    rewrite (IH _ _ H).
    apply picoBody_frame in Hbody as [_ [_ [_ [_ Hreq]]]].
    rewrite Hreq, picoRequire_spec. unfold requiredNames. simpl.
    destruct (requiresName k); simpl.
    + now rewrite elems_append, <- app_assoc.
    + reflexivity.
Qed.

(** [Required] is nil until a first name is appended. *)
Lemma picoLoop_Required_nil es :
  forall ret s,
    rangeLoop picoBody es ret = Return (Some s) None ->
    (Required s = None <-> Required ret = None /\ requiredNames (map fst es) = []).
Proof.
  induction es as [|[k v] es IH]; simpl; intros ret s H.
  - inversion H. tauto.
  - destruct (picoBody k v ret) as [ret'|e|msg] eqn:Hbody; try discriminate.
    rewrite (IH _ _ H).
    apply picoBody_frame in Hbody as [_ [_ [_ [_ Hreq]]]].
    rewrite Hreq, picoRequire_spec. unfold requiredNames. simpl.
    destruct (requiresName k); simpl; [|tauto].
    destruct (Required ret); simpl; split; intros [H1 H2]; discriminate.
Qed.

(** *** Properties *)

Lemma Keys_Set_ {V : Type} (key : string) (value : V) om :
  orderedmap.Keys (orderedmap.Set_ key value om)
  = if mem key (orderedmap.Keys om) then orderedmap.Keys om
    else orderedmap.Keys om ++ [key].
Proof.
  unfold orderedmap.Keys, mem.
  induction om as [|[k v] om IH]; simpl.
  - reflexivity.
  - rewrite (String.eqb_sym key k). destruct (k =? key) eqn:E; simpl.
    + apply String.eqb_eq in E. now subst.
    + rewrite IH. now destruct (existsb (String.eqb key) (map fst om)).
Qed.

Lemma get_Set_same {V : Type} (key : string) (value : V) om :
  get key (orderedmap.Set_ key value om) = Some value.
Proof.
  induction om as [|[k v] om IH]; simpl.
  - now rewrite String.eqb_refl.
  - destruct (k =? key) eqn:E; simpl.
    + now rewrite String.eqb_refl.
    + now rewrite E.
Qed.

Lemma get_Set_other {V : Type} (key other : string) (value : V) om :
  key <> other ->
  get other (orderedmap.Set_ key value om) = get other om.
Proof.
  intros Hne. induction om as [|[k v] om IH]; simpl.
  - apply String.eqb_neq in Hne. now rewrite Hne.
  - destruct (k =? key) eqn:E; simpl.
    + apply String.eqb_eq in E. subst k.
      apply String.eqb_neq in Hne. now rewrite Hne.
    + now rewrite IH.
Qed.

Lemma In_Values_Set_ {V : Type} (key : string) (value c : V) om :
  In c (orderedmap.Values (orderedmap.Set_ key value om)) ->
  c = value \/ In c (orderedmap.Values om).
Proof.
  unfold orderedmap.Values.
  induction om as [|[k v] om IH]; simpl.
  - intuition.
  - destruct (k =? key); simpl; intuition.
Qed.

Lemma picoLoop_Properties es :
  forall ret s,
    rangeLoop picoBody es ret = Return (Some s) None ->
    (Properties ret <> None -> Properties s <> None)
    /\ orderedmap.Keys (properties s)
       = firstSeen (orderedmap.Keys (properties ret)) (storedNames (map fst es)).
Proof.
  induction es as [|[k v] es IH]; simpl; intros ret s H.
  - inversion H. auto.
  - destruct (picoBody k v ret) as [ret'|e|msg] eqn:Hbody; try discriminate.
    destruct (IH _ _ H) as [Hsome Hkeys]. rewrite Hkeys. clear IH Hkeys.
    apply picoBody_next in Hbody as [property [_ Hbody]].
    unfold storedNames. simpl.
    assert (Hreq : Properties (picoRequire k ret) = Properties ret).
    { rewrite picoRequire_spec. now destruct (requiresName k). }
    apply picoProperty_next in Hbody
      as [[Hwild ->]|[Hwild [om [node [Hom [_ ->]]]]]]; rewrite Hwild; simpl.
    + split.
      * intros Hret. apply Hsome. simpl. now rewrite Hreq.
      * unfold properties at 1. simpl. rewrite Hreq. reflexivity.
    + split; [intros _; apply Hsome; discriminate|].
      assert (Hret : properties ret = om)
        by (unfold properties; now rewrite <- Hreq, Hom).
      rewrite Hret. unfold properties. simpl. now rewrite Keys_Set_.
Qed.

Lemma firstSeen_NoDup l :
  forall seen, NoDup (seen ++ l) -> firstSeen seen l = seen ++ l.
Proof.
  induction l as [|x l IH]; simpl; intros seen Hnd.
  - now rewrite app_nil_r.
  - assert (Hmem : mem x seen = false).
    { unfold mem. destruct (existsb (String.eqb x) seen) eqn:E; [|reflexivity].
      apply existsb_exists in E as [y [Hy Hxy]]. apply String.eqb_eq in Hxy. subst y.
      apply NoDup_remove_2 in Hnd. exfalso. apply Hnd, in_or_app. now left. }
    rewrite Hmem.
    replace (seen ++ x :: l) with ((seen ++ [x]) ++ l) in *
      by (now rewrite <- app_assoc).
    now apply IH.
Qed.

(** A loop whose keys store under other names leaves the binding of a name
    as it is. *)
Lemma picoLoop_get name es :
  (forall k v, In (k, v) es -> propertyName k <> name) ->
  forall ret s,
    rangeLoop picoBody es ret = Return (Some s) None ->
    get name (properties s) = get name (properties ret).
Proof.
  induction es as [|[k v] es IH]; simpl; intros Hnames ret s H.
  - now inversion H.
  - destruct (picoBody k v ret) as [ret'|e|msg] eqn:Hbody; try discriminate.
    rewrite (IH (fun k' v' Hin => Hnames k' v' (or_intror Hin)) _ _ H).
    apply picoBody_next in Hbody as [property [_ Hbody]].
    assert (Hret : properties (picoRequire k ret) = properties ret).
    { rewrite picoRequire_spec. now destruct (requiresName k). }
    apply picoProperty_next in Hbody
      as [[_ ->]|[_ [om [node [Hom [_ ->]]]]]].
    + now rewrite <- Hret.
    + unfold properties at 1. simpl.
      rewrite get_Set_other by (apply (Hnames k v); now left).
      rewrite <- Hret. unfold properties. now rewrite Hom.
Qed.

(** *** AdditionalProperties *)

Lemma picoBody_AdditionalProperties k v ret a :
  isWildcard k = false ->
  picoBody k v (set_AdditionalProperties a ret)
  = match picoBody k v ret with
    | Next r => Next (set_AdditionalProperties a r)
    | stopped => stopped
    end.
Proof.
  intros Hwild. unfold picoBody, picoEntry.
  destruct (parsePico v) as [[property|] [err|]|msg]; try reflexivity.
  assert (Hreq : picoRequire k (set_AdditionalProperties a ret)
                 = set_AdditionalProperties a (picoRequire k ret)).
  { rewrite !picoRequire_spec. now destruct (requiresName k). }
  rewrite Hreq. generalize (picoRequire k ret). intros r.
  assert (Hset : forall name node,
             setProperty name node (set_AdditionalProperties a r)
             = match setProperty name node r with
               | Next r' => Next (set_AdditionalProperties a r')
               | stopped => stopped
               end).
  { intros name node. unfold setProperty. simpl. now destruct (Properties r). }
  unfold isWildcard, modifier in Hwild. unfold picoProperty.
  destruct (keyFound k); simpl in *; [|apply Hset].
  destruct (keyModifier k) as [[typ desc] found]; simpl in *.
  destruct (typ =? "array"); [apply Hset|].
  destruct (typ =? "object"); [apply Hset|].
  destruct (typ =? "enum").
  - destruct (Enum property); [apply Hset|reflexivity].
  - rewrite Hwild. reflexivity.
Qed.

Lemma picoLoop_AdditionalProperties es a :
  (forall k v, In (k, v) es -> isWildcard k = false) ->
  forall ret,
    rangeLoop picoBody es (set_AdditionalProperties a ret)
    = match rangeLoop picoBody es ret with
      | Return (Some s) None => Return (Some (set_AdditionalProperties a s)) None
      | stopped => stopped
      end.
Proof.
  induction es as [|[k v] es IH]; simpl; intros Hwild ret.
  - reflexivity.
  - rewrite picoBody_AdditionalProperties by (apply (Hwild k v); now left).
    destruct (picoBody k v ret) as [ret'|e|msg]; try reflexivity.
    apply IH. intros k' v' Hin. apply (Hwild k' v'). now right.
Qed.

(** ** The wildcard key *)

Lemma isWildcard_true k :
  isWildcard k = true -> keyFound k = true /\ modifier k = "*".
Proof.
  unfold isWildcard. intros H. apply andb_true_iff in H as [Hf Hm].
  apply String.eqb_eq in Hm. auto.
Qed.

Lemma picoBody_wildcard k v child ret :
  isWildcard k = true ->
  parsePico v = Return (Some child) None ->
  picoBody k v ret = Next (set_AdditionalProperties (Some child) (picoRequire k ret)).
Proof.
  intros Hwild Hchild. apply isWildcard_true in Hwild as [Hfound Hmod].
  unfold picoBody, picoEntry. rewrite Hchild.
  unfold picoProperty. rewrite Hfound. simpl.
  unfold modifier in Hmod.
  destruct (keyModifier k) as [[typ desc] found]. simpl in Hmod. subst typ.
  reflexivity.
Qed.

(** The claim C1 fails for the bare key ["*"]: it has no parenthetical, so
    it names a property like any other key; [AdditionalProperties] stays
    [FalseSchema], and ["*"] is a key of [Properties] and a name of
    [Required]. *)
Lemma C1_bare_star_is_a_property :
  exists s,
    ToJSONSchema (Map (GoMap [("*", Str "string")])) = Return (Some s) None
    /\ parsePico (Str "string") = Return (Some (set_Type_ "string" zero)) None
    /\ AdditionalProperties s = Some FalseSchema
    /\ AdditionalProperties s <> Some (set_Type_ "string" zero)
    /\ properties s = [("*", set_Type_ "string" zero)]
    /\ Required s = Some ["*"].
Proof.
  eexists. split; [reflexivity|]. repeat split. discriminate.
Qed.

(** C1, amended.  The wildcard is the key ["(*)"]: the modifier [*] in
    parentheses after an empty name (more generally, a key with that modifier
    whose name is empty or optional).  When its value parses to a child node
    and no key that the [range] visits after it has the modifier [*], a
    translation that succeeds yields an object node whose
    [AdditionalProperties] is the child; the entry adds no property and no
    required name: the node is the one the mapping without the entry yields,
    but for [AdditionalProperties]. *)
Theorem C1_wildcard_key k v child pre post s :
  isWildcard k = true -> requiresName k = false ->
  parsePico v = Return (Some child) None ->
  (forall k' v', In (k', v') post -> isWildcard k' = false) ->
  parsePico (Map (GoMap (pre ++ (k, v) :: post))) = Return (Some s) None ->
  AdditionalProperties s = Some child
  /\ exists s',
       parsePico (Map (GoMap (pre ++ post))) = Return (Some s') None
       /\ s = set_AdditionalProperties (Some child) s'
       /\ Properties s = Properties s' /\ Required s = Required s'.
Proof.
  intros Hwild Hreq Hchild Hpost H.
  rewrite parsePico_Map, rangeLoop_app in *.
  destruct (rangeLoop picoBody pre newObject) as [[ret|] [err|]|msg];
    try discriminate.
  simpl in H.
  rewrite (picoBody_wildcard _ _ _ _ Hwild Hchild), picoRequire_spec, Hreq in H.
  rewrite (picoLoop_AdditionalProperties _ _ Hpost) in H.
  destruct (rangeLoop picoBody post ret) as [[s'|] [err|]|msg]; try discriminate.
  inversion H. subst s. split; [reflexivity|].
  exists s'. repeat split.
Qed.

Lemma C1_wildcard_key_witness :
  exists s,
    parsePico (Map (GoMap [("name", Str "string"); ("(*)", Str "string")]))
    = Return (Some s) None
    /\ AdditionalProperties s = Some (set_Type_ "string" zero)
    /\ orderedmap.Keys (properties s) = ["name"]
    /\ Required s = Some ["name"].
Proof.
  eexists. split; [reflexivity|].
  destruct (C1_wildcard_key "(*)" (Str "string") (set_Type_ "string" zero)
              [("name", Str "string")] [] _ eq_refl eq_refl eq_refl
              (fun k' v' (H : In (k', v') []) => match H with end) eq_refl)
    as [HAP _].
  split; [exact HAP|]. split; reflexivity.
Defined.

(** ** The order of Properties and Required *)

(** The claim C2 fails: a Go map keeps no authored order, and [range] may
    visit the entries of [{"name": "string", "age?": "integer"}] with
    ["age?"] first; [Properties] is then in the order [[age, name]]. *)
Lemma C2_properties_follow_the_range :
  Permutation [("age?", Str "integer"); ("name", Str "string")]
              [("name", Str "string"); ("age?", Str "integer")]
  /\ exists s,
       ToJSONSchema (Map (GoMap [("age?", Str "integer"); ("name", Str "string")]))
       = Return (Some s) None
       /\ orderedmap.Keys (properties s) = ["age"; "name"]
       /\ orderedmap.Keys (properties s) <> ["name"; "age"].
Proof.
  split; [apply perm_swap|].
  eexists. split; [reflexivity|]. split; [reflexivity|discriminate].
Qed.

(** C2, amended.  The properties of the object node stand in the order in
    which [range] visits the keys of the mapping, each name where it is
    first stored (keys with the modifier [*] store none); [Required] lists
    the names of the keys that are not optional and not empty in that same
    order.  When the names stored are distinct, the keys of [Properties] are
    exactly those names in the order of the [range]. *)
Theorem C2_order_of_the_range es s :
  parsePico (Map (GoMap es)) = Return (Some s) None ->
  orderedmap.Keys (properties s) = firstSeen [] (storedNames (map fst es))
  /\ elems (Required s) = requiredNames (map fst es)
  /\ (Required s = None <-> requiredNames (map fst es) = [])
  /\ (NoDup (storedNames (map fst es)) ->
      orderedmap.Keys (properties s) = storedNames (map fst es)).
Proof.
  rewrite parsePico_Map. intros H.
  destruct (picoLoop_Properties _ _ _ H) as [_ Hkeys].
  pose proof (picoLoop_Required _ _ _ H) as Hreq.
  pose proof (picoLoop_Required_nil _ _ _ H) as Hnil.
  simpl in Hkeys, Hreq, Hnil. repeat split; auto.
  - tauto.
  - tauto.
  - intros Hnd. rewrite Hkeys. now apply (firstSeen_NoDup _ []).
Qed.

Lemma C2_order_of_the_range_witness :
  exists s,
    parsePico (Map (GoMap [("name", Str "string"); ("age?", Str "integer")]))
    = Return (Some s) None
    /\ orderedmap.Keys (properties s) = ["name"; "age"]
    /\ elems (Required s) = ["name"].
Proof.
  eexists. split; [reflexivity|].
  destruct (C2_order_of_the_range [("name", Str "string"); ("age?", Str "integer")] _ eq_refl)
    as [Hkeys [Hreq _]].
  split; [exact Hkeys|exact Hreq].
Defined.

(** ** The modifier [enum] *)

Lemma Enum_describeKey k node : Enum (describeKey k node) = Enum node.
Proof.
  unfold describeKey. destruct (keyModifier k) as [[typ desc] found].
  now destruct found.
Qed.

Lemma picoBody_enum k v child ret :
  keyFound k = true -> modifier k = "enum" ->
  parsePico v = Return (Some child) None ->
  picoBody k v ret
  = match Enum child with
    | None => Fail (errEnumNotArray child)
    | Some _ =>
        setProperty (propertyName k)
          (describeKey k
             (if isOptional k then set_Enum (append (Enum child) Nil) child else child))
          (picoRequire k ret)
    end.
Proof.
  intros Hfound Hmod Hchild.
  unfold picoBody, picoEntry. rewrite Hchild.
  unfold picoProperty, describeKey. rewrite Hfound. simpl.
  unfold modifier in Hmod.
  destruct (keyModifier k) as [[typ desc] found]. simpl in Hmod. subst typ.
  reflexivity.
Qed.

Lemma In_requiredNames name keys :
  In name (requiredNames keys) ->
  exists k, In k keys /\ requiresName k = true /\ propertyName k = name.
Proof.
  unfold requiredNames. intros H.
  apply in_map_iff in H as [k [Hname Hin]].
  apply filter_In in Hin as [Hin Hreq]. eauto.
Qed.

(** C5.  Take an entry whose key has the parenthetical modifier [enum] and
    whose value parses to a child node, at the turn of the loop that reaches
    it.  If the child has no [Enum], the translation of the mapping returns
    the error "enum value is not an array".  If it has one and the name ends
    in [?], the node stored under the property name has that [Enum] with a
    nil appended, and the turn adds nothing to [Required]; when no other key
    of the mapping names the same property, the object node that results
    binds the name to that node and does not list it in [Required]. *)
Theorem C5_enum_modifier k v child pre post ret :
  keyFound k = true -> modifier k = "enum" ->
  parsePico v = Return (Some child) None ->
  rangeLoop picoBody pre newObject = Return (Some ret) None ->
  (Enum child = None ->
     picoBody k v ret = Fail (errEnumNotArray child)
     /\ parsePico (Map (GoMap (pre ++ (k, v) :: post)))
        = Return None (Some (errEnumNotArray child)))
  /\ (forall e, Enum child = Some e -> isOptional k = true ->
        exists node om,
          node = describeKey k (set_Enum (Some (e ++ [Nil])) child)
          /\ Enum node = Some (e ++ [Nil])
          /\ Properties ret = Some om
          /\ picoBody k v ret
             = Next (set_Properties (Some (orderedmap.Set_ (propertyName k) node om)) ret)
          /\ Required (set_Properties (Some (orderedmap.Set_ (propertyName k) node om)) ret)
             = Required ret
          /\ forall s,
               parsePico (Map (GoMap (pre ++ (k, v) :: post))) = Return (Some s) None ->
               (forall k' v', In (k', v') (pre ++ post) -> propertyName k' <> propertyName k) ->
               get (propertyName k) (properties s) = Some node
               /\ ~ In (propertyName k) (elems (Required s))).
Proof.
  intros Hfound Hmod Hchild Hpre.
  pose proof (picoBody_enum k v child ret Hfound Hmod Hchild) as Hbody.
  split.
  - intros Henum. rewrite Henum in Hbody. split; [exact Hbody|].
    rewrite parsePico_Map, rangeLoop_app, Hpre. simpl. now rewrite Hbody.
  - intros e Henum Hopt.
    assert (Hreq : requiresName k = false).
    { unfold requiresName. rewrite Hopt. apply andb_false_r. }
    destruct (picoLoop_Properties _ _ _ Hpre) as [Hsome _].
    destruct (Properties ret) as [om|] eqn:Hom;
      [|exfalso; apply Hsome; [discriminate|reflexivity]].
    rewrite Henum, Hopt, picoRequire_spec, Hreq in Hbody.
    unfold setProperty in Hbody. rewrite Hom in Hbody. simpl in Hbody.
    eexists. exists om. split; [reflexivity|].
    split; [now rewrite Enum_describeKey|].
    split; [reflexivity|]. split; [exact Hbody|]. split; [reflexivity|].
    intros s Hs Hnames.
    pose proof Hs as Hloop.
    rewrite parsePico_Map, rangeLoop_app, Hpre in Hloop. simpl in Hloop.
    rewrite Hbody in Hloop.
    split.
    + rewrite (picoLoop_get (propertyName k) post) with (1 := fun k' v' Hin =>
        Hnames k' v' (in_or_app _ _ _ (or_intror Hin))) (2 := Hloop).
      unfold properties. simpl. apply get_Set_same.
    + rewrite parsePico_Map in Hs. apply picoLoop_Required in Hs. simpl in Hs.
      rewrite Hs. intros Hin.
      apply In_requiredNames in Hin as [k' [Hin [Hreq' Hname]]].
      apply in_map_iff in Hin as [[k'' v''] [Hfst Hin]]. simpl in Hfst. subst k''.
      apply in_app_or in Hin as [Hin|[Heq|Hin]].
      * apply (Hnames k' v''); [apply in_or_app; now left|exact Hname].
      * inversion Heq. subst k'. congruence.
      * apply (Hnames k' v''); [apply in_or_app; now right|exact Hname].
Qed.

Lemma C5_enum_modifier_witness :
  parsePico (Map (GoMap [("color(enum)", Str "string")]))
  = Return None (Some (errEnumNotArray (set_Type_ "string" zero)))
  /\ exists s node,
       parsePico (Map (GoMap [("color?(enum)", Slice (Some [Str "red"; Str "green"]))]))
       = Return (Some s) None
       /\ get "color" (properties s) = Some node
       /\ Enum node = Some [Str "red"; Str "green"; Nil]
       /\ ~ In "color" (elems (Required s)).
Proof.
  split.
  - destruct (C5_enum_modifier "color(enum)" (Str "string") (set_Type_ "string" zero)
                [] [] newObject eq_refl eq_refl eq_refl eq_refl) as [Herr _].
    exact (proj2 (Herr eq_refl)).
  - destruct (C5_enum_modifier "color?(enum)" (Slice (Some [Str "red"; Str "green"]))
                (set_Enum (Some [Str "red"; Str "green"]) zero)
                [] [] newObject eq_refl eq_refl eq_refl eq_refl) as [_ Hopt].
    destruct (Hopt [Str "red"; Str "green"] eq_refl eq_refl)
      as [node [om [Hnode [Henum [_ [_ [_ Hs]]]]]]].
    eexists. exists node. split; [reflexivity|].
    destruct (Hs _ eq_refl (fun k' v' (H : In (k', v') []) => match H with end))
      as [Hget Hnot].
    repeat split; assumption.
Defined.

(** ** The nodes of a schema that [parsePico] returns *)

(** Induction on a dynamic value along the recursion of [parsePico]: the
    values of a mapping. *)
Lemma any_values_ind (P : any -> Prop) :
  (forall v, (forall es, v <> Map (GoMap es)) -> P v) ->
  (forall es, Forall (fun kv => P (snd kv)) es -> P (Map (GoMap es))) ->
  forall v, P v.
Proof.
  intros Hleaf Hmap. fix IH 1. intros v.
  destruct v as [| | | | | | |m| |]; try (apply Hleaf; intros es; discriminate).
  destruct m as [es]. apply Hmap.
  revert es. fix IHes 1. intros [|[k v] es].
  - constructor.
  - constructor; [apply IH|apply IHes].
Qed.

Lemma parseScalar_node str s :
  parseScalar str = Return (Some s) None ->
  children s = [] /\ Enum s = None /\ Type_ s <> "object".
Proof.
  unfold parseScalar. destruct (strings.Cut str ",") as [[typ desc] found].
  destruct (isScalarType typ) eqn:Hscalar; [|discriminate].
  intros H. inversion H. subst s. clear H.
  assert (Htype : (if typ =? "any" then EmptyString else typ) <> "object").
  { destruct (typ =? "any"); [discriminate|].
    intros ->. discriminate Hscalar. }
  destruct found; repeat split; assumption.
Qed.

Lemma stored_children property node :
  stored property node ->
  children node = children property \/ children node = [property].
Proof.
  induction 1 as [| | |d node Hstored IH].
  - now left.
  - now right.
  - now left.
  - exact IH.
Qed.

Lemma allNodes_intro (P : Schema -> Prop) s :
  P s -> (forall c, In c (children s) -> allNodes P c) -> allNodes P s.
Proof.
  intros Hs Hchildren n Hreach. destruct Hreach as [|c n Hc Hn].
  - exact Hs.
  - exact (Hchildren c Hc n Hn).
Qed.

Lemma allNodes_child (P : Schema -> Prop) s c :
  allNodes P s -> In c (children s) -> allNodes P c.
Proof.
  intros Hs Hc n Hn. apply Hs. now apply reach_step with c.
Qed.

Lemma picoLoop_frame es :
  forall ret s,
    rangeLoop picoBody es ret = Return (Some s) None ->
    Type_ s = Type_ ret /\ Enum s = Enum ret /\ Items s = Items ret
    /\ otherChildren s = otherChildren ret.
Proof.
  induction es as [|[k v] es IH]; simpl; intros ret s H.
  - inversion H. auto.
  - destruct (picoBody k v ret) as [ret'|e|msg] eqn:Hbody; try discriminate.
    destruct (IH _ _ H) as [H1 [H2 [H3 H4]]].
    apply picoBody_frame in Hbody as [B1 [B2 [B3 [B4 _]]]].
    repeat split; congruence.
Qed.

Section PicoNodes.

(** A property [P] of nodes and a condition [okIn] on the input such that
    [P] holds of the node that [parsePico] returns for a good input, of
    [FalseSchema], and of what the loop stores for a node with [P]. *)
Variable P : Schema -> Prop.
Variable okIn : any -> bool.

Hypothesis okIn_values :
  forall es k v, okIn (Map (GoMap es)) = true -> In (k, v) es -> okIn v = true.
Hypothesis P_root :
  forall val s, okIn val = true -> parsePico val = Return (Some s) None -> P s.
Hypothesis P_FalseSchema : P FalseSchema.
Hypothesis P_stored :
  forall property node, stored property node -> P property -> P node.

Lemma allNodes_stored property node :
  stored property node -> allNodes P property -> allNodes P node.
Proof.
  intros Hstored Hproperty. apply allNodes_intro.
  - apply (P_stored property node Hstored). apply Hproperty, reach_self.
  - intros c Hc. destruct (stored_children _ _ Hstored) as [Hsame|Hone];
      rewrite ?Hsame, ?Hone in Hc.
    + now apply allNodes_child with property.
    + destruct Hc as [<-|[]]. exact Hproperty.
Qed.

Lemma picoInv_children ret c :
  picoInv P ret -> In c (children ret) -> allNodes P c.
Proof.
  intros [Hother [Hitems [Hprops HAP]]]. unfold children.
  rewrite Hother, Hitems, app_nil_r. simpl. intros Hc.
  apply in_app_or in Hc as [Hc|Hc].
  - now apply Hprops.
  - destruct (AdditionalProperties ret) as [a|]; simpl in Hc; [|contradiction].
    destruct Hc as [<-|[]]. now apply HAP.
Qed.

Lemma picoInv_newObject : picoInv P newObject.
Proof.
  repeat split.
  - intros c [].
  - intros a Ha. inversion Ha. subst a.
    apply allNodes_intro; [exact P_FalseSchema|intros c []].
Qed.

Lemma picoInv_picoRequire k ret : picoInv P ret -> picoInv P (picoRequire k ret).
Proof.
  rewrite picoRequire_spec. now destruct (requiresName k).
Qed.

Lemma picoLoop_nodes es :
  Forall (fun kv => forall s, okIn (snd kv) = true ->
                              parsePico (snd kv) = Return (Some s) None ->
                              allNodes P s) es ->
  (forall k v, In (k, v) es -> okIn v = true) ->
  forall ret s,
    picoInv P ret -> rangeLoop picoBody es ret = Return (Some s) None -> picoInv P s.
Proof.
  induction 1 as [|[k v] es Hv Hes IH]; simpl; intros Hok ret s Hinv H.
  - now inversion H; subst.
  - destruct (picoBody k v ret) as [ret'|e|msg] eqn:Hbody; try discriminate.
    apply (IH (fun k' v' Hin => Hok k' v' (or_intror Hin)) ret' s); [|exact H].
    apply picoBody_next in Hbody as [property [Hparse Hbody]].
    assert (Hproperty : allNodes P property)
      by (apply Hv; [apply (Hok k v); now left|exact Hparse]).
    apply (picoInv_picoRequire k) in Hinv.
    destruct Hinv as [Hother [Hitems [Hprops HAP]]].
    apply picoProperty_next in Hbody
      as [[_ ->]|[_ [om [node [Hom [Hstored ->]]]]]].
    + repeat split; try assumption.
      intros a Ha. simpl in Ha. inversion Ha. now subst a.
    + repeat split; try assumption.
      intros c Hc. unfold properties in Hc. simpl in Hc.
      apply In_Values_Set_ in Hc as [->|Hc].
      * now apply allNodes_stored with property.
      * apply Hprops. unfold properties. now rewrite Hom.
Qed.

(** Every node of the schema that [parsePico] returns for a good input
    satisfies [P]. *)
Lemma parsePico_allNodes :
  forall val s,
    okIn val = true -> parsePico val = Return (Some s) None -> allNodes P s.
Proof.
  induction val as [val Hleaf|es IH] using any_values_ind; intros s Hok H.
  - apply allNodes_intro; [now apply (P_root val)|].
    destruct val as [| | | | |str|l|[es]| |]; simpl in H; try discriminate.
    + apply parseScalar_node in H as [-> _]. intros c [].
    + inversion H. intros c [].
    + now contradiction (Hleaf es).
  - apply allNodes_intro; [now apply (P_root (Map (GoMap es)))|].
    intros c Hc. rewrite parsePico_Map in H.
    apply picoInv_children with s; [|exact Hc].
    apply (picoLoop_nodes es IH (fun k v => okIn_values es k v Hok) newObject s);
      [apply picoInv_newObject|exact H].
Qed.

End PicoNodes.

(** ** Required within Properties *)

Lemma ToJSONSchema_shorthand val :
  isStructural val = false -> val <> Nil -> ToJSONSchema val = parsePico val.
Proof.
  destruct val as [| | | | | | |m| |]; simpl; intros Hs Hnil;
    try reflexivity; try contradiction.
  apply orb_false_iff in Hs as [Htype Hprops]. rewrite Htype.
  destruct (lookup "properties" (entries m)) as [[| | | | | | |p| |]|];
    try reflexivity; discriminate.
Qed.

Lemma In_Keys_Set_ {V : Type} (key name : string) (value : V) om :
  In name (orderedmap.Keys (orderedmap.Set_ key value om))
  <-> name = key \/ In name (orderedmap.Keys om).
Proof.
  rewrite Keys_Set_. unfold mem.
  destruct (existsb (String.eqb key) (orderedmap.Keys om)) eqn:E.
  - apply existsb_exists in E as [x [Hx Hkey]]. apply String.eqb_eq in Hkey. subst x.
    intuition congruence.
  - rewrite in_app_iff. simpl. intuition.
Qed.

Lemma noRequiredWildcard_entry es k v :
  noRequiredWildcard (Map (GoMap es)) = true -> In (k, v) es ->
  isWildcard k && requiresName k = false /\ noRequiredWildcard v = true.
Proof.
  simpl. intros Hall Hin.
  rewrite forallb_forall in Hall. specialize (Hall (k, v) Hin). simpl in Hall.
  apply andb_true_iff in Hall as [Hk Hv]. apply negb_true_iff in Hk. auto.
Qed.

Lemma picoLoop_required_in_properties es :
  (forall k v, In (k, v) es -> isWildcard k && requiresName k = false) ->
  forall ret s,
    (forall name, In name (elems (Required ret)) ->
                  In name (orderedmap.Keys (properties ret))) ->
    rangeLoop picoBody es ret = Return (Some s) None ->
    forall name, In name (elems (Required s)) -> In name (orderedmap.Keys (properties s)).
Proof.
  induction es as [|[k v] es IH]; simpl; intros Hkeys ret s Hinv H.
  - now inversion H; subst.
  - destruct (picoBody k v ret) as [ret'|e|msg] eqn:Hbody; try discriminate.
    apply (IH (fun k' v' Hin => Hkeys k' v' (or_intror Hin)) ret' s); [|exact H].
    clear IH H s. intros name.
    specialize (Hkeys k v (or_introl eq_refl)).
    apply picoBody_next in Hbody as [property [_ Hbody]].
    apply picoProperty_next in Hbody
      as [[Hwild ->]|[_ [om [node [Hom [_ ->]]]]]].
    + rewrite Hwild in Hkeys. simpl in Hkeys.
      rewrite picoRequire_spec, Hkeys. apply Hinv.
    + assert (Hret : properties ret = om).
      { unfold properties. rewrite picoRequire_spec in Hom.
        destruct (requiresName k); simpl in Hom; now rewrite Hom. }
      unfold properties at 1. simpl. rewrite In_Keys_Set_, <- Hret.
      rewrite picoRequire_spec. destruct (requiresName k); simpl.
      * rewrite elems_append, in_app_iff. simpl. intuition.
      * intuition.
Qed.

Lemma requiredInProperties_root val s :
  noRequiredWildcard val = true ->
  parsePico val = Return (Some s) None -> requiredInProperties s.
Proof.
  intros Hok H Hobject.
  destruct val as [| | | | |str|l|[es]| |]; simpl in H; try discriminate.
  - apply parseScalar_node in H as [_ [_ Htype]]. contradiction.
  - inversion H. subst s. discriminate Hobject.
  - apply (picoLoop_required_in_properties es) with (ret := newObject).
    + intros k v Hin. now destruct (noRequiredWildcard_entry es k v Hok Hin).
    + intros name [].
    + exact H.
Qed.

Lemma requiredInProperties_stored property node :
  stored property node -> requiredInProperties property -> requiredInProperties node.
Proof.
  induction 1 as [| | |d node Hstored IH]; intros Hp.
  - exact Hp.
  - intros Hobject. discriminate Hobject.
  - exact Hp.
  - exact (IH Hp).
Qed.

(** The claim C3 fails for the structural mapper, which copies [required]
    and [properties] as they come: [{"type": "object", "required": ["a"]}]
    is translated to an object node with [Required == ["a"]] and no
    property. *)
Lemma C3_mapper_copies_required :
  exists s,
    ToJSONSchema (Map (GoMap [("type", Str "object"); ("required", Slice (Some [Str "a"]))]))
    = Return (Some s) None
    /\ Type_ s = "object" /\ Required s = Some ["a"] /\ Properties s = None
    /\ ~ requiredInProperties s.
Proof.
  eexists. split; [reflexivity|]. repeat split.
  intros H. exact (H eq_refl "a" (or_introl eq_refl)).
Qed.

(** A key with the modifier [*] and a name that is not optional puts the
    name into [Required] and stores no property. *)
Lemma named_wildcard_is_required :
  exists s,
    ToJSONSchema (Map (GoMap [("x(*)", Str "string")])) = Return (Some s) None
    /\ Required s = Some ["x"] /\ properties s = [].
Proof. eexists. split; [reflexivity|]. split; reflexivity. Qed.

(** C3, amended.  For an input that is translated by the shorthand grammar
    (the shape test does not send it to the structural mapper) and in which
    no key with the modifier [*] has a name that is neither empty nor
    optional, every node of type [object] in the schema that is returned
    has the names of its [Required] among the keys of its [Properties]. *)
Theorem C3_required_within_properties val s :
  isStructural val = false ->
  noRequiredWildcard val = true ->
  ToJSONSchema val = Return (Some s) None ->
  forall n, reach children s n ->
    Type_ n = "object" ->
    forall name, In name (elems (Required n)) -> In name (orderedmap.Keys (properties n)).
Proof.
  intros Hshape Hok H.
  assert (Hnil : val <> Nil) by (intros ->; discriminate H).
  rewrite (ToJSONSchema_shorthand val Hshape Hnil) in H.
  apply (parsePico_allNodes requiredInProperties noRequiredWildcard) with (val := val);
    try assumption.
  - intros es k v Hes Hin. now destruct (noRequiredWildcard_entry es k v Hes Hin).
  - apply requiredInProperties_root.
  - intros Hobject. discriminate Hobject.
  - apply requiredInProperties_stored.
Qed.

Lemma C3_required_within_properties_witness :
  exists s,
    ToJSONSchema
      (Map (GoMap [("name", Str "string");
                   ("address?(object)", Map (GoMap [("city", Str "string")]))]))
    = Return (Some s) None
    /\ forall n, reach children s n ->
         Type_ n = "object" ->
         forall name, In name (elems (Required n)) ->
                      In name (orderedmap.Keys (properties n)).
Proof.
  eexists. split; [reflexivity|].
  apply (C3_required_within_properties
           (Map (GoMap [("name", Str "string");
                        ("address?(object)", Map (GoMap [("city", Str "string")]))])));
    reflexivity.
Defined.

(** ** Enum lists *)

Lemma noEmptyEnum_entry es k v :
  noEmptyEnum (Map (GoMap es)) = true -> In (k, v) es -> noEmptyEnum v = true.
Proof.
  simpl. intros Hall Hin. rewrite forallb_forall in Hall. exact (Hall (k, v) Hin).
Qed.

Lemma enumNonEmpty_root val s :
  noEmptyEnum val = true ->
  parsePico val = Return (Some s) None -> enumNonEmpty s.
Proof.
  intros Hok H e He.
  destruct val as [| | | | |str|l|[es]| |]; simpl in H; try discriminate.
  - apply parseScalar_node in H as [_ [Henum _]]. congruence.
  - inversion H. subst s. simpl in He. subst l.
    destruct e; [discriminate Hok|discriminate].
  - apply picoLoop_frame in H as [_ [Henum _]]. simpl in Henum. congruence.
Qed.

Lemma enumNonEmpty_stored property node :
  stored property node -> enumNonEmpty property -> enumNonEmpty node.
Proof.
  induction 1 as [| |Henum|d node Hstored IH]; intros Hp.
  - exact Hp.
  - intros e He. discriminate He.
  - intros e He. simpl in He.
    destruct (Enum property) as [l|]; [|contradiction].
    inversion He. now destruct l.
  - exact (IH Hp).
Qed.

(** *** The structural mapper sets no Enum *)

(** Induction on a mapping along the recursion of [mapToJSONSchema]. *)
Lemma gomap_deep_ind (Q : gomap -> Prop) :
  (forall es, Forall (fun kv => deep Q (snd kv)) es -> Q (GoMap es)) ->
  forall m, Q m.
Proof.
  intros Hstep. fix IH 1. intros [es]. apply Hstep.
  revert es. fix IHes 1. intros [|[k v] es]; constructor; [|apply IHes].
  simpl. destruct v as [| | | | | | |m2|l|]; simpl; try exact I.
  - split; [apply IH|].
    destruct m2 as [es2]. simpl.
    revert es2. fix IHes2 1. intros [|[mk mv] es2]; constructor; [|apply IHes2].
    simpl. destruct mv as [| | | | | | |mvm| |]; try exact I. apply IH.
  - revert l. fix IHl 1. intros [|m l]; constructor; [apply IH|apply IHl].
Qed.

Lemma noEnum_allNodes_enumNonEmpty s : allNodes noEnum s -> allNodes enumNonEmpty s.
Proof. intros H n Hn e He. rewrite (H n Hn) in He. discriminate He. Qed.

Lemma mapInv_SetAny rf v ret : mapInv ret -> mapInv (SetAny rf v ret).
Proof. destruct rf; exact (fun H => H). Qed.

Lemma mapInv_SetString rf v ret : mapInv ret -> mapInv (SetString rf v ret).
Proof. destruct rf; exact (fun H => H). Qed.

Lemma mapInv_SetNumber rf v ret : mapInv ret -> mapInv (SetNumber rf v ret).
Proof. destruct rf; exact (fun H => H). Qed.

Lemma mapInv_SetUint64Ptr rf v ret : mapInv ret -> mapInv (SetUint64Ptr rf v ret).
Proof. destruct rf; exact (fun H => H). Qed.

Lemma mapInv_SetBool rf v ret : mapInv ret -> mapInv (SetBool rf v ret).
Proof. destruct rf; exact (fun H => H). Qed.

Lemma mapInv_SetStrings rf v ret : mapInv ret -> mapInv (SetStrings rf v ret).
Proof. destruct rf; exact (fun H => H). Qed.

Lemma mapInv_SetSchema rf schema ret :
  mapInv ret -> (forall c, schema = Some c -> allNodes noEnum c) ->
  mapInv (SetSchema rf schema ret).
Proof.
  intros [He Hc] Hs.
  assert (Hin : forall c, In c (children (SetSchema rf schema ret)) ->
                          In c (children ret) \/ In c (ptr schema)).
  { intros c. destruct rf; try (now left);
      unfold children, otherChildren, properties; simpl;
      rewrite !in_app_iff; tauto. }
  split.
  - destruct rf; exact He.
  - intros c H. destruct (Hin c H) as [H'|H']; [now apply Hc|].
    destruct schema as [c'|]; simpl in H'; [|contradiction].
    destruct H' as [<-|[]]. now apply Hs.
Qed.

Lemma mapInv_SetSchemas rf schemas ret :
  mapInv ret -> Forall (allNodes noEnum) schemas ->
  mapInv (SetSchemas rf (Some schemas) ret).
Proof.
  intros [He Hc] Hs.
  assert (Hin : forall c, In c (children (SetSchemas rf (Some schemas) ret)) ->
                          In c (children ret) \/ In c schemas).
  { intros c. destruct rf; try (now left);
      unfold children, otherChildren, properties; simpl;
      rewrite !in_app_iff; tauto. }
  split.
  - destruct rf; exact He.
  - intros c H. destruct (Hin c H) as [H'|H']; [now apply Hc|].
    rewrite Forall_forall in Hs. now apply Hs.
Qed.

Lemma mapInv_SetOrderedMap rf om ret :
  mapInv ret -> (forall c, In c (orderedmap.Values om) -> allNodes noEnum c) ->
  mapInv (SetOrderedMap rf (Some om) ret).
Proof.
  intros [He Hc] Hs.
  assert (Hin : forall c, In c (children (SetOrderedMap rf (Some om) ret)) ->
                          In c (children ret) \/ In c (orderedmap.Values om)).
  { intros c. destruct rf; try (now left).
    unfold children, otherChildren, properties, orderedmap.Values; simpl.
    rewrite !in_app_iff. tauto. }
  split.
  - destruct rf; exact He.
  - intros c H. destruct (Hin c H) as [H'|H']; [now apply Hc|now apply Hs].
Qed.

Lemma toSchemas_noEnum k l :
  Forall mapperNoEnum l ->
  forall schemas,
    toSchemas mapToJSONSchema k l = Next schemas -> Forall (allNodes noEnum) schemas.
Proof.
  induction 1 as [|m l Hm Hl IH]; simpl; intros schemas H.
  - inversion H. constructor.
  - destruct (mapToJSONSchema m) as [[schema|] [e|]|msg] eqn:Hconv; try discriminate.
    destruct (toSchemas mapToJSONSchema k l) as [rest|e|msg]; try discriminate.
    inversion H. constructor; [now apply Hm|now apply IH].
Qed.

Lemma toProperties_noEnum k es :
  Forall (fun kv => match snd kv with Map mvm => mapperNoEnum mvm | _ => True end) es ->
  forall om om',
    (forall c, In c (orderedmap.Values om) -> allNodes noEnum c) ->
    toProperties mapToJSONSchema k es om = Next om' ->
    forall c, In c (orderedmap.Values om') -> allNodes noEnum c.
Proof.
  induction 1 as [|[mk mv] es Hmv Hes IH]; simpl; intros om om' Hom H.
  - now inversion H; subst.
  - destruct mv as [| | | | | | |mvm| |]; try discriminate. simpl in Hmv.
    destruct (mapToJSONSchema mvm) as [[schema|] [e|]|msg] eqn:Hconv; try discriminate.
    apply (IH _ _) with (2 := H).
    intros c Hc. apply In_Values_Set_ in Hc as [->|Hc]; [now apply Hmv|now apply Hom].
Qed.

Lemma mapField_mapInv k v ret ret' :
  deep mapperNoEnum v -> mapInv ret ->
  mapField mapToJSONSchema k v ret = Next ret' -> mapInv ret'.
Proof.
  intros Hdeep Hinv. unfold mapField.
  destruct (jsonMap k) as [rf|]; [|discriminate].
  destruct (fieldType rf).
  - destruct v; try discriminate; intros H; inversion H; now apply mapInv_SetAny.
  - destruct v; try discriminate; intros H; inversion H; now apply mapInv_SetString.
  - destruct v; try discriminate; intros H; inversion H; now apply mapInv_SetUint64Ptr.
  - destruct v; try discriminate; intros H; inversion H; now apply mapInv_SetBool.
  - destruct v; try discriminate.
    destruct (toStrings k 0 (elems l)); try discriminate.
    intros H; inversion H; now apply mapInv_SetStrings.
  - destruct v; try discriminate; intros H; inversion H; now apply mapInv_SetNumber.
  - destruct v as [| | | | | | |m| |]; try discriminate. destruct Hdeep as [Hm _].
    destruct (mapToJSONSchema m) as [schema [e|]|msg] eqn:Hconv; try discriminate.
    intros H; inversion H. apply mapInv_SetSchema; [exact Hinv|].
    intros c ->. now apply Hm.
  - destruct v as [| | | | | | | |l|]; try discriminate. simpl in Hdeep.
    destruct (toSchemas mapToJSONSchema k l) as [schemas|e|msg] eqn:Hconv;
      try discriminate.
    intros H; inversion H. apply mapInv_SetSchemas; [exact Hinv|].
    now apply (toSchemas_noEnum k l).
  - destruct v as [| | | | | | |[es]| |]; try discriminate. destruct Hdeep as [_ Hes].
    destruct (toProperties mapToJSONSchema k es orderedmap.New) as [om|e|msg] eqn:Hconv;
      try discriminate.
    intros H; inversion H. apply mapInv_SetOrderedMap; [exact Hinv|].
    apply (toProperties_noEnum k es Hes orderedmap.New om); [intros c []|exact Hconv].
  - discriminate.
Qed.

Lemma mapLoop_mapInv es :
  Forall (fun kv => deep mapperNoEnum (snd kv)) es ->
  forall ret s,
    mapInv ret ->
    rangeLoop (mapField mapToJSONSchema) es ret = Return (Some s) None -> mapInv s.
Proof.
  induction 1 as [|[k v] es Hv Hes IH]; simpl; intros ret s Hinv H.
  - now inversion H; subst.
  - destruct (mapField mapToJSONSchema k v ret) as [ret'|e|msg] eqn:Hbody;
      try discriminate.
    apply (IH ret' s); [|exact H]. now apply (mapField_mapInv k v ret).
Qed.

(** No node of a schema made by the structural mapper has an [Enum]: the
    field [Enum] has the type [[]any], which no case of the switch names. *)
Lemma mapToJSONSchema_noEnum : forall m, mapperNoEnum m.
Proof.
  induction m as [es Hes] using gomap_deep_ind. intros s H.
  rewrite mapToJSONSchema_unfold in H.
  assert (Hinv : mapInv s).
  { apply (mapLoop_mapInv es Hes zero s); [|exact H]. split; [reflexivity|intros c []]. }
  destruct Hinv as [He Hc]. now apply allNodes_intro.
Qed.

(** The claim C8 fails for an empty sequence: the YAML value [[]] is a
    non-nil empty [[]any], which becomes the [Enum] as it is, also under the
    modifier [enum] (line 120 tests for nil only). *)
Lemma C8_empty_sequence_is_an_empty_Enum :
  ToJSONSchema (Slice (Some [])) = Return (Some (set_Enum (Some []) zero)) None
  /\ Enum (set_Enum (Some []) zero) = Some []
  /\ exists s node,
       ToJSONSchema (Map (GoMap [("color(enum)", Slice (Some []))])) = Return (Some s) None
       /\ get "color" (properties s) = Some node /\ Enum node = Some [].
Proof.
  split; [reflexivity|]. split; [reflexivity|].
  eexists. eexists. split; [reflexivity|]. split; reflexivity.
Qed.

(** C8, amended.  When a translation succeeds and no sequence that the
    shorthand grammar takes for an enumeration is empty, every node of the
    schema that has an [Enum] has a non-empty one.  (The structural mapper
    sets no [Enum] at all.) *)
Theorem C8_enum_not_empty val s :
  (isStructural val = false -> noEmptyEnum val = true) ->
  ToJSONSchema val = Return (Some s) None ->
  forall n, reach children s n -> forall e, Enum n = Some e -> e <> [].
Proof.
  intros Hok H.
  assert (Hnil : val <> Nil) by (intros ->; discriminate H).
  destruct (isStructural val) eqn:Hshape.
  - apply noEnum_allNodes_enumNonEmpty.
    destruct val as [| | | | | | |m| |]; try discriminate Hshape.
    simpl in H, Hshape.
    destruct (isJSONSchemaType (index m "type")).
    + now apply (mapToJSONSchema_noEnum m).
    + simpl in Hshape.
      destruct (lookup "properties" (entries m)) as [[| | | | | | |p| |]|];
        try discriminate Hshape.
      unfold forceObject in H.
      destruct (mapToJSONSchema m) as [[s0|] [e|]|msg] eqn:Hconv; try discriminate.
      inversion H. subst s.
      pose proof (mapToJSONSchema_noEnum m s0 Hconv) as Hs0.
      apply allNodes_intro.
      * apply (Hs0 s0), reach_self.
      * intros c Hc. now apply allNodes_child with s0.
  - rewrite (ToJSONSchema_shorthand val Hshape Hnil) in H.
    apply (parsePico_allNodes enumNonEmpty noEmptyEnum) with (val := val); auto.
    + apply noEmptyEnum_entry.
    + apply enumNonEmpty_root.
    + intros e He. discriminate He.
    + apply enumNonEmpty_stored.
Qed.

Lemma C8_enum_not_empty_witness :
  exists s,
    ToJSONSchema (Map (GoMap [("color?(enum)", Slice (Some [Str "red"; Str "green"]))]))
    = Return (Some s) None
    /\ forall n, reach children s n -> forall e, Enum n = Some e -> e <> [].
Proof.
  eexists. split; [reflexivity|].
  apply (C8_enum_not_empty
           (Map (GoMap [("color?(enum)", Slice (Some [Str "red"; Str "green"]))])));
    reflexivity.
Defined.

(** ** Canonical form *)

(** [slices.Sort] returns the elements in ascending order. *)
Lemma insert_ascending x l : ascending l -> ascending (slices.insert x l).
Proof.
  unfold ascending. induction 1 as [|y l Hl IH Hhd]; simpl.
  - repeat constructor.
  - destruct (x <=? y)%string eqn:E.
    + repeat constructor; assumption.
    + constructor; [exact IH|].
      assert (Hyx : (y <=? x)%string = true)
        by (destruct (String.leb_total x y); congruence).
      destruct Hhd as [|z l Hyz]; simpl.
      * now constructor.
      * destruct (x <=? z)%string; now constructor.
Qed.

Lemma sorted_ascending l : ascending (slices.sorted l).
Proof.
  induction l as [|x l IH]; simpl; [constructor|now apply insert_ascending].
Qed.

Lemma insert_Permutation x l : Permutation (x :: l) (slices.insert x l).
Proof.
  induction l as [|y l IH]; simpl; [reflexivity|].
  destruct (x <=? y)%string; [reflexivity|].
  rewrite perm_swap. now constructor.
Qed.

Lemma sorted_Permutation l : Permutation l (slices.sorted l).
Proof.
  induction l as [|x l IH]; simpl; [constructor|].
  rewrite <- insert_Permutation. now constructor.
Qed.

(** Sorting what is in ascending order changes nothing. *)
Lemma sorted_of_ascending l : ascending l -> slices.sorted l = l.
Proof.
  unfold ascending. induction 1 as [|x l Hl IH Hhd]; simpl; [reflexivity|].
  rewrite IH. destruct Hhd as [|y l Hxy]; simpl; [reflexivity|].
  now rewrite Hxy.
Qed.

Lemma Sort_Sort r : slices.Sort (slices.Sort r) = slices.Sort r.
Proof.
  destruct r as [l|]; simpl; [|reflexivity].
  now rewrite (sorted_of_ascending _ (sorted_ascending l)).
Qed.

(** [sortSchemaSlices] field by field. *)
Lemma sortSchemaSlices_eq s :
  sortSchemaSlices s
  = set_Items (option_map sortSchemaSlices (Items s))
      (set_Properties (option_map (map sortValue) (Properties s))
         (set_Required (slices.Sort (Required s)) s)).
Proof.
  destruct s as [? ? ? ? ? ? ? ? ? ? ? ? ? ? ? ? items ? props ? ? ? ? ? ? ? ? ? ? ? ? ? ? ?
                   ? ? ? ? ? ? ? ? ? ? ? ? ? ? ? ? ? ? ? ? ?].
  destruct items, props; reflexivity.
Qed.

Lemma sortedChildren_sortSchemaSlices s :
  sortedChildren (sortSchemaSlices s) = map sortSchemaSlices (sortedChildren s).
Proof.
  rewrite sortSchemaSlices_eq. unfold sortedChildren, properties. simpl.
  rewrite map_app. f_equal.
  - destruct (Properties s) as [om|]; simpl; [|reflexivity].
    rewrite !map_map. reflexivity.
  - now destruct (Items s).
Qed.

(** Induction on a schema along the recursion of [sortSchemaSlices]. *)
Lemma Schema_sorted_ind (P : Schema -> Prop) :
  (forall s, Forall P (sortedChildren s) -> P s) -> forall s, P s.
Proof.
  intros Hstep. fix IH 1. intros s. apply Hstep.
  destruct s as [? ? ? ? ? ? ? ? ? ? ? ? ? ? ? ? items ? props ? ? ? ? ? ? ? ? ? ? ? ? ? ? ?
                   ? ? ? ? ? ? ? ? ? ? ? ? ? ? ? ? ? ? ? ? ?].
  unfold sortedChildren, properties. simpl. apply Forall_app. split.
  - destruct props as [om|]; [|constructor].
    revert om. fix IHom 1. intros [|[k c] om]; simpl; constructor;
      [apply IH|apply IHom].
  - destruct items as [c|]; simpl; repeat constructor. apply IH.
Qed.

Lemma sortSchemaSlices_idempotent :
  forall s, sortSchemaSlices (sortSchemaSlices s) = sortSchemaSlices s.
Proof.
  induction s as [s IH] using Schema_sorted_ind.
  unfold sortedChildren, properties in IH. apply Forall_app in IH as [Hprops Hitems].
  assert (HI : option_map sortSchemaSlices (option_map sortSchemaSlices (Items s))
               = option_map sortSchemaSlices (Items s)).
  { destruct (Items s) as [c|]; simpl in *; [|reflexivity].
    inversion Hitems; subst. now f_equal. }
  assert (HP : option_map (map sortValue) (option_map (map sortValue) (Properties s))
               = option_map (map sortValue) (Properties s)).
  { destruct (Properties s) as [om|]; simpl in *; [|reflexivity]. f_equal.
    induction om as [|[k c] om IHom]; simpl in *; [reflexivity|].
    inversion Hprops; subst. f_equal.
    - unfold sortValue. simpl. now f_equal.
    - now apply IHom. }
  rewrite (sortSchemaSlices_eq (sortSchemaSlices s)).
  rewrite (sortSchemaSlices_eq s). simpl.
  rewrite Sort_Sort, HI, HP. reflexivity.
Qed.

(** The nodes of a sorted schema are sorted nodes of the schema. *)
Lemma reach_sortSchemaSlices s n :
  reach sortedChildren (sortSchemaSlices s) n ->
  exists n0, reach sortedChildren s n0 /\ n = sortSchemaSlices n0.
Proof.
  intros H. remember (sortSchemaSlices s) as s' eqn:Hs'. revert s Hs'.
  induction H as [s'|s' c n Hc Hn IH]; intros s ->.
  - exists s. split; [constructor|reflexivity].
  - rewrite sortedChildren_sortSchemaSlices in Hc.
    apply in_map_iff in Hc as [c0 [<- Hc0]].
    destruct (IH c0 eq_refl) as [n0 [Hn0 ->]].
    exists n0. split; [now apply reach_step with c0|reflexivity].
Qed.

(** C9.  [ConvertSchema] sorts the node in place, then goes through JSON.
    A second call on the node as the first call left it returns what the
    first returned and leaves the node as it is; sorting a sorted schema
    changes nothing; and at every node of the sorted schema that is reached
    through [Properties] and [Items], [Required] is in ascending order, so
    that sorting it again, or the whole node, is a no-op. *)
Theorem C9_canonicalization_is_idempotent
    (jsonError : Type) (Marshal : Schema -> list ascii + jsonError)
    (Unmarshal : list ascii -> any + jsonError) (s : Schema) :
  ConvertSchema jsonError Marshal Unmarshal
    (fst (ConvertSchema jsonError Marshal Unmarshal s))
  = ConvertSchema jsonError Marshal Unmarshal s
  /\ sortSchemaSlices (sortSchemaSlices s) = sortSchemaSlices s
  /\ forall n,
       reach sortedChildren (fst (ConvertSchema jsonError Marshal Unmarshal s)) n ->
       slices.Sort (Required n) = Required n
       /\ ascending (elems (Required n))
       /\ sortSchemaSlices n = n.
Proof.
  split; [|split].
  - unfold ConvertSchema. simpl. now rewrite sortSchemaSlices_idempotent.
  - apply sortSchemaSlices_idempotent.
  - simpl. intros n Hn.
    apply reach_sortSchemaSlices in Hn as [n0 [_ ->]].
    split; [|split].
    + rewrite (sortSchemaSlices_eq n0). simpl. apply Sort_Sort.
    + rewrite (sortSchemaSlices_eq n0). simpl.
      destruct (Required n0) as [l|]; simpl; [apply sorted_ascending|constructor].
    + apply sortSchemaSlices_idempotent.
Qed.

Example sortSchemaSlices_ex :
  Required (sortSchemaSlices (set_Required (Some ["name"; "age"; "city"]) zero))
  = Some ["age"; "city"; "name"].
Proof. reflexivity. Qed.

(** ** [parsePico] does not panic *)

Lemma picoProperty_no_crash k property ret msg :
  Properties ret <> None -> picoProperty k property ret <> Crash msg.
Proof.
  intros Hprops.
  assert (Hset : forall name node, setProperty name node ret <> Crash msg).
  { intros name node. unfold setProperty.
    destruct (Properties ret); [discriminate|contradiction]. }
  unfold picoProperty. destruct (keyFound k); simpl; [|apply Hset].
  destruct (keyModifier k) as [[typ desc] found].
  destruct (typ =? "array"); [apply Hset|].
  destruct (typ =? "object"); [apply Hset|].
  destruct (typ =? "enum").
  - destruct (Enum property); [apply Hset|discriminate].
  - destruct (typ =? "*"); discriminate.
Qed.

Lemma picoLoop_no_panic es :
  Forall (fun kv => forall msg, parsePico (snd kv) <> Panic msg) es ->
  forall ret msg,
    Properties ret <> None -> rangeLoop picoBody es ret <> Panic msg.
Proof.
  induction 1 as [|[k v] es Hv Hes IH]; simpl; intros ret msg Hprops.
  - discriminate.
  - destruct (picoBody k v ret) as [ret'|e|msg'] eqn:Hbody.
    + apply IH.
      apply picoBody_next in Hbody as [property [_ Hbody]].
      apply picoProperty_next in Hbody
        as [[_ ->]|[_ [om [node [_ [_ ->]]]]]]; simpl; [|discriminate].
      rewrite picoRequire_spec. now destruct (requiresName k).
    + discriminate.
    + exfalso. unfold picoBody, picoEntry in Hbody. simpl in Hv.
      destruct (parsePico v) as [[property|] [err|]|msg0] eqn:Hparse;
        try discriminate Hbody.
      * apply picoProperty_no_crash in Hbody; [exact Hbody|].
        rewrite picoRequire_spec. now destruct (requiresName k).
      * apply parsePico_returns in Hparse
          as [[r [Hr _]]|[_ [e [=]]]]. discriminate Hr.
      * exact (Hv msg0 eq_refl).
Qed.

Lemma parsePico_no_panic : forall val msg, parsePico val <> Panic msg.
Proof.
  induction val as [val Hleaf|es IH] using any_values_ind; intros msg.
  - now apply parsePico_no_panic_at_top.
  - rewrite parsePico_Map. apply picoLoop_no_panic; [exact IH|discriminate].
Qed.

(** On an input that the shape test leaves to the shorthand grammar, the
    top-level translation returns, and returns a schema or an error and not
    both. *)
Lemma ToJSONSchema_shorthand_returns val :
  isStructural val = false -> val <> Nil ->
  exists s err, ToJSONSchema val = Return s err /\ (s <> None <-> err = None).
Proof.
  intros Hshape Hnil.
  destruct (ToJSONSchema val) as [s err|msg] eqn:H.
  - exists s, err. split; [reflexivity|]. now apply (ToJSONSchema_returns val).
  - rewrite (ToJSONSchema_shorthand val Hshape Hnil) in H.
    now apply parsePico_no_panic in H.
Qed.

(** ** The examples of the specification *)

Example enumeration_ex :
  ToJSONSchema (Slice (Some [Str "a"; Str "b"; Str "c"]))
  = Return (Some (set_Enum (Some [Str "a"; Str "b"; Str "c"]) zero)) None.
Proof. reflexivity. Qed.

Example array_modifier_ex :
  exists s,
    ToJSONSchema (Map (GoMap [("tags(array, list of tags)", Str "string")]))
    = Return (Some s) None
    /\ properties s
       = [("tags", set_Description "list of tags" (arrayOf (set_Type_ "string" zero)))]
    /\ Required s = Some ["tags"]
    /\ AdditionalProperties s = Some FalseSchema.
Proof. eexists. split; [reflexivity|]. repeat split. Qed.

Example nil_ex : ToJSONSchema Nil = Return None None.
Proof. reflexivity. Qed.

Example unrecognized_field_ex :
  ToJSONSchema (Map (GoMap [("type", Str "object"); ("colour", Str "red")]))
  = Return None (Some (errUnrecognizedField "colour")).
Proof. reflexivity. Qed.

Example structural_route_ex :
  exists s,
    ToJSONSchema
      (Map (GoMap [("type", Str "object");
                   ("properties", Map (GoMap [("a", Map (GoMap [("type", Str "string")]))]))]))
    = Return (Some s) None
    /\ properties s = [("a", set_Type_ "string" zero)]
    /\ AdditionalProperties s = None.
Proof. eexists. split; [reflexivity|]. split; reflexivity. Qed.

(** * Further properties of the code *)

(** ** What the top-level translation returns *)

(** Neither a schema nor an error comes back for the nil input, and for no
    other: a call that returns [(nil, nil)] was given nil. *)
Theorem ToJSONSchema_nil_iff val :
  ToJSONSchema val = Return None None <-> val = Nil.
Proof.
  split.
  - intros H. destruct val; try reflexivity;
      match type of H with
      | ToJSONSchema ?v = _ =>
          assert (Hnil : v <> Nil) by discriminate;
          destruct (ToJSONSchema_returns v None None Hnil H) as [_ Hone];
          now contradiction (Hone eq_refl)
      end.
  - now intros ->.
Qed.

(** [parsePico] returns on every value, however deep, and returns a schema
    or an error, never both, never neither; it does not panic. *)
Theorem parsePico_total val :
  (exists s, parsePico val = Return (Some s) None)
  \/ (exists err, parsePico val = Return None (Some err)).
Proof.
  destruct (parsePico val) as [s err|msg] eqn:H.
  - destruct (parsePico_returns val s err H) as [[r [-> ->]]|[-> [e ->]]]; eauto.
  - now apply parsePico_no_panic in H.
Qed.

(** ** The inputs that the shorthand grammar accepts *)

Lemma parsePico_Enum v child :
  parsePico v = Return (Some child) None ->
  match Enum child with Some _ => true | None => false end
  = match v with Slice (Some _) => true | _ => false end.
Proof.
  destruct v as [| | | | |str|l|[es]| |]; simpl; intros H; try discriminate.
  - apply parseScalar_node in H as [_ [-> _]]. reflexivity.
  - inversion H. simpl. now destruct l.
  - apply picoLoop_frame in H as [_ [-> _]]. reflexivity.
Qed.

Lemma keyAccepts_entryAccepts k v child :
  parsePico v = Return (Some child) None ->
  keyAccepts k child = entryAccepts k v.
Proof.
  intros H. unfold keyAccepts, entryAccepts. now rewrite (parsePico_Enum v child H).
Qed.

(** A turn of the loop goes on exactly when the switch accepts the key. *)
Lemma picoProperty_accepts k property ret :
  Properties ret <> None ->
  (exists ret', picoProperty k property ret = Next ret') <-> keyAccepts k property = true.
Proof.
  intros Hprops.
  assert (Hset : forall name node, exists ret', setProperty name node ret = Next ret').
  { intros name node. unfold setProperty.
    destruct (Properties ret); [eauto|contradiction]. }
  unfold picoProperty, keyAccepts, modifier.
  destruct (keyFound k); simpl; [|split; auto].
  destruct (keyModifier k) as [[typ desc] found]; simpl.
  destruct (typ =? "array") eqn:Harray; simpl; [split; auto|].
  destruct (typ =? "object") eqn:Hobject; simpl; [split; auto|].
  destruct (typ =? "enum") eqn:Henum; simpl.
  - apply String.eqb_eq in Henum. subst typ. simpl.
    destruct (Enum property); [split; auto|].
    split; [intros [ret' H]; discriminate H|discriminate].
  - destruct (typ =? "*"); simpl.
    + split; eauto.
    + split; [intros [ret' H]; discriminate H|discriminate].
Qed.

Lemma picoBody_Properties k v ret ret' :
  Properties ret <> None -> picoBody k v ret = Next ret' -> Properties ret' <> None.
Proof.
  intros Hprops Hbody.
  apply picoBody_next in Hbody as [property [_ Hbody]].
  apply picoProperty_next in Hbody
    as [[_ ->]|[_ [om [node [_ [_ ->]]]]]]; simpl; [|discriminate].
  rewrite picoRequire_spec. now destruct (requiresName k).
Qed.

Lemma picoRequire_Properties k ret : Properties (picoRequire k ret) = Properties ret.
Proof. rewrite picoRequire_spec. now destruct (requiresName k). Qed.

Lemma picoBody_accepts k v ret :
  Properties ret <> None ->
  (exists ret', picoBody k v ret = Next ret')
  <-> exists child, parsePico v = Return (Some child) None /\ entryAccepts k v = true.
Proof.
  intros Hprops. split.
  - intros [ret' H]. apply picoBody_next in H as [child [Hparse H]].
    exists child. split; [exact Hparse|].
    rewrite <- (keyAccepts_entryAccepts k v child Hparse).
    apply (picoProperty_accepts k child (picoRequire k ret)).
    + now rewrite picoRequire_Properties.
    + eauto.
  - intros [child [Hparse Hkey]].
    rewrite <- (keyAccepts_entryAccepts k v child Hparse) in Hkey.
    unfold picoBody, picoEntry. rewrite Hparse.
    apply picoProperty_accepts; [now rewrite picoRequire_Properties|exact Hkey].
Qed.

Lemma picoLoop_accepts es :
  Forall (fun kv => (exists s, parsePico (snd kv) = Return (Some s) None)
                    <-> accepts (snd kv) = true) es ->
  forall ret,
    Properties ret <> None ->
    ((exists s, rangeLoop picoBody es ret = Return (Some s) None)
     <-> forallb (fun kv => accepts (snd kv) && entryAccepts (fst kv) (snd kv)) es = true).
Proof.
  induction 1 as [|[k v] es Hv Hes IH]; simpl; intros ret Hprops.
  - split; eauto.
  - simpl in Hv. rewrite !andb_true_iff.
    destruct (picoBody k v ret) as [ret'|e|msg] eqn:Hbody.
    + rewrite (IH ret' (picoBody_Properties k v ret ret' Hprops Hbody)).
      assert (Hok : exists child, parsePico v = Return (Some child) None
                                  /\ entryAccepts k v = true)
        by (apply (picoBody_accepts k v ret Hprops); eauto).
      destruct Hok as [child [Hparse Hkey]].
      assert (Hacc : accepts v = true) by (apply Hv; eauto).
      tauto.
    + split; [intros [s H]; discriminate H|].
      intros [[Hacc Hkey] _]. apply Hv in Hacc as [child Hparse].
      assert (Hnext : exists ret', picoBody k v ret = Next ret')
        by (apply (picoBody_accepts k v ret Hprops); eauto).
      destruct Hnext as [ret' Hnext]. congruence.
    + split; [intros [s H]; discriminate H|].
      intros [[Hacc Hkey] _]. apply Hv in Hacc as [child Hparse].
      assert (Hnext : exists ret', picoBody k v ret = Next ret')
        by (apply (picoBody_accepts k v ret Hprops); eauto).
      destruct Hnext as [ret' Hnext]. congruence.
Qed.

Lemma accepts_iff val :
  (exists s, parsePico val = Return (Some s) None) <-> accepts val = true.
Proof.
  induction val as [val Hleaf|es IH] using any_values_ind.
  - destruct val as [| | | | |str|l|[es]| |]; simpl;
      try (split; [intros [s H]; discriminate H|discriminate]).
    + unfold parseScalar. destruct (strings.Cut str ",") as [[typ desc] found]. simpl.
      destruct (isScalarType typ); split; eauto; try discriminate.
      intros [s H]. discriminate H.
    + split; eauto.
    + now contradiction (Hleaf es).
  - rewrite parsePico_Map. simpl.
    apply picoLoop_accepts; [exact IH|discriminate].
Qed.

(** [parsePico] translates a value to a schema exactly when every string
    in it names a scalar type before its first comma, every mapping key has
    no parenthetical or one of the modifiers [array], [object], [enum] and
    [*], every value under [enum] is a non-nil sequence, and nothing but
    strings, sequences and mappings stands where a value is parsed.  Any
    other value is an error, not a panic.  Whether a translation succeeds
    does not depend on the order of the [range]. *)
Theorem parsePico_accepts val :
  ((exists s, parsePico val = Return (Some s) None) <-> accepts val = true)
  /\ ((exists err, parsePico val = Return None (Some err)) <-> accepts val = false).
Proof.
  split; [apply accepts_iff|]. split.
  - intros [err H]. destruct (accepts val) eqn:Hacc; [|reflexivity].
    apply accepts_iff in Hacc as [s Hs]. congruence.
  - intros Hacc. destruct (parsePico val) as [s err|msg] eqn:H.
    + destruct (parsePico_returns val s err H) as [[r [-> ->]]|[-> [e ->]]]; eauto.
      assert (Htrue : accepts val = true) by (apply accepts_iff; eauto). congruence.
    + now apply parsePico_no_panic in H.
Qed.

(** ** The object node of a mapping *)

Lemma picoLoop_no_wildcard es :
  (forall k v, In (k, v) es -> isWildcard k = false) ->
  forall ret s,
    rangeLoop picoBody es ret = Return (Some s) None ->
    AdditionalProperties s = AdditionalProperties ret.
Proof.
  induction es as [|[k v] es IH]; simpl; intros Hwild ret s H.
  - now inversion H.
  - destruct (picoBody k v ret) as [ret'|e|msg] eqn:Hbody; try discriminate.
    rewrite (IH (fun k' v' Hin => Hwild k' v' (or_intror Hin)) _ _ H).
    apply picoBody_next in Hbody as [property [_ Hbody]].
    apply picoProperty_next in Hbody
      as [[Hw _]|[_ [om [node [_ [_ ->]]]]]].
    + rewrite (Hwild k v (or_introl eq_refl)) in Hw. discriminate Hw.
    + simpl. rewrite picoRequire_spec. now destruct (requiresName k).
Qed.

(** [AdditionalProperties] after the loop: what it was before, or the node
    parsed from the value of a key with the modifier [*]. *)
Lemma picoLoop_AdditionalProperties_source es :
  forall ret s,
    rangeLoop picoBody es ret = Return (Some s) None ->
    AdditionalProperties s = AdditionalProperties ret
    \/ exists k v child,
         In (k, v) es /\ isWildcard k = true
         /\ parsePico v = Return (Some child) None
         /\ AdditionalProperties s = Some child.
Proof.
  induction es as [|[k v] es IH]; simpl; intros ret s H.
  - inversion H. now left.
  - destruct (picoBody k v ret) as [ret'|e|msg] eqn:Hbody; try discriminate.
    destruct (IH _ _ H) as [Hsame|[k' [v' [child [Hin Hrest]]]]].
    + rewrite Hsame.
      apply picoBody_next in Hbody as [property [Hparse Hbody]].
      apply picoProperty_next in Hbody
        as [[Hw ->]|[_ [om [node [_ [_ ->]]]]]].
      * right. exists k, v, property. simpl. auto.
      * left. simpl. rewrite picoRequire_spec. now destruct (requiresName k).
    + right. exists k', v', child. auto.
Qed.

(** The key of modifier [*] that the [range] visits last decides
    [AdditionalProperties]. *)
Lemma picoLoop_wildcard_last pre k v post s :
  rangeLoop picoBody (pre ++ (k, v) :: post) newObject = Return (Some s) None ->
  isWildcard k = true ->
  (forall k' v', In (k', v') post -> isWildcard k' = false) ->
  exists child,
    parsePico v = Return (Some child) None /\ AdditionalProperties s = Some child.
Proof.
  rewrite rangeLoop_app. intros H Hwild Hpost.
  destruct (rangeLoop picoBody pre newObject) as [[ret|] [err|]|msg];
    try discriminate.
  simpl in H.
  destruct (picoBody k v ret) as [ret'|e|msg] eqn:Hbody; try discriminate.
  apply picoBody_next in Hbody as [child [Hparse Hbody]].
  exists child. split; [exact Hparse|].
  rewrite (picoLoop_no_wildcard post Hpost _ _ H).
  apply picoProperty_next in Hbody as [[_ ->]|[Hw _]]; [reflexivity|congruence].
Qed.

(** The node of a mapping has the type [object], a non-nil [Properties], no
    [Enum] and no [Items]; its [AdditionalProperties] is never nil: it is
    [FalseSchema] when no key has the modifier [*]; when a key has it, it
    is the node parsed from the value of that key, of the one the [range]
    visits last when there are several; and whenever it is not
    [FalseSchema] it is the node parsed from the value of such a key. *)
Theorem parsePico_object_node es s :
  parsePico (Map (GoMap es)) = Return (Some s) None ->
  Type_ s = "object" /\ Properties s <> None /\ Enum s = None /\ Items s = None
  /\ AdditionalProperties s <> None
  /\ ((forall k v, In (k, v) es -> isWildcard k = false) ->
      AdditionalProperties s = Some FalseSchema)
  /\ (forall pre k v post,
        es = pre ++ (k, v) :: post -> isWildcard k = true ->
        (forall k' v', In (k', v') post -> isWildcard k' = false) ->
        exists child,
          parsePico v = Return (Some child) None
          /\ AdditionalProperties s = Some child)
  /\ (AdditionalProperties s <> Some FalseSchema ->
      exists k v child,
        In (k, v) es /\ isWildcard k = true
        /\ parsePico v = Return (Some child) None
        /\ AdditionalProperties s = Some child).
Proof.
  rewrite parsePico_Map. intros H.
  destruct (picoLoop_frame _ _ _ H) as [Htype [Henum [Hitems _]]].
  destruct (picoLoop_Properties _ _ _ H) as [Hprops _].
  pose proof (picoLoop_AdditionalProperties_source _ _ _ H) as HAP.
  split; [exact Htype|]. split; [apply Hprops; discriminate|].
  split; [exact Henum|]. split; [exact Hitems|].
  split; [|split; [|split]].
  - destruct HAP as [->|[k [v [child [_ [_ [_ ->]]]]]]]; discriminate.
  - intros Hwild. now rewrite (picoLoop_no_wildcard es Hwild _ _ H).
  - intros pre k v post Hes Hwild Hpost. subst es.
    exact (picoLoop_wildcard_last pre k v post s H Hwild Hpost).
  - intros Hne. destruct HAP as [Hsame|Hsrc]; [contradiction|exact Hsrc].
Qed.

Lemma parsePico_object_node_witness :
  exists s,
    parsePico (Map (GoMap [("(*)", Str "string"); ("name", Str "string")]))
    = Return (Some s) None
    /\ Type_ s = "object"
    /\ AdditionalProperties s = Some (set_Type_ "string" zero).
Proof.
  eexists. split; [reflexivity|].
  destruct (parsePico_object_node
              [("(*)", Str "string"); ("name", Str "string")] _ eq_refl)
    as [Htype [_ [_ [_ [_ [_ [Hlast _]]]]]]].
  split; [exact Htype|].
  destruct (Hlast [] "(*)" (Str "string") [("name", Str "string")] eq_refl eq_refl)
    as [child [Hparse HAP]].
  - intros k' v' [Hin|[]]. now inversion Hin.
  - rewrite HAP. f_equal. inversion Hparse. reflexivity.
Defined.

(** ** The names of Required *)

(** [Cut] at a one-byte separator: the part before has no separator, and
    the string is put together again from the parts. *)
Lemma Cut_spec (c : ascii) (s : string) :
  hasByte c (fst (fst (strings.Cut s (String c EmptyString)))) = false
  /\ (snd (strings.Cut s (String c EmptyString)) = true ->
      s = (fst (fst (strings.Cut s (String c EmptyString)))
           ++ String c (snd (fst (strings.Cut s (String c EmptyString)))))%string)
  /\ (snd (strings.Cut s (String c EmptyString)) = false ->
      fst (fst (strings.Cut s (String c EmptyString))) = s).
Proof.
  induction s as [|b s IH]; simpl.
  - repeat split. discriminate.
  - destruct (Ascii.eqb c b) eqn:E; simpl.
    + apply Ascii.eqb_eq in E. subst b. repeat split. discriminate.
    + destruct (strings.Cut s (String c EmptyString)) as [[before after] found].
      simpl in *. destruct IH as [H1 [H2 H3]]. rewrite E. simpl.
      repeat split; [exact H1|intros Hf; now rewrite <- (H2 Hf)|intros Hf; now rewrite (H3 Hf)].
Qed.

Lemma CutSuffix_absent (s suffix : string) :
  snd (strings.CutSuffix s suffix) = false ->
  fst (strings.CutSuffix s suffix) = s /\ forall p, s <> (p ++ suffix)%string.
Proof.
  intros H. split.
  - induction s as [|c s IH].
    + simpl. now destruct suffix.
    + unfold strings.CutSuffix in *. fold strings.CutSuffix in *.
      destruct (String c s =? suffix)%string; [discriminate H|].
      destruct (strings.CutSuffix s suffix) as [r found]. simpl in *.
      now rewrite (IH H).
  - intros p ->. rewrite CutSuffix_app in H. discriminate H.
Qed.

Lemma requiresName_spec k :
  requiresName k = true ->
  propertyName k = keyName k /\ keyName k <> EmptyString
  /\ forall p, keyName k <> (p ++ "?")%string.
Proof.
  unfold requiresName, propertyName, isOptional. intros H.
  apply andb_true_iff in H as [Hname Hopt].
  apply negb_true_iff in Hname, Hopt. apply String.eqb_neq in Hname.
  destruct (CutSuffix_absent (keyName k) "?" Hopt) as [Hfst Hsuffix]. auto.
Qed.

(** Every name of [Required] is not empty, has no ["("] in it and does not
    end in ["?"]; it is the whole of a key of the mapping, or what stands
    before the first ["("] of one. *)
Theorem Required_names es s :
  parsePico (Map (GoMap es)) = Return (Some s) None ->
  forall name, In name (elems (Required s)) ->
    name <> EmptyString /\ hasByte "(" name = false
    /\ (forall p, name <> (p ++ "?")%string)
    /\ exists k v, In (k, v) es
                   /\ (k = name \/ exists rest, k = (name ++ "(" ++ rest)%string).
Proof.
  rewrite parsePico_Map. intros H name Hin.
  apply picoLoop_Required in H. simpl in H. rewrite H in Hin.
  apply In_requiredNames in Hin as [k [Hk [Hreq Hname]]].
  apply in_map_iff in Hk as [[k' v] [Hfst Hk]]. simpl in Hfst. subst k'.
  destruct (requiresName_spec k Hreq) as [Hprop [Hne Hsuffix]].
  rewrite Hprop in Hname. subst name.
  destruct (Cut_spec "(" k) as [Hno [Hfound Habsent]].
  repeat split; try assumption.
  exists k, v. split; [exact Hk|].
  unfold keyName.
  destruct (snd (strings.Cut k "(")) eqn:Hf.
  - right. eexists. exact (Hfound eq_refl).
  - left. symmetry. exact (Habsent eq_refl).
Qed.

Lemma Required_names_witness :
  exists s,
    parsePico (Map (GoMap [("tags(array)", Str "string"); ("age?", Str "integer")]))
    = Return (Some s) None
    /\ Required s = Some ["tags"]
    /\ "tags" <> EmptyString /\ hasByte "(" "tags" = false.
Proof.
  eexists. split; [reflexivity|]. split; [reflexivity|].
  destruct (Required_names [("tags(array)", Str "string"); ("age?", Str "integer")] _
              eq_refl "tags" (or_introl eq_refl)) as [H1 [H2 _]].
  split; assumption.
Defined.

(** ** Looking up what the loop stored *)

Lemma picoProperty_stores k property ret ret' :
  isWildcard k = false ->
  picoProperty k property ret = Next ret' ->
  exists om,
    Properties ret = Some om
    /\ ret' = set_Properties
                (Some (orderedmap.Set_ (propertyName k) (entryNode k property) om)) ret.
Proof.
  unfold picoProperty, entryNode, isWildcard, modifier, describeKey.
  destruct (keyFound k); simpl; [|intros _; apply setProperty_next].
  destruct (keyModifier k) as [[typ desc] found]; simpl.
  intros Hstar.
  destruct (typ =? "array") eqn:Harray; [apply setProperty_next|].
  destruct (typ =? "object") eqn:Hobject.
  { apply String.eqb_eq in Hobject. subst typ. apply setProperty_next. }
  destruct (typ =? "enum") eqn:Henum.
  { destruct (Enum property); [apply setProperty_next|discriminate]. }
  rewrite Hstar. discriminate.
Qed.

Lemma picoLoop_get_absent name es :
  (forall k v, In (k, v) es -> isWildcard k = true \/ propertyName k <> name) ->
  forall ret s,
    rangeLoop picoBody es ret = Return (Some s) None ->
    get name (properties s) = get name (properties ret).
Proof.
  induction es as [|[k v] es IH]; simpl; intros Hnames ret s H.
  - now inversion H.
  - destruct (picoBody k v ret) as [ret'|e|msg] eqn:Hbody; try discriminate.
    rewrite (IH (fun k' v' Hin => Hnames k' v' (or_intror Hin)) _ _ H).
    apply picoBody_next in Hbody as [property [_ Hbody]].
    assert (Hret : properties (picoRequire k ret) = properties ret)
      by (unfold properties; now rewrite picoRequire_Properties).
    apply picoProperty_next in Hbody
      as [[_ ->]|[Hwild [om [node [Hom [_ ->]]]]]].
    + now rewrite <- Hret.
    + destruct (Hnames k v (or_introl eq_refl)) as [Hw|Hne]; [congruence|].
      unfold properties at 1. simpl. rewrite (get_Set_other _ _ _ _ Hne).
      rewrite <- Hret. unfold properties. now rewrite Hom.
Qed.

Lemma picoLoop_lookup pre k v post s :
  rangeLoop picoBody (pre ++ (k, v) :: post) newObject = Return (Some s) None ->
  isWildcard k = false ->
  (forall k' v', In (k', v') post ->
                 isWildcard k' = true \/ propertyName k' <> propertyName k) ->
  exists child,
    parsePico v = Return (Some child) None
    /\ get (propertyName k) (properties s) = Some (entryNode k child).
Proof.
  rewrite rangeLoop_app. intros H Hwild Hpost.
  destruct (rangeLoop picoBody pre newObject) as [[ret|] [err|]|msg];
    try discriminate.
  simpl in H.
  destruct (picoBody k v ret) as [ret'|e|msg] eqn:Hbody; try discriminate.
  apply picoBody_next in Hbody as [child [Hparse Hbody]].
  apply (picoProperty_stores k child _ _ Hwild) in Hbody as [om [Hom ->]].
  exists child. split; [exact Hparse|].
  rewrite (picoLoop_get_absent (propertyName k) post Hpost _ _ H).
  unfold properties. simpl. apply get_Set_same.
Qed.

(** Insert, then look up.  An entry whose key has no modifier [*] stores a
    node under its property name, and the object node that results binds the
    name to that node unless a key that the [range] visits later stores
    under the same name (the later one then replaces it).  The node is the
    parsed value itself for a key without parenthetical; for [array] it has
    the type [array] and the parsed value as [Items]; and a description in
    the parenthetical is the description of the node, whatever description
    the parsed value had. *)
Theorem property_lookup pre k v post s :
  parsePico (Map (GoMap (pre ++ (k, v) :: post))) = Return (Some s) None ->
  isWildcard k = false ->
  (forall k' v', In (k', v') post ->
                 isWildcard k' = true \/ propertyName k' <> propertyName k) ->
  exists child,
    parsePico v = Return (Some child) None
    /\ get (propertyName k) (properties s) = Some (entryNode k child)
    /\ (keyFound k = false -> entryNode k child = child)
    /\ (keyFound k = true -> modifier k = "array" ->
        Type_ (entryNode k child) = "array" /\ Items (entryNode k child) = Some child)
    /\ (forall typ desc, keyFound k = true -> keyModifier k = (typ, desc, true) ->
        Description (entryNode k child) = strings.TrimSpace desc).
Proof.
  rewrite parsePico_Map. intros H Hwild Hpost.
  destruct (picoLoop_lookup pre k v post s H Hwild Hpost) as [child [Hparse Hget]].
  exists child. split; [exact Hparse|]. split; [exact Hget|]. split; [|split].
  - intros Hf. unfold entryNode. now rewrite Hf.
  - intros Hf Hm. unfold entryNode, describeKey. rewrite Hf, Hm. simpl.
    destruct (keyModifier k) as [[typ desc] found]. now destruct found.
  - intros typ desc Hf Hm. unfold entryNode, describeKey, modifier.
    rewrite Hf, Hm. simpl.
    destruct (typ =? "array"); [reflexivity|].
    destruct (typ =? "enum"); reflexivity.
Qed.

Lemma property_lookup_witness :
  exists s,
    parsePico (Map (GoMap [("tags(array, list of tags)", Str "string"); ("n", Str "number")]))
    = Return (Some s) None
    /\ get "tags" (properties s)
       = Some (set_Description "list of tags" (arrayOf (set_Type_ "string" zero))).
Proof.
  eexists. split; [reflexivity|].
  destruct (property_lookup [] "tags(array, list of tags)" (Str "string")
              [("n", Str "number")] _ eq_refl eq_refl) as [child [Hparse [Hget _]]].
  - intros k' v' [H|[]]. inversion H. right. discriminate.
  - inversion Hparse. subst child. exact Hget.
Defined.

(** ** The order of the range does not matter to what is translated *)

Lemma leb_spec (a b : string) :
  (a <=? b)%string = true <-> a = b \/ String_as_OT.lt a b.
Proof.
  unfold String.leb.
  pose proof (String_as_OT.cmp_eq a b) as Heq.
  pose proof (String_as_OT.cmp_lt a b) as Hlt.
  unfold String_as_OT.cmp in *.
  destruct (a ?= b)%string; split; intros H; try reflexivity.
  - left. now apply Heq.
  - right. now apply Hlt.
  - discriminate H.
  - destruct H as [H|H]; [apply Heq in H|apply Hlt in H]; discriminate H.
Qed.

Lemma leb_trans (a b c : string) :
  (a <=? b)%string = true -> (b <=? c)%string = true -> (a <=? c)%string = true.
Proof.
  rewrite !leb_spec. intros [->|Hab] [->|Hbc]; auto.
  right. now apply String_as_OT.lt_trans with b.
Qed.

(** There is one ascending arrangement of given strings: what [slices.Sort]
    returns does not depend on the order it was given. *)
Lemma ascending_unique l :
  forall l', ascending l -> ascending l' -> Permutation l l' -> l = l'.
Proof.
  unfold ascending. induction l as [|x l IH]; intros l' Hl Hl' Hperm.
  - apply Permutation_nil in Hperm. now subst.
  - destruct l' as [|y l'].
    + apply Permutation_sym, Permutation_nil in Hperm. discriminate Hperm.
    + apply Sorted_StronglySorted in Hl; [|intros a b c; apply leb_trans].
      apply Sorted_StronglySorted in Hl'; [|intros a b c; apply leb_trans].
      inversion Hl as [|? ? Hsl Hxl]; subst. inversion Hl' as [|? ? Hsl' Hyl']; subst.
      rewrite Forall_forall in Hxl, Hyl'.
      assert (Hxy : x = y).
      { assert (Hx : In x (y :: l')) by (apply (Permutation_in _ Hperm); now left).
        assert (Hy : In y (x :: l))
          by (apply (Permutation_in _ (Permutation_sym Hperm)); now left).
        destruct Hx as [Hx|Hx]; [now subst|].
        destruct Hy as [Hy|Hy]; [now subst|].
        apply String.leb_antisym; auto. }
      subst y. f_equal.
      apply IH; try (now apply StronglySorted_Sorted).
      now apply Permutation_cons_inv with x.
Qed.

Lemma sorted_Permutation_eq l l' :
  Permutation l l' -> slices.sorted l = slices.sorted l'.
Proof.
  intros Hperm. apply ascending_unique; try apply sorted_ascending.
  rewrite <- (sorted_Permutation l), <- (sorted_Permutation l'). exact Hperm.
Qed.

Lemma filter_Permutation {A : Type} (f : A -> bool) l l' :
  Permutation l l' -> Permutation (filter f l) (filter f l').
Proof.
  induction 1 as [|x l l' H IH|x y l|l l' l'' H1 IH1 H2 IH2]; simpl.
  - constructor.
  - destruct (f x); [now constructor|exact IH].
  - destruct (f x), (f y); try reflexivity. apply perm_swap.
  - now transitivity (filter f l').
Qed.

Lemma forallb_Permutation {A : Type} (f : A -> bool) l l' :
  Permutation l l' -> forallb f l = forallb f l'.
Proof.
  induction 1 as [|x l l' H IH|x y l|l l' l'' H1 IH1 H2 IH2]; simpl.
  - reflexivity.
  - now rewrite IH.
  - destruct (f x), (f y); reflexivity.
  - congruence.
Qed.

Lemma filter_nil {A : Type} (f : A -> bool) l :
  filter f l = [] -> forall x, In x l -> f x = false.
Proof.
  induction l as [|y l IH]; simpl; intros H x Hin; [contradiction|].
  destruct (f y) eqn:E; [discriminate H|].
  destruct Hin as [<-|Hin]; auto.
Qed.

Lemma In_storedNames name (es : list (string * any)) :
  In name (storedNames (map fst es)) <->
  exists k v, In (k, v) es /\ isWildcard k = false /\ propertyName k = name.
Proof.
  unfold storedNames. rewrite in_map_iff. split.
  - intros [k [Hname Hin]]. apply filter_In in Hin as [Hin Hw].
    apply in_map_iff in Hin as [[k' v] [Hfst Hin]]. simpl in Hfst. subst k'.
    apply negb_true_iff in Hw. eauto.
  - intros [k [v [Hin [Hw Hname]]]]. exists k. split; [exact Hname|].
    apply filter_In. split.
    + apply in_map_iff. now exists (k, v).
    + now rewrite Hw.
Qed.

Lemma storedNames_split pre k (v : any) post :
  isWildcard k = false ->
  storedNames (map fst (pre ++ (k, v) :: post))
  = storedNames (map fst pre) ++ propertyName k :: storedNames (map fst post).
Proof.
  intros Hw. unfold storedNames. rewrite map_app, filter_app, map_app. simpl.
  now rewrite Hw.
Qed.

(** With distinct names, what [Properties] binds to a name is decided by
    the entries, not by their order. *)
Lemma picoLoop_get_determined es s :
  rangeLoop picoBody es newObject = Return (Some s) None ->
  NoDup (storedNames (map fst es)) ->
  forall name,
    (forall k v, In (k, v) es -> isWildcard k = false -> propertyName k = name ->
                 exists child, parsePico v = Return (Some child) None
                               /\ get name (properties s) = Some (entryNode k child))
    /\ (~ In name (storedNames (map fst es)) -> get name (properties s) = None).
Proof.
  intros H Hnd name. split.
  - intros k v Hin Hw Hname.
    apply in_split in Hin as [pre [post ->]].
    rewrite (storedNames_split pre k v post Hw) in Hnd.
    apply NoDup_remove_2 in Hnd.
    subst name. apply (picoLoop_lookup pre k v post s H Hw).
    intros k' v' Hin'. destruct (isWildcard k') eqn:Hw'; [now left|right].
    intros Hsame. apply Hnd, in_or_app. right.
    apply In_storedNames. eauto.
  - intros Hnot.
    rewrite (picoLoop_get_absent name es) with (ret := newObject) (s := s);
      [reflexivity| |exact H].
    intros k v Hin. destruct (isWildcard k) eqn:Hw; [now left|right].
    intros Hsame. apply Hnot, In_storedNames. eauto.
Qed.

(** With at most one key of modifier [*], [AdditionalProperties] is decided
    by the entries, not by their order. *)
Lemma picoLoop_AdditionalProperties_determined es s :
  rangeLoop picoBody es newObject = Return (Some s) None ->
  (List.length (filter isWildcard (map fst es)) <= 1)%nat ->
  (forall k v, In (k, v) es -> isWildcard k = true ->
               exists child, parsePico v = Return (Some child) None
                             /\ AdditionalProperties s = Some child)
  /\ ((forall k v, In (k, v) es -> isWildcard k = false) ->
      AdditionalProperties s = Some FalseSchema).
Proof.
  intros H Hone. split.
  - intros k v Hin Hw. apply in_split in Hin as [pre [post ->]].
    apply (picoLoop_wildcard_last pre k v post s H Hw).
    rewrite map_app, filter_app, length_app in Hone. simpl in Hone.
    rewrite Hw in Hone. simpl in Hone.
    assert (Hpost : filter isWildcard (map fst post) = [])
      by (apply length_zero_iff_nil; lia).
    intros k' v' Hin'. apply (filter_nil _ _ Hpost).
    apply in_map_iff. now exists (k', v').
  - intros Hnone. now rewrite (picoLoop_no_wildcard es Hnone _ _ H).
Qed.

Lemma distinct_NoDup l : distinct l = true -> NoDup l.
Proof.
  induction l as [|x l IH]; simpl; intros H; constructor.
  - apply andb_true_iff in H as [H _]. apply negb_true_iff in H.
    intros Hin. unfold mem in H.
    assert (Hex : existsb (String.eqb x) l = true).
    { apply existsb_exists. exists x. split; [exact Hin|apply String.eqb_refl]. }
    congruence.
  - apply andb_true_iff in H as [_ H]. now apply IH.
Qed.

Lemma reordered_keys es mid :
  Forall2 (fun e e' : string * any => fst e = fst e' /\ reordered (snd e) (snd e')) es mid ->
  map fst es = map fst mid.
Proof.
  induction 1 as [|e e' es mid [Hk _] _ IH]; simpl; [reflexivity|].
  now rewrite Hk, IH.
Qed.

Lemma reordered_entry es mid es' k v :
  Forall2 (fun e e' : string * any => fst e = fst e' /\ reordered (snd e) (snd e')) es mid ->
  Permutation mid es' ->
  In (k, v) es -> exists v', In (k, v') es' /\ reordered v v'.
Proof.
  intros HF Hperm Hin.
  assert (Hmid : exists v', In (k, v') mid /\ reordered v v').
  { clear Hperm. induction HF as [|[k1 v1] [k2 v2] es mid [Hk Hr] _ IH]; [contradiction|].
    simpl in Hk, Hr. subst k2.
    destruct Hin as [Heq|Hin].
    - inversion Heq; subst. exists v2. split; [now left|exact Hr].
    - destruct (IH Hin) as [v' [Hin' Hr']]. exists v'. split; [now right|exact Hr']. }
  destruct Hmid as [v' [Hin' Hr]]. exists v'. split; [|exact Hr].
  now apply (Permutation_in _ Hperm).
Qed.

(** A reordered value is accepted when the value is. *)
Lemma reordered_entryAccepts k v v' :
  reordered v v' -> entryAccepts k v' = entryAccepts k v.
Proof.
  intros H. inversion H; subst; reflexivity.
Qed.

Lemma reordered_accepts : forall v v', reordered v v' -> accepts v' = accepts v.
Proof.
  induction v as [v Hleaf|es IH] using any_values_ind; intros v' Hre.
  - inversion Hre; subst; [reflexivity|]. now contradiction (Hleaf es).
  - inversion Hre as [v0 Hmap|es0 mid es' HF Hperm]; subst; [discriminate Hmap|].
    simpl. rewrite <- (forallb_Permutation _ _ _ Hperm). clear Hperm Hre.
    induction HF as [|[k1 v1] [k2 v2] es mid [Hk Hr] HF IHF]; [reflexivity|].
    simpl in Hk, Hr. subst k2. inversion IH as [|? ? IH1 IHes]; subst.
    simpl in IH1. simpl.
    now rewrite (IH1 v2 Hr), (reordered_entryAccepts k1 v1 v2 Hr), (IHF IHes).
Qed.

(** The loop of the mapping case writes [Required], [Properties] and
    [AdditionalProperties], and no other field. *)
Lemma picoLoop_frame_all es :
  forall ret s,
    rangeLoop picoBody es ret = Return (Some s) None -> frame s = frame ret.
Proof.
  induction es as [|[k v] es IH]; simpl; intros ret s H.
  - now inversion H.
  - destruct (picoBody k v ret) as [ret'|e|msg] eqn:Hbody; try discriminate.
    rewrite (IH _ _ H).
    apply picoBody_next in Hbody as [property [_ Hbody]].
    apply picoProperty_next in Hbody as [[_ ->]|[_ [om [node [_ [_ ->]]]]]];
      rewrite picoRequire_spec; destruct (requiresName k); reflexivity.
Qed.

Lemma frame_Enum s s' : frame s = frame s' -> Enum s = Enum s'.
Proof. intros H. exact (f_equal Enum H). Qed.

(** A node without subschemas and without [Required] order to speak of. *)
Lemma sameUpToOrder_leaf s :
  Properties s = None -> Items s = None -> AdditionalProperties s = None ->
  sameUpToOrder s s.
Proof.
  intros Hp Hi Ha. constructor; try reflexivity.
  - unfold properties. rewrite Hp. intros name. constructor.
  - rewrite Hi. constructor.
  - rewrite Ha. constructor.
Qed.

Lemma sameUpToOrder_set_Description d s s' :
  sameUpToOrder s s' -> sameUpToOrder (set_Description d s) (set_Description d s').
Proof.
  intros H. inversion H as [? ? Hf Hr Hn Hk Hg Hi Ha]; subst.
  constructor; try assumption.
  change (set_Description d (frame s) = set_Description d (frame s')). now rewrite Hf.
Qed.

Lemma sameUpToOrder_set_Enum e s s' :
  sameUpToOrder s s' -> sameUpToOrder (set_Enum e s) (set_Enum e s').
Proof.
  intros H. inversion H as [? ? Hf Hr Hn Hk Hg Hi Ha]; subst.
  constructor; try assumption.
  change (set_Enum e (frame s) = set_Enum e (frame s')). now rewrite Hf.
Qed.

Lemma sameUpToOrder_describeKey k s s' :
  sameUpToOrder s s' -> sameUpToOrder (describeKey k s) (describeKey k s').
Proof.
  intros H. unfold describeKey. destruct (keyModifier k) as [[typ desc] found].
  destruct found; [now apply sameUpToOrder_set_Description|exact H].
Qed.

Lemma sameUpToOrder_arrayOf s s' :
  sameUpToOrder s s' -> sameUpToOrder (arrayOf s) (arrayOf s').
Proof.
  intros H. constructor; try reflexivity.
  - intros name. constructor.
  - simpl. now constructor.
  - simpl. constructor.
Qed.

Lemma sameUpToOrder_entryNode k s s' :
  sameUpToOrder s s' -> sameUpToOrder (entryNode k s) (entryNode k s').
Proof.
  intros H. unfold entryNode.
  destruct (negb (keyFound k)); [exact H|].
  destruct (modifier k =? "array");
    [now apply sameUpToOrder_describeKey, sameUpToOrder_arrayOf|].
  destruct (modifier k =? "enum"); [|now apply sameUpToOrder_describeKey].
  apply sameUpToOrder_describeKey.
  destruct (isOptional k); [|exact H].
  assert (He : Enum s = Enum s') by (inversion H; now apply frame_Enum).
  rewrite He. now apply sameUpToOrder_set_Enum.
Qed.

(** With distinct names and at most one wildcard at every depth, the
    schema is decided by the value up to order. *)
Lemma parsePico_reordered :
  forall v v' s,
    reordered v v' -> unambiguous v = true ->
    parsePico v = Return (Some s) None ->
    exists s', parsePico v' = Return (Some s') None /\ sameUpToOrder s s'.
Proof.
  induction v as [v Hleaf|es IH] using any_values_ind; intros v' s Hre Hun H.
  - inversion Hre; subst; [|now contradiction (Hleaf es)].
    exists s. split; [exact H|].
    destruct v' as [| | | | |str|l|[es]| |]; simpl in H; try discriminate H.
    + unfold parseScalar in H.
      destruct (strings.Cut str ",") as [[typ desc] found].
      destruct (isScalarType typ); [|discriminate H].
      inversion H. destruct found; now apply sameUpToOrder_leaf.
    + inversion H. now apply sameUpToOrder_leaf.
    + now contradiction (Hleaf es).
  - inversion Hre as [v0 Hmap|es0 mid es' HF Hperm]; subst; [discriminate Hmap|].
    simpl in Hun. apply andb_true_iff in Hun as [Hun Hdeep].
    apply andb_true_iff in Hun as [Hnd Hone].
    apply distinct_NoDup in Hnd. apply Nat.leb_le in Hone.
    rewrite forallb_forall in Hdeep. rewrite Forall_forall in IH.
    assert (Hkeys : Permutation (map fst es) (map fst es')).
    { rewrite (reordered_keys es mid HF). now apply Permutation_map. }
    assert (Hstored : Permutation (storedNames (map fst es)) (storedNames (map fst es')))
      by (unfold storedNames; now apply Permutation_map, filter_Permutation).
    assert (Hreqs : Permutation (requiredNames (map fst es)) (requiredNames (map fst es')))
      by (unfold requiredNames; now apply Permutation_map, filter_Permutation).
    assert (Hnd' : NoDup (storedNames (map fst es')))
      by now apply (Permutation_NoDup Hstored).
    assert (Hone' : (List.length (filter isWildcard (map fst es')) <= 1)%nat).
    { rewrite <- (Permutation_length (filter_Permutation isWildcard _ _ Hkeys)).
      exact Hone. }
    assert (Hs' : exists s', parsePico (Map (GoMap es')) = Return (Some s') None).
    { apply accepts_iff. rewrite (reordered_accepts _ _ Hre). apply accepts_iff. eauto. }
    assert (Hchild : forall k v child,
               In (k, v) es -> parsePico v = Return (Some child) None ->
               exists v' child',
                 In (k, v') es' /\ parsePico v' = Return (Some child') None
                 /\ sameUpToOrder child child').
    { intros k v child Hin Hparse.
      destruct (reordered_entry es mid es' k v HF Hperm Hin) as [v' [Hin' Hr]].
      destruct (IH (k, v) Hin v' child Hr (Hdeep (k, v) Hin) Hparse)
        as [child' [Hparse' Hsame]].
      exists v', child'. auto. }
    destruct Hs' as [s' H']. exists s'. split; [exact H'|].
    rewrite parsePico_Map in H, H'.
    constructor.
    + now rewrite (picoLoop_frame_all _ _ _ H), (picoLoop_frame_all _ _ _ H').
    + pose proof (picoLoop_Required _ _ _ H) as Hr.
      pose proof (picoLoop_Required _ _ _ H') as Hr'.
      pose proof (picoLoop_Required_nil _ _ _ H) as Hn.
      pose proof (picoLoop_Required_nil _ _ _ H') as Hn'.
      simpl in Hr, Hr', Hn, Hn'.
      destruct (Required s) as [l|], (Required s') as [l'|]; simpl in *.
      * f_equal. apply sorted_Permutation_eq. now rewrite Hr, Hr'.
      * assert (Hnil : requiredNames (map fst es') = []) by now apply Hn'.
        rewrite Hnil in Hreqs. apply Permutation_sym, Permutation_nil in Hreqs.
        destruct Hn as [_ Hn]. specialize (Hn (conj eq_refl Hreqs)). discriminate Hn.
      * assert (Hnil : requiredNames (map fst es) = []) by now apply Hn.
        rewrite Hnil in Hreqs. apply Permutation_nil in Hreqs.
        destruct Hn' as [_ Hn']. specialize (Hn' (conj eq_refl Hreqs)). discriminate Hn'.
      * reflexivity.
    + destruct (picoLoop_Properties _ _ _ H) as [Hp _].
      destruct (picoLoop_Properties _ _ _ H') as [Hp' _].
      split; intros Hnone.
      * exfalso. apply Hp; [discriminate|exact Hnone].
      * exfalso. apply Hp'; [discriminate|exact Hnone].
    + destruct (picoLoop_Properties _ _ _ H) as [_ Hk].
      destruct (picoLoop_Properties _ _ _ H') as [_ Hk'].
      simpl in Hk, Hk'. rewrite Hk, Hk'.
      rewrite (firstSeen_NoDup _ [] Hnd), (firstSeen_NoDup _ [] Hnd'). exact Hstored.
    + intros name.
      destruct (picoLoop_get_determined es s H Hnd name) as [Hin Hout].
      destruct (picoLoop_get_determined es' s' H' Hnd' name) as [Hin' Hout'].
      destruct (in_dec string_dec name (storedNames (map fst es))) as [Hname|Hname].
      * apply In_storedNames in Hname as [k [v [Hkv [Hw Hn]]]].
        destruct (Hin k v Hkv Hw Hn) as [child [Hparse ->]].
        destruct (Hchild k v child Hkv Hparse) as [v' [child' [Hkv' [Hparse' Hsame]]]].
        destruct (Hin' k v' Hkv' Hw Hn) as [child2 [Hparse2 ->]].
        assert (child2 = child') by congruence. subst child2.
        constructor. now apply sameUpToOrder_entryNode.
      * rewrite (Hout Hname), Hout'; [constructor|].
        intros Hname'. apply Hname.
        now apply (Permutation_in _ (Permutation_sym Hstored)).
    + destruct (picoLoop_frame _ _ _ H) as [_ [_ [Hi _]]].
      destruct (picoLoop_frame _ _ _ H') as [_ [_ [Hi' _]]].
      rewrite Hi, Hi'. constructor.
    + destruct (picoLoop_AdditionalProperties_determined es s H Hone) as [Hw Hnone].
      destruct (picoLoop_AdditionalProperties_determined es' s' H' Hone') as [Hw' Hnone'].
      destruct (existsb isWildcard (map fst es)) eqn:Hex.
      * apply existsb_exists in Hex as [k [Hk Hwild]].
        apply in_map_iff in Hk as [[k' v] [Hfst Hkv]]. simpl in Hfst. subst k'.
        destruct (Hw k v Hkv Hwild) as [child [Hparse ->]].
        destruct (Hchild k v child Hkv Hparse) as [v' [child' [Hkv' [Hparse' Hsame]]]].
        destruct (Hw' k v' Hkv' Hwild) as [child2 [Hparse2 ->]].
        assert (child2 = child') by congruence. subst child2.
        now constructor.
      * assert (Hno : forall k v, In (k, v) es -> isWildcard k = false).
        { intros k v Hkv. destruct (isWildcard k) eqn:Hwild; [|reflexivity].
          assert (Hyes : existsb isWildcard (map fst es) = true).
          { apply existsb_exists. exists k. split; [|exact Hwild].
            apply in_map_iff. now exists (k, v). }
          congruence. }
        rewrite (Hnone Hno), Hnone'.
        -- constructor. now apply sameUpToOrder_leaf.
        -- intros k v Hkv. destruct (isWildcard k) eqn:Hwild; [|reflexivity].
           assert (Hk : In k (map fst es)).
           { apply (Permutation_in _ (Permutation_sym Hkeys)).
             apply in_map_iff. now exists (k, v). }
           apply in_map_iff in Hk as [[k0 v0] [Hfst Hkv0]]. simpl in Hfst. subst k0.
           rewrite (Hno k v0 Hkv0) in Hwild. discriminate Hwild.
Qed.

(** Go visits the entries of a map in an order of its own, at every
    [range].  When, in every mapping that is parsed, the property names
    that the keys store are distinct and at most one key has the modifier
    [*], the order does not matter to what is translated: a value that is
    translated in one order is translated in every order, at every depth,
    and the schemas are the same up to the order of [Required] and of the
    keys of [Properties], at every depth; and a value that is an error in
    one order is an error in every order. *)
Theorem parsePico_range_order v v' :
  reordered v v' -> unambiguous v = true ->
  (forall s, parsePico v = Return (Some s) None ->
     exists s', parsePico v' = Return (Some s') None /\ sameUpToOrder s s')
  /\ (forall err, parsePico v = Return None (Some err) ->
        exists err', parsePico v' = Return None (Some err')).
Proof.
  intros Hre Hun. split.
  - intros s H. now apply (parsePico_reordered v v' s).
  - intros err H.
    assert (Hacc : accepts v' = false).
    { rewrite (reordered_accepts v v' Hre).
      destruct (accepts v) eqn:Hacc; [|reflexivity].
      apply accepts_iff in Hacc as [s Hs]. congruence. }
    destruct (parsePico v') as [s' err'|msg] eqn:H'.
    + destruct (parsePico_returns v' s' err' H') as [[r [-> ->]]|[-> [e ->]]]; eauto.
      assert (Htrue : accepts v' = true) by (apply accepts_iff; eauto). congruence.
    + now apply parsePico_no_panic in H'.
Qed.

Lemma parsePico_range_order_witness :
  exists s,
    parsePico
      (Map (GoMap [("address(object)",
                    Map (GoMap [("city", Str "string"); ("zip?", Str "integer")]));
                   ("name", Str "string")]))
    = Return (Some s) None
    /\ Required s = Some ["address"; "name"]
    /\ exists s',
         parsePico
           (Map (GoMap [("name", Str "string");
                        ("address(object)",
                         Map (GoMap [("zip?", Str "integer"); ("city", Str "string")]))]))
         = Return (Some s') None
         /\ sameUpToOrder s s'.
Proof.
  assert (Hinner : reordered
                     (Map (GoMap [("city", Str "string"); ("zip?", Str "integer")]))
                     (Map (GoMap [("zip?", Str "integer"); ("city", Str "string")]))).
  { apply reordered_map
      with (mid := [("city", Str "string"); ("zip?", Str "integer")]).
    - repeat constructor.
    - apply perm_swap. }
  assert (Hre : reordered
                  (Map (GoMap [("address(object)",
                                Map (GoMap [("city", Str "string");
                                            ("zip?", Str "integer")]));
                               ("name", Str "string")]))
                  (Map (GoMap [("name", Str "string");
                               ("address(object)",
                                Map (GoMap [("zip?", Str "integer");
                                            ("city", Str "string")]))]))).
  { apply reordered_map
      with (mid := [("address(object)",
                     Map (GoMap [("zip?", Str "integer"); ("city", Str "string")]));
                    ("name", Str "string")]).
    - constructor; [split; [reflexivity|exact Hinner]|].
      repeat constructor.
    - apply perm_swap. }
  eexists. split; [reflexivity|]. split; [reflexivity|].
  exact (proj1 (parsePico_range_order _ _ Hre eq_refl) _ eq_refl).
Defined.

(** ** The keys and values that the structural mapper converts *)

Example supportedNames_ex :
  supportedNames
  = ["$schema"; "$anchor"; "$ref"; "$dynamicRef"; "$comment"; "allOf"; "anyOf"; "oneOf";
     "not"; "if"; "then"; "else"; "prefixItems"; "items"; "contains"; "properties";
     "additionalProperties"; "propertyNames"; "type"; "const"; "multipleOf"; "maximum";
     "exclusiveMaximum"; "minimum"; "exclusiveMinimum"; "maxLength"; "minLength";
     "pattern"; "maxItems"; "minItems"; "uniqueItems"; "maxContains"; "minContains";
     "maxProperties"; "minProperties"; "required"; "format"; "contentEncoding";
     "contentMediaType"; "contentSchema"; "title"; "description"; "default";
     "deprecated"; "readOnly"; "writeOnly"].
Proof. reflexivity. Qed.

Lemma jsonMap_jsonName k rf : jsonMap k = Some rf -> jsonName rf = k.
Proof.
  unfold jsonMap. intros H. apply find_some in H as [_ H]. now apply String.eqb_eq.
Qed.

Lemma jsonMap_supported k rf :
  jsonMap k = Some rf -> isSupported (fieldType rf) = true -> In k supportedNames.
Proof.
  intros Hk Hs. pose proof Hk as Hfind. unfold jsonMap in Hfind.
  apply find_some in Hfind as [Hin _].
  rewrite <- (jsonMap_jsonName k rf Hk). unfold supportedNames.
  apply in_map, filter_In. auto.
Qed.

Lemma toStrings_Next k astrs :
  forall i sstrs, toStrings k i astrs = Next sstrs -> astrs = map Str sstrs.
Proof.
  induction astrs as [|astr astrs IH]; simpl; intros i sstrs H.
  - now inversion H.
  - destruct astr; try discriminate.
    destruct (toStrings k (S i) astrs) as [rest|e|msg] eqn:Hrest; try discriminate.
    inversion H. simpl. f_equal. now apply (IH (S i)).
Qed.

Lemma toProperties_Next convert k es :
  forall om om', toProperties convert k es om = Next om' ->
                 forallb (fun kv => isMap (snd kv)) es = true.
Proof.
  induction es as [|[mk mv] es IH]; simpl; intros om om' H; [reflexivity|].
  destruct mv; try discriminate. simpl.
  destruct (convert m) as [[schema|] [e|]|msg]; try discriminate.
  now apply (IH _ _ H).
Qed.

Lemma mapField_Next_shape convert k v ret ret' :
  mapField convert k v ret = Next ret' ->
  exists rf, jsonMap k = Some rf /\ isSupported (fieldType rf) = true
             /\ shapeOK (fieldType rf) v = true.
Proof.
  unfold mapField. destruct (jsonMap k) as [rf|]; [|discriminate].
  intros H. exists rf. split; [reflexivity|].
  destruct (fieldType rf); destruct v; try discriminate H; try (split; reflexivity).
  - destruct (toStrings k 0 (elems l)) as [sstrs|e|msg] eqn:Hs; try discriminate H.
    apply toStrings_Next in Hs. split; [reflexivity|]. simpl. rewrite Hs.
    clear. induction sstrs; simpl; auto.
  - destruct m as [es].
    destruct (toProperties convert k es orderedmap.New) as [om|e|msg] eqn:Hp;
      try discriminate H.
    split; [reflexivity|]. simpl. now apply (toProperties_Next convert k es _ _ Hp).
Qed.

Lemma mapLoop_entries convert es :
  forall ret s,
    rangeLoop (mapField convert) es ret = Return (Some s) None ->
    forall k v, In (k, v) es -> exists ret0 ret1, mapField convert k v ret0 = Next ret1.
Proof.
  induction es as [|[k0 v0] es IH]; simpl; intros ret s H k v Hin; [contradiction|].
  destruct (mapField convert k0 v0 ret) as [ret'|e|msg] eqn:Hbody; try discriminate.
  destruct Hin as [Heq|Hin].
  - inversion Heq; subst. eauto.
  - now apply (IH ret' s H).
Qed.

(** A mapping that [mapToJSONSchema] converts has only keys from the
    table of the fields with a [json] tag whose type the switch has a case
    for, and under each key a value that the case of the field lets through.
    So a key outside the table, and the keys [enum], [examples], [$id],
    [$defs], [dependentSchemas], [patternProperties], [dependentRequired]
    and [-], whose fields have other types, are in no mapping that is
    converted; nor is [const] or [default] bound to nil. *)
Theorem mapToJSONSchema_keys es s :
  mapToJSONSchema (GoMap es) = Return (Some s) None ->
  forall k v, In (k, v) es ->
    In k supportedNames
    /\ exists rf, jsonMap k = Some rf /\ shapeOK (fieldType rf) v = true.
Proof.
  rewrite mapToJSONSchema_unfold. intros H k v Hin.
  destruct (mapLoop_entries _ es zero s H k v Hin) as [ret0 [ret1 Hbody]].
  apply mapField_Next_shape in Hbody as [rf [Hk [Hs Hshape]]].
  split; [now apply (jsonMap_supported k rf)|eauto].
Qed.

Lemma mapToJSONSchema_keys_witness :
  mapToJSONSchema (GoMap [("type", Str "string"); ("enum", Slice (Some [Str "a"]))])
  = Return None (Some (errUnsupportedFieldType "[]interface {}" "enum"))
  /\ forall s,
       mapToJSONSchema (GoMap [("type", Str "string"); ("minLength", Uint KUint64 3)])
       = Return (Some s) None ->
       In "minLength" supportedNames.
Proof.
  split; [reflexivity|]. intros s H.
  exact (proj1 (mapToJSONSchema_keys _ s H "minLength" (Uint KUint64 3)
                  (or_intror (or_introl eq_refl)))).
Defined.

(** The elements of a [[]string] field.  The conversion goes through
    exactly when every element is a string, and then yields those strings in
    their order; otherwise the error names the first element that is not a
    string and its index. *)
Theorem toStrings_spec k astrs :
  (forall sstrs, toStrings k 0 astrs = Next sstrs <-> astrs = map Str sstrs)
  /\ (forall err, toStrings k 0 astrs = Fail err ->
        exists before astr after,
          astrs = map Str before ++ astr :: after
          /\ isStr astr = false
          /\ err = errElementType astr (List.length before) k)
  /\ (forall msg, toStrings k 0 astrs <> Crash msg).
Proof.
  assert (Hgen : forall i,
    (forall sstrs, toStrings k i astrs = Next sstrs <-> astrs = map Str sstrs)
    /\ (forall err, toStrings k i astrs = Fail err ->
          exists before astr after,
            astrs = map Str before ++ astr :: after
            /\ isStr astr = false
            /\ err = errElementType astr (i + List.length before) k)
    /\ (forall msg, toStrings k i astrs <> Crash msg)).
  { induction astrs as [|astr astrs IH]; intros i.
    - simpl. repeat split; try discriminate.
      + intros H. inversion H. reflexivity.
      + intros H. destruct sstrs; [reflexivity|discriminate H].
    - destruct (IH (S i)) as [Hnext [Hfail Hcrash]].
      assert (Hother : isStr astr = false ->
                       toStrings k i (astr :: astrs) = Fail (errElementType astr i k))
        by (destruct astr; simpl; intros E; try discriminate E; reflexivity).
      destruct (isStr astr) eqn:Hstr.
      + destruct astr; try discriminate Hstr. simpl.
        destruct (toStrings k (S i) astrs) as [rest|e|msg].
        * assert (Hastrs : astrs = map Str rest) by (now apply Hnext).
          repeat split; try discriminate.
          -- intros H. inversion H. subst. reflexivity.
          -- intros H. destruct sstrs as [|x sstrs]; [discriminate H|].
             simpl in H. inversion H.
             assert (Hn : Next rest = Next sstrs) by (apply Hnext; congruence).
             now inversion Hn.
        * repeat split; try discriminate.
          -- intros H. exfalso.
             destruct sstrs as [|x sstrs]; [discriminate H|]. simpl in H. inversion H.
             assert (Hn : @Fail (list string) e = Next sstrs) by now apply Hnext.
             discriminate Hn.
          -- intros err H. inversion H. subst err.
             destruct (Hfail e eq_refl) as [before [a [after [Heq [Ha He]]]]].
             exists (s :: before), a, after. simpl. subst astrs.
             repeat split; try assumption.
             rewrite He. f_equal. lia.
        * now contradiction (Hcrash msg).
      + rewrite (Hother eq_refl). repeat split; try discriminate.
        * intros H. destruct sstrs as [|x sstrs]; [discriminate H|].
          simpl in H. inversion H. subst astr. discriminate Hstr.
        * intros err H. inversion H.
          exists [], astr, astrs. simpl. repeat split; [exact Hstr|].
          f_equal. lia. }
  exact (Hgen 0).
Qed.

Lemma toStrings_spec_witness :
  toStrings "required" 0 [Str "a"; Bool true; Str "b"]
  = Fail (errElementType (Bool true) 1 "required")
  /\ exists before astr after,
       [Str "a"; Bool true; Str "b"] = map Str before ++ astr :: after
       /\ isStr astr = false
       /\ errElementType (Bool true) 1 "required"
          = errElementType astr (List.length before) "required".
Proof.
  split; [reflexivity|].
  destruct (toStrings_spec "required" [Str "a"; Bool true; Str "b"]) as [_ [Hfail _]].
  exact (Hfail _ eq_refl).
Defined.

(** ** Panics of the structural mapper *)

Lemma toStrings_no_crash k astrs :
  forall i msg, toStrings k i astrs <> Crash msg.
Proof.
  induction astrs as [|astr astrs IH]; simpl; intros i msg; [discriminate|].
  destruct astr; try discriminate.
  destruct (toStrings k (S i) astrs) as [rest|e|msg'] eqn:Hrest; try discriminate.
  now contradiction (IH (S i) msg').
Qed.

Lemma toSchemas_Crash k l msg :
  toSchemas mapToJSONSchema k l = Crash msg ->
  exists m, In m l /\ mapToJSONSchema m = Panic msg.
Proof.
  induction l as [|m l IH]; simpl; [discriminate|].
  destruct (mapToJSONSchema m) as [[schema|] [e|]|msg'] eqn:Hconv; try discriminate.
  - destruct (toSchemas mapToJSONSchema k l) as [rest|e|msg'] eqn:Hrest; try discriminate.
    intros H. inversion H. subst msg'.
    destruct (IH eq_refl) as [m' [Hin Hm']]. eauto.
  - apply mapToJSONSchema_returns in Hconv as [[r [Hr _]]|[_ [e [=]]]]. discriminate Hr.
  - intros H. inversion H. subst msg'. eauto.
Qed.

Lemma toProperties_Crash k es msg :
  forall om,
    toProperties mapToJSONSchema k es om = Crash msg ->
    exists mk m, In (mk, Map m) es /\ mapToJSONSchema m = Panic msg.
Proof.
  induction es as [|[mk mv] es IH]; simpl; intros om; [discriminate|].
  destruct mv as [| | | | | | |m| |]; try discriminate.
  destruct (mapToJSONSchema m) as [[schema|] [e|]|msg'] eqn:Hconv; try discriminate.
  - intros H. destruct (IH _ H) as [mk' [m' [Hin Hm']]]. eauto.
  - apply mapToJSONSchema_returns in Hconv as [[r [Hr _]]|[_ [e [=]]]]. discriminate Hr.
  - intros H. inversion H. subst msg'. eauto.
Qed.

(** A turn of the loop panics for nil under a key of type [any], or because
    the conversion of a mapping inside the value does. *)
Lemma mapField_Crash k v ret msg :
  mapField mapToJSONSchema k v ret = Crash msg ->
  (isOpaque k = true /\ v = Nil /\ msg = setOnZeroValue)
  \/ exists m', submap v m' /\ mapToJSONSchema m' = Panic msg.
Proof.
  unfold mapField, isOpaque, submap.
  destruct (jsonMap k) as [rf|]; [|discriminate].
  destruct (fieldType rf).
  - destruct v; try discriminate. intros H. inversion H. now left.
  - destruct v; discriminate.
  - destruct v; discriminate.
  - destruct v; discriminate.
  - destruct v; try discriminate.
    destruct (toStrings k 0 (elems l)) as [sstrs|e|msg'] eqn:Hs; try discriminate.
    now apply toStrings_no_crash in Hs.
  - destruct v; discriminate.
  - destruct v as [| | | | | | |m| |]; try discriminate.
    destruct (mapToJSONSchema m) as [schema [e|]|msg'] eqn:Hconv; try discriminate.
    intros H. inversion H. subst msg'. right. exists m. auto.
  - destruct v as [| | | | | | | |l|]; try discriminate.
    destruct (toSchemas mapToJSONSchema k l) as [schemas|e|msg'] eqn:Hconv;
      try discriminate.
    intros H. inversion H. subst msg'.
    apply toSchemas_Crash in Hconv as [m [Hin Hm]]. right. exists m.
    split; [|exact Hm]. right. left. eauto.
  - destruct v as [| | | | | | |[es]| |]; try discriminate.
    destruct (toProperties mapToJSONSchema k es orderedmap.New) as [om|e|msg'] eqn:Hconv;
      try discriminate.
    intros H. inversion H. subst msg'.
    apply toProperties_Crash in Hconv as [mk [m [Hin Hm]]]. right. exists m.
    split; [|exact Hm]. right. right. eauto.
  - discriminate.
Qed.

Lemma deep_submap (Q : gomap -> Prop) v m' : deep Q v -> submap v m' -> Q m'.
Proof.
  intros Hdeep [->|[[l [-> Hin]]|[es [mk [-> Hin]]]]]; simpl in Hdeep.
  - now destruct Hdeep.
  - rewrite Forall_forall in Hdeep. now apply Hdeep.
  - destruct Hdeep as [_ Hes]. rewrite Forall_forall in Hes.
    exact (Hes (mk, Map m') Hin).
Qed.

Lemma mapLoop_Panic es :
  forall ret msg,
    rangeLoop (mapField mapToJSONSchema) es ret = Panic msg ->
    exists k v ret0, In (k, v) es /\ mapField mapToJSONSchema k v ret0 = Crash msg.
Proof.
  induction es as [|[k v] es IH]; simpl; intros ret msg H; [discriminate|].
  destruct (mapField mapToJSONSchema k v ret) as [ret'|e|msg'] eqn:Hbody;
    try discriminate.
  - destruct (IH _ _ H) as [k' [v' [ret0 [Hin Hc]]]]. exists k', v', ret0. auto.
  - inversion H. subst msg'. exists k, v, ret. auto.
Qed.

Lemma mapToJSONSchema_panic_message :
  forall m msg, mapToJSONSchema m = Panic msg -> msg = setOnZeroValue.
Proof.
  induction m as [es Hes] using gomap_deep_ind. intros msg H.
  rewrite mapToJSONSchema_unfold in H.
  apply mapLoop_Panic in H as [k [v [ret0 [Hin Hc]]]].
  apply mapField_Crash in Hc as [[_ [_ Hmsg]]|[m' [Hsub Hm']]]; [exact Hmsg|].
  rewrite Forall_forall in Hes.
  exact (deep_submap _ v m' (Hes (k, v) Hin) Hsub msg Hm').
Qed.

(** The translation has one panic: [reflect.Value.Set] of the zero
    [Value], in the structural mapper, for nil under [const] or [default].
    A value that the shape test leaves to the shorthand grammar never
    panics. *)
Theorem ToJSONSchema_panic val msg :
  ToJSONSchema val = Panic msg ->
  msg = setOnZeroValue /\ isStructural val = true.
Proof.
  intros H. destruct (isStructural val) eqn:Hshape.
  - split; [|reflexivity].
    destruct val as [| | | | | | |m| |]; try discriminate Hshape.
    simpl in H, Hshape.
    destruct (isJSONSchemaType (index m "type")).
    + now apply (mapToJSONSchema_panic_message m).
    + simpl in Hshape.
      destruct (lookup "properties" (entries m)) as [[| | | | | | |p| |]|];
        try discriminate Hshape.
      unfold forceObject in H.
      destruct (mapToJSONSchema m) as [[s0|] [e|]|msg'] eqn:Hconv; try discriminate.
      * apply mapToJSONSchema_returns in Hconv as [[r [Hr _]]|[_ [e [=]]]].
        discriminate Hr.
      * inversion H. subst msg'. now apply (mapToJSONSchema_panic_message m).
  - exfalso. destruct val as [| | | | | | |m| |];
      try (simpl in H; discriminate H);
      try (rewrite ToJSONSchema_shorthand in H by (assumption || discriminate);
           now apply parsePico_no_panic in H).
Qed.

Lemma ToJSONSchema_panic_witness :
  ToJSONSchema (Map (GoMap [("type", Str "array");
                            ("items", Map (GoMap [("const", Nil)]))]))
  = Panic setOnZeroValue.
Proof.
  destruct (ToJSONSchema
              (Map (GoMap [("type", Str "array");
                           ("items", Map (GoMap [("const", Nil)]))]))) as [s err|msg] eqn:H.
  - discriminate H.
  - destruct (ToJSONSchema_panic _ msg H) as [-> _]. reflexivity.
Defined.

Lemma noNilOpaque_entry es k v :
  noNilOpaque (GoMap es) = true -> In (k, v) es ->
  isOpaque k && isNil v = false
  /\ forall m', submap v m' -> noNilOpaque m' = true.
Proof.
  simpl. intros Hall Hin. rewrite forallb_forall in Hall.
  specialize (Hall (k, v) Hin). simpl in Hall.
  apply andb_true_iff in Hall as [Hk Hv]. apply negb_true_iff in Hk.
  split; [exact Hk|].
  intros m' [->|[[l [-> Hl]]|[es2 [mk [-> Hes2]]]]].
  - exact Hv.
  - rewrite forallb_forall in Hv. now apply Hv.
  - simpl in Hv. rewrite forallb_forall in Hv.
    specialize (Hv (mk, Map m') Hes2). simpl in Hv.
    now apply andb_true_iff in Hv as [_ Hv].
Qed.

Lemma noNilOpaque_no_panic :
  forall m, noNilOpaque m = true -> forall msg, mapToJSONSchema m <> Panic msg.
Proof.
  induction m as [es Hes] using gomap_deep_ind. intros Hok msg H.
  rewrite mapToJSONSchema_unfold in H.
  apply mapLoop_Panic in H as [k [v [ret0 [Hin Hc]]]].
  destruct (noNilOpaque_entry es k v Hok Hin) as [Hnil Hsub].
  apply mapField_Crash in Hc as [[Hk [-> _]]|[m' [Hm' Hpanic]]].
  - rewrite Hk in Hnil. discriminate Hnil.
  - rewrite Forall_forall in Hes.
    exact (deep_submap _ v m' (Hes (k, v) Hin) Hm' (Hsub m' Hm') msg Hpanic).
Qed.

(** When no mapping, at any depth, binds [const] or [default] to nil,
    [mapToJSONSchema] returns: a schema, or an error, and not both. *)
Theorem mapToJSONSchema_total m :
  noNilOpaque m = true ->
  (exists s, mapToJSONSchema m = Return (Some s) None)
  \/ (exists err, mapToJSONSchema m = Return None (Some err)).
Proof.
  intros Hok. destruct (mapToJSONSchema m) as [s err|msg] eqn:H.
  - destruct (mapToJSONSchema_returns m s err H) as [[r [-> ->]]|[-> [e ->]]]; eauto.
  - now apply (noNilOpaque_no_panic m Hok) in H.
Qed.

Lemma mapToJSONSchema_total_witness :
  exists err,
    mapToJSONSchema (GoMap [("type", Str "string"); ("default", Str "x"); ("bogus", Nil)])
    = Return None (Some err).
Proof.
  destruct (mapToJSONSchema_total
              (GoMap [("type", Str "string"); ("default", Str "x"); ("bogus", Nil)])
              eq_refl) as [[s H]|H].
  - discriminate H.
  - exact H.
Defined.

(** ** What the structural mapper stores *)

Lemma jsonMap_of_jsonName rf : jsonMap (jsonName rf) = Some rf.
Proof. destruct rf; reflexivity. Qed.

Lemma mapField_Next_wasSet convert k v ret ret' :
  mapField convert k v ret = Next ret' ->
  exists rf, jsonMap k = Some rf /\ wasSet rf ret ret'.
Proof.
  unfold mapField. destruct (jsonMap k) as [rf|]; [|discriminate].
  intros H. exists rf. split; [reflexivity|].
  destruct (fieldType rf) eqn:Hty.
  - destruct v; try discriminate H; inversion H; now constructor.
  - destruct v; try discriminate H; inversion H; now constructor.
  - destruct v; try discriminate H; inversion H; now constructor.
  - destruct v; try discriminate H; inversion H; now constructor.
  - destruct v; try discriminate H.
    destruct (toStrings k 0 (elems l)); try discriminate H. inversion H. now constructor.
  - destruct v; try discriminate H; inversion H; now constructor.
  - destruct v; try discriminate H.
    destruct (convert m) as [schema [e|]|msg]; try discriminate H.
    inversion H. now constructor.
  - destruct v; try discriminate H.
    destruct (toSchemas convert k l); try discriminate H. inversion H. now constructor.
  - destruct v as [| | | | | | |[es]| |]; try discriminate H.
    destruct (toProperties convert k es orderedmap.New); try discriminate H.
    inversion H. now constructor.
  - discriminate H.
Qed.

(** With distinct keys, a reading that only one field bears on shows, after
    the loop, what the turn for the key of the field left, or what was there
    before when the key is absent. *)
Lemma mapLoop_reads {A : Type} (g : Schema -> A) (rf : field) (R : any -> A -> Prop) :
  readsOnly g rf ->
  (forall v ret ret',
      mapField mapToJSONSchema (jsonName rf) v ret = Next ret' -> R v (g ret')) ->
  forall es ret s,
    NoDup (map fst es) ->
    rangeLoop (mapField mapToJSONSchema) es ret = Return (Some s) None ->
    (forall v, In (jsonName rf, v) es -> R v (g s))
    /\ (~ In (jsonName rf) (map fst es) -> g s = g ret).
Proof.
  intros Hreads Hset. induction es as [|[k v] es IH]; simpl; intros ret s Hnd H.
  - inversion H. subst. split; [intros v []|reflexivity].
  - destruct (mapField mapToJSONSchema k v ret) as [ret'|e|msg] eqn:Hbody;
      try discriminate.
    inversion Hnd as [|? ? Hnotin Hnd']; subst.
    destruct (IH ret' s Hnd' H) as [Hin Hout].
    destruct (string_dec k (jsonName rf)) as [->|Hne].
    + split.
      * intros v' [Heq|Hv'].
        -- inversion Heq. subst v'. rewrite (Hout Hnotin). now apply (Hset v ret).
        -- exfalso. apply Hnotin, in_map_iff. now exists (jsonName rf, v').
      * intros Hno. exfalso. apply Hno. now left.
    + split.
      * intros v' [Heq|Hv']; [inversion Heq; congruence|now apply Hin].
      * intros Hno. rewrite Hout by (intros Hk; apply Hno; now right).
        apply mapField_Next_wasSet in Hbody as [rf' [Hk Hws]].
        apply (Hreads rf' ret ret' Hws).
        intros ->. apply Hne. symmetry. now apply jsonMap_jsonName.
Qed.

Ltac reads_only Hty :=
  let rf' := fresh "rf'" in
  let Hset := fresh "Hset" in
  let Hne := fresh "Hne" in
  intros rf' ? ? Hset Hne;
  destruct Hset as [? Hset|? Hset|? Hset|? Hset|? Hset|? Hset|? Hset|? Hset|? Hset];
  match goal with
  | |- context [?g ?rf _ = _] =>
      destruct rf; try discriminate Hty;
      destruct rf'; try discriminate Hset; try reflexivity; now contradiction Hne
  end.

Lemma readsOnly_GetString rf : fieldType rf = TString -> readsOnly (GetString rf) rf.
Proof. intros Hty. reads_only Hty. Qed.

Lemma readsOnly_GetNumber rf : fieldType rf = TJSONNumber -> readsOnly (GetNumber rf) rf.
Proof. intros Hty. reads_only Hty. Qed.

Lemma readsOnly_GetBool rf : fieldType rf = TBool -> readsOnly (GetBool rf) rf.
Proof. intros Hty. reads_only Hty. Qed.

Lemma readsOnly_GetUint64Ptr rf :
  fieldType rf = TUint64Ptr -> readsOnly (GetUint64Ptr rf) rf.
Proof. intros Hty. reads_only Hty. Qed.

Lemma readsOnly_GetAny rf : fieldType rf = TAny -> readsOnly (GetAny rf) rf.
Proof. intros Hty. reads_only Hty. Qed.

Lemma readsOnly_GetSchema rf : fieldType rf = TSchemaPtr -> readsOnly (GetSchema rf) rf.
Proof. intros Hty. reads_only Hty. Qed.

Lemma readsOnly_GetSchemas rf :
  fieldType rf = TSchemaSlice -> readsOnly (GetSchemas rf) rf.
Proof. intros Hty. reads_only Hty. Qed.

Lemma readsOnly_Required : readsOnly Required FRequired.
Proof.
  intros rf' ret ret' Hset Hne.
  destruct Hset as [? Hset|? Hset|? Hset|? Hset|? Hset|? Hset|? Hset|? Hset|? Hset];
    destruct rf'; try discriminate Hset; try reflexivity; now contradiction Hne.
Qed.

Lemma readsOnly_Properties : readsOnly Properties FProperties.
Proof.
  intros rf' ret ret' Hset Hne.
  destruct Hset as [? Hset|? Hset|? Hset|? Hset|? Hset|? Hset|? Hset|? Hset|? Hset];
    destruct rf'; try discriminate Hset; try reflexivity; now contradiction Hne.
Qed.

(** Decode, then read.  For a mapping with distinct keys that the mapper
    converts, a field of type [string], [json.Number], [bool] or [*uint64]
    holds what its key binds: the string, the boolean, the integer as
    [uint64]; it keeps its zero value when the key is absent.  No key
    overwrites the field of another. *)
Theorem mapper_scalar_fields es s :
  NoDup (map fst es) ->
  mapToJSONSchema (GoMap es) = Return (Some s) None ->
  forall rf,
    (fieldType rf = TString ->
       (forall v, In (jsonName rf, v) es -> v = Str (GetString rf s))
       /\ (~ In (jsonName rf) (map fst es) -> GetString rf s = EmptyString))
    /\ (fieldType rf = TJSONNumber ->
       (forall v, In (jsonName rf, v) es -> v = Str (GetNumber rf s))
       /\ (~ In (jsonName rf) (map fst es) -> GetNumber rf s = EmptyString))
    /\ (fieldType rf = TBool ->
       (forall v, In (jsonName rf, v) es -> v = Bool (GetBool rf s))
       /\ (~ In (jsonName rf) (map fst es) -> GetBool rf s = false))
    /\ (fieldType rf = TUint64Ptr ->
       (forall v, In (jsonName rf, v) es ->
                  isInteger v = true /\ GetUint64Ptr rf s = Some (storedUint64 v))
       /\ (~ In (jsonName rf) (map fst es) -> GetUint64Ptr rf s = None)).
Proof.
  intros Hnd H rf. rewrite mapToJSONSchema_unfold in H.
  split; [|split; [|split]]; intros Hty.
  - destruct (mapLoop_reads (GetString rf) rf (fun v g => v = Str g)
                (readsOnly_GetString rf Hty)) with (es := es) (ret := zero) (s := s)
      as [Hin Hout]; auto.
    + intros v ret ret'. unfold mapField. rewrite jsonMap_of_jsonName, Hty.
      destruct v; try discriminate. intros Hn. inversion Hn.
      destruct rf; try discriminate Hty; reflexivity.
    + split; [exact Hin|]. intros Hno. rewrite (Hout Hno). now destruct rf.
  - destruct (mapLoop_reads (GetNumber rf) rf (fun v g => v = Str g)
                (readsOnly_GetNumber rf Hty)) with (es := es) (ret := zero) (s := s)
      as [Hin Hout]; auto.
    + intros v ret ret'. unfold mapField. rewrite jsonMap_of_jsonName, Hty.
      destruct v; try discriminate. intros Hn. inversion Hn.
      destruct rf; try discriminate Hty; reflexivity.
    + split; [exact Hin|]. intros Hno. rewrite (Hout Hno). now destruct rf.
  - destruct (mapLoop_reads (GetBool rf) rf (fun v g => v = Bool g)
                (readsOnly_GetBool rf Hty)) with (es := es) (ret := zero) (s := s)
      as [Hin Hout]; auto.
    + intros v ret ret'. unfold mapField. rewrite jsonMap_of_jsonName, Hty.
      destruct v; try discriminate. intros Hn. inversion Hn.
      destruct rf; try discriminate Hty; reflexivity.
    + split; [exact Hin|]. intros Hno. rewrite (Hout Hno). now destruct rf.
  - destruct (mapLoop_reads (GetUint64Ptr rf) rf
                (fun v g => isInteger v = true /\ g = Some (storedUint64 v))
                (readsOnly_GetUint64Ptr rf Hty)) with (es := es) (ret := zero) (s := s)
      as [Hin Hout]; auto.
    + intros v ret ret'. unfold mapField. rewrite jsonMap_of_jsonName, Hty.
      destruct v; try discriminate; intros Hn; inversion Hn;
        destruct rf; try discriminate Hty; split; reflexivity.
    + split; [exact Hin|]. intros Hno. rewrite (Hout Hno). now destruct rf.
Qed.

Lemma mapper_scalar_fields_witness :
  exists s,
    mapToJSONSchema
      (GoMap [("title", Str "Name"); ("type", Str "string"); ("minLength", Int KInt 1)])
    = Return (Some s) None
    /\ Str "string" = Str (GetString FType s)
    /\ GetString FDescription s = EmptyString
    /\ GetUint64Ptr FMinLength s = Some 1%Z.
Proof.
  eexists. split; [reflexivity|].
  assert (Hnd : NoDup (map fst
            [("title", Str "Name"); ("type", Str "string"); ("minLength", Int KInt 1)]))
    by (repeat constructor; simpl; intuition discriminate).
  pose proof (fun rf => mapper_scalar_fields _ _ Hnd eq_refl rf) as Hthm.
  destruct (Hthm FType) as [Hstr _]. destruct (Hstr eq_refl) as [Hin _].
  destruct (Hthm FDescription) as [Hstr' _]. destruct (Hstr' eq_refl) as [_ Hout].
  destruct (Hthm FMinLength) as [_ [_ [_ Hu]]]. destruct (Hu eq_refl) as [Hinu _].
  split; [apply Hin; simpl; auto|].
  split; [apply Hout; simpl; intuition discriminate|].
  apply (Hinu (Int KInt 1)). simpl. auto.
Defined.

(** For a mapping with distinct keys that the mapper converts, [Required]
    holds the strings of the sequence bound to [required], in their order
    (a non-nil slice, also for an empty sequence), and is nil when the key
    is absent; a field of type [any] holds the value bound to its key as it
    is, which is not nil. *)
Theorem mapper_required_and_opaque es s :
  NoDup (map fst es) ->
  mapToJSONSchema (GoMap es) = Return (Some s) None ->
  ((forall v, In ("required", v) es ->
      exists l names, v = Slice l /\ elems l = map Str names /\ Required s = Some names)
   /\ (~ In "required" (map fst es) -> Required s = None))
  /\ forall rf, fieldType rf = TAny ->
       (forall v, In (jsonName rf, v) es -> v <> Nil /\ GetAny rf s = v)
       /\ (~ In (jsonName rf) (map fst es) -> GetAny rf s = Nil).
Proof.
  intros Hnd H. rewrite mapToJSONSchema_unfold in H. split.
  - destruct (mapLoop_reads Required FRequired
                (fun v g => exists l names,
                     v = Slice l /\ elems l = map Str names /\ g = Some names)
                readsOnly_Required) with (es := es) (ret := zero) (s := s)
      as [Hin Hout]; auto.
    intros v ret ret'. unfold mapField. simpl.
    destruct v; try discriminate.
    destruct (toStrings "required" 0 (elems l)) as [sstrs|e|msg] eqn:Hs; try discriminate.
    intros Hn. inversion Hn. exists l, sstrs.
    split; [reflexivity|]. split; [now apply (toStrings_Next "required" _ 0)|reflexivity].
  - intros rf Hty.
    destruct (mapLoop_reads (GetAny rf) rf (fun v g => v <> Nil /\ g = v)
                (readsOnly_GetAny rf Hty)) with (es := es) (ret := zero) (s := s)
      as [Hin Hout]; auto.
    + intros v ret ret'. unfold mapField. rewrite jsonMap_of_jsonName, Hty.
      destruct v; try discriminate; intros Hn; inversion Hn;
        destruct rf; try discriminate Hty; split; (discriminate || reflexivity).
    + split; [exact Hin|]. intros Hno. rewrite (Hout Hno). now destruct rf.
Qed.

Lemma mapper_required_and_opaque_witness :
  exists s,
    mapToJSONSchema
      (GoMap [("required", Slice (Some [Str "b"; Str "a"])); ("default", Int KInt 0)])
    = Return (Some s) None
    /\ (exists l names, Slice (Some [Str "b"; Str "a"]) = Slice l
                        /\ elems l = map Str names /\ Required s = Some names)
    /\ GetAny FDefault s = Int KInt 0.
Proof.
  eexists. split; [reflexivity|].
  assert (Hnd : NoDup (map fst
            [("required", Slice (Some [Str "b"; Str "a"])); ("default", Int KInt 0)]))
    by (repeat constructor; simpl; intuition discriminate).
  destruct (mapper_required_and_opaque _ _ Hnd eq_refl) as [[Hreq _] Hany].
  split; [apply Hreq; simpl; auto|].
  destruct (Hany FDefault eq_refl) as [Hin _].
  apply (Hin (Int KInt 0)). simpl. auto.
Defined.

Lemma toSchemas_spec k l :
  forall schemas,
    toSchemas mapToJSONSchema k l = Next schemas ->
    Forall2 (fun m c => mapToJSONSchema m = Return (Some c) None) l schemas.
Proof.
  induction l as [|m l IH]; simpl; intros schemas H.
  - inversion H. constructor.
  - destruct (mapToJSONSchema m) as [[schema|] [e|]|msg] eqn:Hconv; try discriminate.
    destruct (toSchemas mapToJSONSchema k l) as [rest|e|msg]; try discriminate.
    inversion H. constructor; [exact Hconv|now apply IH].
Qed.

Lemma toProperties_spec k es :
  forall om om',
    toProperties mapToJSONSchema k es om = Next om' ->
    orderedmap.Keys om' = firstSeen (orderedmap.Keys om) (map fst es)
    /\ (forall mk mv, In (mk, mv) es ->
          exists mvm child, mv = Map mvm
                            /\ mapToJSONSchema mvm = Return (Some child) None)
    /\ (forall name, ~ In name (map fst es) -> get name om' = get name om)
    /\ (NoDup (map fst es) ->
        forall mk mvm child, In (mk, Map mvm) es ->
          mapToJSONSchema mvm = Return (Some child) None -> get mk om' = Some child).
Proof.
  induction es as [|[mk mv] es IH]; simpl; intros om om' H.
  - inversion H. subst. repeat split; try reflexivity; intros; contradiction.
  - destruct mv as [| | | | | | |mvm| |]; try discriminate.
    destruct (mapToJSONSchema mvm) as [[schema|] [e|]|msg] eqn:Hconv; try discriminate.
    destruct (IH _ _ H) as [Hkeys [Hvals [Hother Hget]]].
    split; [|split; [|split]].
    + rewrite Hkeys, Keys_Set_. reflexivity.
    + intros mk' mv' [Heq|Hin]; [inversion Heq; subst; eauto|now apply (Hvals mk')].
    + intros name Hno. rewrite Hother by tauto.
      apply get_Set_other. intros ->. tauto.
    + intros Hnd mk' mvm' child [Heq|Hin] Hc.
      * inversion Heq. subst mk' mvm'. inversion Hnd as [|? ? Hnotin _]; subst.
        rewrite (Hother mk Hnotin), get_Set_same. congruence.
      * inversion Hnd; subst. now apply (Hget H3 mk' mvm').
Qed.

(** For a mapping with distinct keys that the mapper converts: a field of
    type [*Schema] holds the conversion of the mapping bound to its key, a
    field of type [[]*Schema] the conversions of the mappings of the slice
    in their order, and [Properties] has the keys of the mapping bound to
    [properties] in the order of the [range] over it, each bound to the
    conversion of its value.  Absent keys leave nil. *)
Theorem mapper_subschemas es s :
  NoDup (map fst es) ->
  mapToJSONSchema (GoMap es) = Return (Some s) None ->
  (forall rf, fieldType rf = TSchemaPtr ->
     (forall v, In (jsonName rf, v) es ->
        exists m child, v = Map m /\ mapToJSONSchema m = Return (Some child) None
                        /\ GetSchema rf s = Some child)
     /\ (~ In (jsonName rf) (map fst es) -> GetSchema rf s = None))
  /\ (forall rf, fieldType rf = TSchemaSlice ->
     (forall v, In (jsonName rf, v) es ->
        exists l children, v = MapSlice l /\ GetSchemas rf s = Some children
          /\ Forall2 (fun m c => mapToJSONSchema m = Return (Some c) None) l children)
     /\ (~ In (jsonName rf) (map fst es) -> GetSchemas rf s = None))
  /\ (forall v, In ("properties", v) es ->
        exists es2 om, v = Map (GoMap es2) /\ Properties s = Some om
          /\ orderedmap.Keys om = firstSeen [] (map fst es2)
          /\ (forall mk mv, In (mk, mv) es2 ->
                exists mvm child, mv = Map mvm
                  /\ mapToJSONSchema mvm = Return (Some child) None
                  /\ (NoDup (map fst es2) -> get mk om = Some child)))
  /\ (~ In "properties" (map fst es) -> Properties s = None).
Proof.
  intros Hnd H. rewrite mapToJSONSchema_unfold in H.
  split; [|split; [|split]].
  - intros rf Hty.
    destruct (mapLoop_reads (GetSchema rf) rf
                (fun v g => exists m child, v = Map m
                              /\ mapToJSONSchema m = Return (Some child) None
                              /\ g = Some child)
                (readsOnly_GetSchema rf Hty)) with (es := es) (ret := zero) (s := s)
      as [Hin Hout]; auto.
    + intros v ret ret'. unfold mapField. rewrite jsonMap_of_jsonName, Hty.
      destruct v as [| | | | | | |m| |]; try discriminate.
      destruct (mapToJSONSchema m) as [schema [e|]|msg] eqn:Hconv; try discriminate.
      intros Hn. inversion Hn.
      apply mapToJSONSchema_returns in Hconv as Hone.
      destruct Hone as [[child [-> _]]|[_ [e [=]]]].
      exists m, child. split; [reflexivity|]. split; [exact Hconv|].
      destruct rf; try discriminate Hty; reflexivity.
    + split; [exact Hin|]. intros Hno. rewrite (Hout Hno). now destruct rf.
  - intros rf Hty.
    destruct (mapLoop_reads (GetSchemas rf) rf
                (fun v g => exists l children, v = MapSlice l /\ g = Some children
                   /\ Forall2 (fun m c => mapToJSONSchema m = Return (Some c) None)
                        l children)
                (readsOnly_GetSchemas rf Hty)) with (es := es) (ret := zero) (s := s)
      as [Hin Hout]; auto.
    + intros v ret ret'. unfold mapField. rewrite jsonMap_of_jsonName, Hty.
      destruct v as [| | | | | | | |l|]; try discriminate.
      destruct (toSchemas mapToJSONSchema (jsonName rf) l) as [schemas|e|msg] eqn:Hconv;
        try discriminate.
      intros Hn. inversion Hn. exists l, schemas.
      split; [reflexivity|].
      split; [destruct rf; try discriminate Hty; reflexivity|].
      now apply (toSchemas_spec (jsonName rf)).
    + split; [exact Hin|]. intros Hno. rewrite (Hout Hno). now destruct rf.
  - destruct (mapLoop_reads Properties FProperties
                (fun v g => exists es2 om, v = Map (GoMap es2) /\ g = Some om
                   /\ orderedmap.Keys om = firstSeen [] (map fst es2)
                   /\ (forall mk mv, In (mk, mv) es2 ->
                         exists mvm child, mv = Map mvm
                           /\ mapToJSONSchema mvm = Return (Some child) None
                           /\ (NoDup (map fst es2) -> get mk om = Some child)))
                readsOnly_Properties) with (es := es) (ret := zero) (s := s)
      as [Hin _]; auto.
    intros v ret ret'. unfold mapField. simpl.
    destruct v as [| | | | | | |[es2]| |]; try discriminate.
    destruct (toProperties mapToJSONSchema "properties" es2 orderedmap.New)
      as [om|e|msg] eqn:Hconv; try discriminate.
    intros Hn. inversion Hn.
    destruct (toProperties_spec _ _ _ _ Hconv) as [Hkeys [Hvals [_ Hget]]].
    exists es2, om. split; [reflexivity|]. split; [reflexivity|].
    split; [exact Hkeys|].
    intros mk mv Hmk. destruct (Hvals mk mv Hmk) as [mvm [child [-> Hc]]].
    exists mvm, child. split; [reflexivity|]. split; [exact Hc|].
    intros Hnd2. now apply (Hget Hnd2 mk mvm).
  - destruct (mapLoop_reads Properties FProperties (fun _ _ => True)
                readsOnly_Properties) with (es := es) (ret := zero) (s := s)
      as [_ Hout]; auto.
Qed.

Lemma mapper_subschemas_witness :
  exists s,
    mapToJSONSchema
      (GoMap [("items", Map (GoMap [("type", Str "string")]));
              ("properties", Map (GoMap [("b", Map (GoMap [])); ("a", Map (GoMap []))]))])
    = Return (Some s) None
    /\ GetSchema FItems s = Some (set_Type_ "string" zero)
    /\ orderedmap.Keys (properties s) = ["b"; "a"].
Proof.
  eexists. split; [reflexivity|].
  assert (Hnd : NoDup (map fst
            [("items", Map (GoMap [("type", Str "string")]));
             ("properties", Map (GoMap [("b", Map (GoMap [])); ("a", Map (GoMap []))]))]))
    by (repeat constructor; simpl; intuition discriminate).
  destruct (mapper_subschemas _ _ Hnd eq_refl) as [Hptr [_ [Hprops _]]].
  destruct (Hptr FItems eq_refl) as [Hin _].
  destruct (Hin (Map (GoMap [("type", Str "string")]))) as [m [child [Hm [Hc Hg]]]];
    [simpl; auto|].
  inversion Hm. subst m. inversion Hc. subst child.
  split; [exact Hg|reflexivity].
Defined.

(** An error of a mapping nested under fields of type [*Schema] comes up
    wrapped once for each field on the way, outermost first; a panic comes
    up as it is. *)
Theorem mapper_error_chain path m :
  Forall (fun rf => fieldType rf = TSchemaPtr) path ->
  (forall err, mapToJSONSchema m = Return None (Some err) ->
               mapToJSONSchema (nest path m) = Return None (Some (wrap path err)))
  /\ (forall msg, mapToJSONSchema m = Panic msg ->
                  mapToJSONSchema (nest path m) = Panic msg).
Proof.
  induction 1 as [|rf path Hty Hpath [IHerr IHpanic]]; cbn [nest wrap].
  - auto.
  - split.
    + intros err H. rewrite mapToJSONSchema_unfold. cbn [rangeLoop]. unfold mapField.
      rewrite jsonMap_of_jsonName, Hty, (IHerr err H). reflexivity.
    + intros msg H. rewrite mapToJSONSchema_unfold. cbn [rangeLoop]. unfold mapField.
      rewrite jsonMap_of_jsonName, Hty, (IHpanic msg H). reflexivity.
Qed.

Lemma mapper_error_chain_witness :
  mapToJSONSchema
    (GoMap [("items", Map (GoMap [("not", Map (GoMap [("bogus", Nil)]))]))])
  = Return None
      (Some (errConvertField "items" (errConvertField "not" (errUnrecognizedField "bogus")))).
Proof.
  destruct (mapper_error_chain [FItems; FNot] (GoMap [("bogus", Nil)])) as [Herr _].
  - repeat constructor.
  - exact (Herr _ eq_refl).
Defined.

(** ** The shape test and the shorthand *)

(** A top-level mapping that the shape test takes for a JSON schema is not
    read as shorthand, also when it is good shorthand: with a key that is not
    the name of a supported field, no schema comes back. *)
Theorem shape_test_shadows_shorthand m k v :
  isStructural (Map m) = true ->
  In (k, v) (entries m) -> ~ In k supportedNames ->
  forall s err, ToJSONSchema (Map m) <> Return (Some s) err.
Proof.
  intros Hshape Hin Hk s err H.
  assert (Hconv : exists s0, mapToJSONSchema m = Return (Some s0) None).
  { simpl in H, Hshape. destruct (isJSONSchemaType (index m "type")).
    - destruct (mapToJSONSchema_returns m _ _ H) as [[r [Hr ->]]|[[=] _]]. eauto.
    - simpl in Hshape.
      destruct (lookup "properties" (entries m)) as [[| | | | | | |p| |]|];
        try discriminate Hshape.
      unfold forceObject in H.
      destruct (mapToJSONSchema m) as [[s0|] [e|]|msg]; try discriminate H. eauto. }
  destruct Hconv as [s0 Hconv]. destruct m as [es]. simpl in Hin.
  rewrite mapToJSONSchema_unfold in Hconv.
  destruct (mapLoop_entries _ es zero s0 Hconv k v Hin) as [ret0 [ret1 Hbody]].
  apply mapField_Next_shape in Hbody as [rf [Hrf [Hs _]]].
  apply Hk. now apply (jsonMap_supported k rf).
Qed.

Lemma shape_test_shadows_shorthand_witness :
  accepts (Map (GoMap [("type", Str "string"); ("name", Str "string")])) = true
  /\ forall s err,
       ToJSONSchema (Map (GoMap [("type", Str "string"); ("name", Str "string")]))
       <> Return (Some s) err.
Proof.
  split; [reflexivity|].
  apply (shape_test_shadows_shorthand
           (GoMap [("type", Str "string"); ("name", Str "string")]) "name" (Str "string")).
  - reflexivity.
  - simpl. auto.
  - simpl. intuition discriminate.
Defined.

(** ** Objects of the shorthand are closed *)

Lemma closedObject_root val s :
  parsePico val = Return (Some s) None -> closedObject s.
Proof.
  intros H Hobject.
  destruct val as [| | | | |str|l|[es]| |]; simpl in H; try discriminate.
  - apply parseScalar_node in H as [_ [_ Htype]]. contradiction.
  - inversion H. subst s. discriminate Hobject.
  - destruct (picoLoop_Properties _ _ _ H) as [Hprops _].
    split; [apply Hprops; discriminate|].
    destruct (picoLoop_AdditionalProperties_source _ _ _ H)
      as [->|[k [v [child [_ [_ [_ ->]]]]]]]; discriminate.
Qed.

Lemma closedObject_stored property node :
  stored property node -> closedObject property -> closedObject node.
Proof.
  induction 1 as [| | |d node Hstored IH]; intros Hp.
  - exact Hp.
  - intros Hobject. discriminate Hobject.
  - exact Hp.
  - exact (IH Hp).
Qed.

(** In a schema that the shorthand grammar returns, every node of type
    [object], at any depth, has a non-nil [Properties] and a non-nil
    [AdditionalProperties]: what an object does not list it forbids, or
    checks against the node of its wildcard. *)
Theorem shorthand_objects_closed val s :
  parsePico val = Return (Some s) None ->
  forall n, reach children s n -> Type_ n = "object" ->
    Properties n <> None /\ AdditionalProperties n <> None.
Proof.
  intros H.
  apply (parsePico_allNodes closedObject (fun _ => true)) with (val := val); auto.
  - intros v s0 _. apply closedObject_root.
  - intros Hobject. discriminate Hobject.
  - apply closedObject_stored.
Qed.

Lemma shorthand_objects_closed_witness :
  exists s inner,
    parsePico (Map (GoMap [("address(object)", Map (GoMap [("city", Str "string")]))]))
    = Return (Some s) None
    /\ get "address" (properties s) = Some inner
    /\ AdditionalProperties inner <> None.
Proof.
  eexists. eexists. split; [reflexivity|]. split; [reflexivity|].
  match goal with
  | |- AdditionalProperties ?inner <> None =>
      refine (proj2 (shorthand_objects_closed
                       (Map (GoMap [("address(object)",
                                     Map (GoMap [("city", Str "string")]))]))
                       _ eq_refl inner _ eq_refl))
  end.
  eapply reach_step; [|apply reach_self]. simpl. auto.
Defined.

(** ** What [sortSchemaSlices] leaves alone *)

(** [sortSchemaSlices] rearranges [Required] and nothing else of a node:
    the same names, nil staying nil; the keys of [Properties] in the same
    order; and it does not go into [AdditionalProperties] nor into any
    subschema other than those of [Properties] and [Items], which stay as
    they are, sorted or not. *)
Theorem sortSchemaSlices_preserves s :
  Permutation (elems (Required s)) (elems (Required (sortSchemaSlices s)))
  /\ (Required (sortSchemaSlices s) = None <-> Required s = None)
  /\ orderedmap.Keys (properties (sortSchemaSlices s)) = orderedmap.Keys (properties s)
  /\ sortedChildren (sortSchemaSlices s) = map sortSchemaSlices (sortedChildren s)
  /\ AdditionalProperties (sortSchemaSlices s) = AdditionalProperties s
  /\ otherChildren (sortSchemaSlices s) = otherChildren s
  /\ Type_ (sortSchemaSlices s) = Type_ s
  /\ Description (sortSchemaSlices s) = Description s
  /\ Enum (sortSchemaSlices s) = Enum s.
Proof.
  split; [|split; [|split; [|split; [apply sortedChildren_sortSchemaSlices|]]]];
    rewrite ?sortSchemaSlices_eq; simpl.
  - destruct (Required s) as [l|]; simpl; [apply sorted_Permutation|constructor].
  - destruct (Required s); simpl; split; congruence.
  - unfold properties. simpl. destruct (Properties s) as [om|]; simpl; [|reflexivity].
    unfold orderedmap.Keys. rewrite map_map. reflexivity.
  - repeat split.
Qed.

Lemma Sort_Permutation r r' :
  (r = None <-> r' = None) -> Permutation (elems r) (elems r') ->
  slices.Sort r = slices.Sort r'.
Proof.
  intros Hn Hp. destruct r as [l|], r' as [l'|]; simpl in *.
  - f_equal. now apply sorted_Permutation_eq.
  - destruct Hn as [_ Hn]. discriminate (Hn eq_refl).
  - destruct Hn as [Hn _]. discriminate (Hn eq_refl).
  - reflexivity.
Qed.

Lemma sameButRequired_sorted :
  forall s s', sameButRequired s s' -> sortSchemaSlices s = sortSchemaSlices s'.
Proof.
  induction s as [s IH] using Schema_sorted_ind. intros s' Hs.
  inversion Hs as [? ? Hf Hn Hp Hprops Hitems]; subst.
  unfold sortedChildren, properties in IH. apply Forall_app in IH as [IHp IHi].
  rewrite !sortSchemaSlices_eq.
  assert (Hr : slices.Sort (Required s) = slices.Sort (Required s'))
    by now apply Sort_Permutation.
  assert (Ho : option_map (map sortValue) (Properties s)
               = option_map (map sortValue) (Properties s')).
  { inversion Hprops as [Hl Hr'|om om' HF Hl Hr']; [reflexivity|].
    rewrite <- Hl in IHp. simpl. f_equal. clear Hl Hr' Hprops.
    induction HF as [|[k c] [k' c'] om om' [Hk Hc] HF IHF]; [reflexivity|].
    simpl in *. subst k'. inversion IHp as [|? ? IHc IHom]; subst.
    unfold sortValue at 1 3. simpl. rewrite (IHc c' Hc). f_equal. now apply IHF. }
  assert (Hi : option_map sortSchemaSlices (Items s)
               = option_map sortSchemaSlices (Items s')).
  { inversion Hitems as [Hl Hr'|c c' Hc Hl Hr']; [reflexivity|].
    rewrite <- Hl in IHi. simpl in *. inversion IHi as [|? ? IHc _]; subst.
    now rewrite (IHc c' Hc). }
  rewrite Hr, Ho, Hi.
  change (set_Items (option_map sortSchemaSlices (Items s'))
            (set_Properties (option_map (map sortValue) (Properties s'))
               (set_Required (slices.Sort (Required s'))
                  (set_Required None (set_Properties None (set_Items None s)))))
          = set_Items (option_map sortSchemaSlices (Items s'))
              (set_Properties (option_map (map sortValue) (Properties s'))
                 (set_Required (slices.Sort (Required s'))
                    (set_Required None (set_Properties None (set_Items None s')))))).
  now rewrite Hf.
Qed.

Lemma sameButRequired_refl : forall s, sameButRequired s s.
Proof.
  induction s as [s IH] using Schema_sorted_ind.
  unfold sortedChildren, properties in IH. apply Forall_app in IH as [IHp IHi].
  constructor; try reflexivity.
  - destruct (Properties s) as [om|]; constructor.
    induction om as [|[k c] om IHom]; constructor.
    + split; [reflexivity|]. now inversion IHp.
    + apply IHom. now inversion IHp.
  - destruct (Items s) as [c|]; constructor. now inversion IHi.
Qed.

Lemma Sort_eq r r' :
  slices.Sort r = slices.Sort r' ->
  (r = None <-> r' = None) /\ Permutation (elems r) (elems r').
Proof.
  destruct r as [l|], r' as [l'|]; simpl; intros H; try discriminate H.
  - split; [split; discriminate|].
    inversion H as [Hs].
    rewrite (sorted_Permutation l), (sorted_Permutation l'), Hs. reflexivity.
  - split; [tauto|constructor].
Qed.

Lemma sorted_sameButRequired :
  forall s s', sortSchemaSlices s = sortSchemaSlices s' -> sameButRequired s s'.
Proof.
  induction s as [s IH] using Schema_sorted_ind. intros s' H.
  unfold sortedChildren, properties in IH. apply Forall_app in IH as [IHp IHi].
  rewrite !sortSchemaSlices_eq in H.
  pose proof (f_equal (fun x => set_Required None (set_Properties None (set_Items None x))) H)
    as Hf.
  pose proof (f_equal Required H) as Hr.
  pose proof (f_equal Properties H) as Hp.
  pose proof (f_equal Items H) as Hi.
  clear H. simpl in Hr, Hp, Hi.
  apply Sort_eq in Hr as [Hn Hperm].
  constructor; [exact Hf|exact Hn|exact Hperm| |]; clear Hf Hn Hperm.
  - destruct (Properties s) as [om|], (Properties s') as [om'|]; simpl in Hp;
      try discriminate Hp; constructor.
    inversion Hp as [Hm]. clear Hp. simpl in IHp. revert om' Hm.
    induction om as [|[k c] om IHom]; intros [|[k' c'] om'] Hm;
      try discriminate Hm; constructor.
    + inversion Hm. inversion IHp; subst. split; [reflexivity|]. simpl. auto.
    + inversion Hm. inversion IHp; subst. now apply IHom.
  - destruct (Items s) as [c|], (Items s') as [c'|]; simpl in Hi;
      try discriminate Hi; constructor.
    inversion Hi. simpl in IHi. inversion IHi; subst. auto.
Qed.

(** [ConvertSchema] gives the same value for two schemas that differ only
    in the order of the names of [Required], at the node itself or at any
    node under [Properties] and [Items]; and these are the only schemas
    that it leaves the same: when the schemas after the call are equal, the
    schemas before it differed in that order only. *)
Theorem ConvertSchema_Required_order
    (jsonError : Type) (Marshal : Schema -> list ascii + jsonError)
    (Unmarshal : list ascii -> any + jsonError) (s s' : Schema) :
  (sameButRequired s s' ->
   ConvertSchema jsonError Marshal Unmarshal s
   = ConvertSchema jsonError Marshal Unmarshal s')
  /\ (fst (ConvertSchema jsonError Marshal Unmarshal s)
      = fst (ConvertSchema jsonError Marshal Unmarshal s')
      -> sameButRequired s s').
Proof.
  unfold ConvertSchema. split.
  - intros H. now rewrite (sameButRequired_sorted s s' H).
  - simpl. apply sorted_sameButRequired.
Qed.

Lemma ConvertSchema_Required_order_witness :
  ConvertSchema unit (fun _ => inl []) (fun _ => inl Nil)
    (set_Properties (Some [("address", set_Required (Some ["zip"; "city"]) zero)]) zero)
  = ConvertSchema unit (fun _ => inl []) (fun _ => inl Nil)
      (set_Properties (Some [("address", set_Required (Some ["city"; "zip"]) zero)]) zero).
Proof.
  apply (proj1 (ConvertSchema_Required_order unit (fun _ => inl []) (fun _ => inl Nil) _ _)).
  constructor; try reflexivity; [|constructor].
  constructor. constructor; [|constructor].
  split; [reflexivity|].
  apply sameButRequired_intro.
  - reflexivity.
  - split; discriminate.
  - apply perm_swap.
  - constructor.
  - constructor.
Defined.

Lemma ToJSONSchema_nil_iff_witness :
  ToJSONSchema Nil = Return None None
  /\ ToJSONSchema (Slice None) <> Return None None.
Proof.
  split.
  - exact (proj2 (ToJSONSchema_nil_iff Nil) eq_refl).
  - intros H. apply (proj1 (ToJSONSchema_nil_iff (Slice None))) in H. discriminate H.
Defined.

Lemma parsePico_accepts_witness :
  (exists s,
     parsePico (Map (GoMap [("tags(array)", Str "string"); ("c?(enum)", Slice (Some []))]))
     = Return (Some s) None)
  /\ exists err,
       parsePico (Map (GoMap [("n", Int KInt 3)])) = Return None (Some err).
Proof.
  split.
  - apply (proj1 (parsePico_accepts _)). reflexivity.
  - apply (proj2 (parsePico_accepts _)). reflexivity.
Defined.
